(** * audio_utils/Statistics.h: running weighted statistics

    A shallow embedding of [audio_utils/include/audio_utils/Statistics.h]
    (namespace [android]): the compensated sum [KahanSum], the sentinels of
    [StatisticsConstants], the one-pass engine [Statistics], the naive engine
    [ReferenceStatistics], the reductions [audio_utils_max] and
    [audio_utils_min], and the constexpr square root [audio_utils_sqrt].

    The header is a family of templates over numeric types.  The embedding is
    written once, over a class [Arith] of the operations the templates use,
    and is read at two instances:

    - [double]: IEEE 754 binary64 with round-to-nearest-even, the type the
      header defaults to, as given by the Standard Library's [SpecFloat];
    - [exact]: exact arithmetic on the rationals, extended by the two
      infinities (used as min/max sentinels) and one undefined value (the
      result of a division by zero).

    The sample type [T] and the accumulator type [D] of the templates are
    taken equal.

    The termination of the square root on [double] is proved from the
    definitions of [SpecFloat] alone: the values of the floats are read in
    the real numbers, and each operation is shown to round to nearest. *)

From Stdlib Require Import ZArith List Bool Lia.
From Stdlib Require Import Reals Psatz.
From Stdlib Require Import QArith Qcanon.
From Stdlib Require Import Floats.SpecFloat.
Import ListNotations.

Set Implicit Arguments.

(** ** The numeric operations used by the templates *)

Class Arith (D : Type) : Type := {
  zero : D;                       (* D{} *)
  one : D;                        (* D(1.) *)
  half : D;                       (* T(0.5) *)
  add : D -> D -> D;
  sub : D -> D -> D;
  mul : D -> D -> D;
  div : D -> D -> D;
  neg : D -> D;                   (* unary minus *)
  ltb : D -> D -> bool;           (* operator< *)
  eqb : D -> D -> bool;           (* operator== *)
  infinity : D;                   (* std::numeric_limits<T>::infinity() *)
  quiet_NaN : D;                  (* std::numeric_limits<T>::quiet_NaN() *)
  builtin_isnan : D -> bool       (* __builtin_isnan *)
}.

Declare Scope arith_scope.
Delimit Scope arith_scope with A.
Infix "+" := add : arith_scope.
Infix "-" := sub : arith_scope.
Infix "*" := mul : arith_scope.
Infix "/" := div : arith_scope.
Infix "<?" := ltb : arith_scope.
Infix "=?" := eqb : arith_scope.
Notation "x >? y" := (ltb y x) (only parsing) : arith_scope.

(** [int64_t]: the counter [mN], with two's complement wrap-around. *)
Definition int64_wrap (z : Z) : Z := ((z + 2 ^ 63) mod 2 ^ 64 - 2 ^ 63)%Z.

Section Templates.
Context {D : Type} `{Arith D}.
Local Open Scope arith_scope.

(** [std::max(a, b)] is [(a < b) ? b : a]; [std::min(a, b)] is
    [(b < a) ? b : a]. *)
Definition std_max (a b : D) : D := if a <? b then b else a.
Definition std_min (a b : D) : D := if b <? a then b else a.

(** ** KahanSum *)

Record KahanSum : Type := mkKahanSum {
  mSum : D;
  mCorrection : D   (* negative low order bits of mSum *)
}.

(** Value initialisation [KahanSum<T>{}], also what [reset()] leaves. *)
Definition KahanSum_init : KahanSum := mkKahanSum zero zero.

(** [operator+=] *)
Definition KahanSum_add (k : KahanSum) (rhs : D) : KahanSum :=
  let y := rhs - mCorrection k in
  let t := mSum k + y in
  mkKahanSum t ((t - mSum k) - y).

(** [operator T()] *)
Definition KahanSum_value (k : KahanSum) : D := mSum k.

(** ** StatisticsConstants, for a type with infinities *)
Definition mNegativeInfinity : D := neg infinity.
Definition mPositiveInfinity : D := infinity.

(** ** Statistics *)

Record Statistics : Type := mkStatistics {
  mAlpha : D;
  mMin : D;
  mMax : D;
  mN : Z;            (* running count of samples *)
  mWeight : D;       (* sum of weights *)
  mWeight2 : D;      (* sum of weights squared *)
  mMean : KahanSum;  (* running mean *)
  mM2 : D            (* running unnormalized variance *)
}.

(** The constructor [Statistics(D alpha = D(1.))]. *)
Definition Statistics_new (alpha : D) : Statistics :=
  mkStatistics alpha mPositiveInfinity mNegativeInfinity 0 zero zero
               KahanSum_init zero.

Definition setAlpha (alpha : D) (s : Statistics) : Statistics :=
  mkStatistics alpha (mMin s) (mMax s) (mN s) (mWeight s) (mWeight2 s)
               (mMean s) (mM2 s).

Definition Statistics_add (value : D) (s : Statistics) : Statistics :=
  let mMax' := std_max (mMax s) value in   (* order important: reject NaN *)
  let mMin' := std_min (mMin s) value in   (* order important: reject NaN *)
  let mN' := int64_wrap (mN s + 1) in
  let delta := value - KahanSum_value (mMean s) in
  let mWeight' := one + mAlpha s * mWeight s in
  let mWeight2' := one + mAlpha s * mAlpha s * mWeight2 s in
  let mMean' := KahanSum_add (mMean s) (delta / mWeight') in
  let mM2' := mAlpha s * mM2 s + delta * (value - KahanSum_value mMean') in
  mkStatistics (mAlpha s) mMin' mMax' mN' mWeight' mWeight2' mMean' mM2'.

Definition getN (s : Statistics) : Z := mN s.

Definition Statistics_reset (s : Statistics) : Statistics :=
  mkStatistics (mAlpha s) mPositiveInfinity mNegativeInfinity 0 zero zero
               KahanSum_init zero.

Definition getWeight (s : Statistics) : D := mWeight s.

Definition getMean (s : Statistics) : D := KahanSum_value (mMean s).

(** Reliability correction for unbiasing the variance. *)
Definition getSampleWeight (s : Statistics) : D :=
  mWeight s - mWeight2 s / mWeight s.

Definition getVariance (s : Statistics) : D :=
  if (mN s <? 2)%Z then zero else mM2 s / getSampleWeight s.

Definition getPopVariance (s : Statistics) : D :=
  if (mN s <? 1)%Z then zero else mM2 s / mWeight s.

Definition getMin (s : Statistics) : D := mMin s.
Definition getMax (s : Statistics) : D := mMax s.

(** The term [delta * (value - mMean)] that [add] puts into [mM2], with
    [mMean] read after its update. *)
Definition m2_increment (value : D) (s : Statistics) : D :=
  let delta := value - KahanSum_value (mMean s) in
  let mWeight' := one + mAlpha s * mWeight s in
  let mMean' := KahanSum_add (mMean s) (delta / mWeight') in
  delta * (value - KahanSum_value mMean').

(** ** ReferenceStatistics *)

Record ReferenceStatistics : Type := mkReference {
  rMin : D;
  rMax : D;
  rAlpha : D;             (* current alpha value *)
  mData : list D;         (* all the data, mData[0] most recent *)
  mAlphaList : list D     (* alpha value for the data added *)
}.

Definition Reference_new (alpha : D) : ReferenceStatistics :=
  mkReference zero zero alpha [] [].

Definition Reference_setAlpha (alpha : D) (r : ReferenceStatistics)
  : ReferenceStatistics :=
  mkReference (rMin r) (rMax r) alpha (mData r) (mAlphaList r).

Definition Reference_getN (r : ReferenceStatistics) : Z :=
  Z.of_nat (length (mData r)).

Definition Reference_add (value : D) (r : ReferenceStatistics)
  : ReferenceStatistics :=
  let '(mMin', mMax') :=
    if (Reference_getN r =? 0)%Z then (value, value)
    else if value >? rMax r then (rMin r, value)
    else if value <? rMin r then (value, rMax r)
    else (rMin r, rMax r) in
  mkReference mMin' mMax' (rAlpha r) (value :: mData r)
              (rAlpha r :: mAlphaList r).

Definition Reference_reset (r : ReferenceStatistics) : ReferenceStatistics :=
  mkReference zero zero (rAlpha r) [] [].

(** The four loops [for (size_t i = 0; i < mData.size(); ++i)], each with its
    two running variables; [data] and [alist] are what is left of [mData] and
    [mAlphaList] from index [i] on. *)
Fixpoint getWeight_loop (data alist : list D) (weight alpha_i : D) : D :=
  match data, alist with
  | _ :: data', a :: alist' =>
      getWeight_loop data' alist' (weight + alpha_i) (alpha_i * a)
  | _, _ => weight
  end.

Fixpoint getWeight2_loop (data alist : list D) (weight2 alpha2_i : D) : D :=
  match data, alist with
  | _ :: data', a :: alist' =>
      getWeight2_loop data' alist' (weight2 + alpha2_i) (alpha2_i * (a * a))
  | _, _ => weight2
  end.

Fixpoint getMean_loop (data alist : list D) (wsum alpha_i : D) : D :=
  match data, alist with
  | x :: data', a :: alist' =>
      getMean_loop data' alist' (wsum + alpha_i * x) (alpha_i * a)
  | _, _ => wsum
  end.

Fixpoint getUnweightedVariance_loop (mean : D) (data alist : list D)
                                    (wsum alpha_i : D) : D :=
  match data, alist with
  | x :: data', a :: alist' =>
      let diff := x - mean in
      getUnweightedVariance_loop mean data' alist'
                                 (wsum + alpha_i * diff * diff) (alpha_i * a)
  | _, _ => wsum
  end.

Definition Reference_getWeight (r : ReferenceStatistics) : D :=
  getWeight_loop (mData r) (mAlphaList r) zero one.

Definition Reference_getWeight2 (r : ReferenceStatistics) : D :=
  getWeight2_loop (mData r) (mAlphaList r) zero one.

Definition Reference_getMean (r : ReferenceStatistics) : D :=
  getMean_loop (mData r) (mAlphaList r) zero one / Reference_getWeight r.

Definition getUnweightedVariance (r : ReferenceStatistics) : D :=
  getUnweightedVariance_loop (Reference_getMean r) (mData r) (mAlphaList r)
                             zero one.

Definition Reference_getVariance (r : ReferenceStatistics) : D :=
  getUnweightedVariance r
  / (Reference_getWeight r - Reference_getWeight2 r / Reference_getWeight r).

Definition Reference_getPopVariance (r : ReferenceStatistics) : D :=
  getUnweightedVariance r / Reference_getWeight r.

Definition Reference_getMin (r : ReferenceStatistics) : D := rMin r.
Definition Reference_getMax (r : ReferenceStatistics) : D := rMax r.

(** ** Free reductions *)

(** [audio_utils_max(begin, end)]: the loop from [maxValue]. *)
Definition audio_utils_max (a : list D) : D :=
  fold_left std_max a mNegativeInfinity.

Definition audio_utils_min (a : list D) : D :=
  fold_left std_min a mPositiveInfinity.

(** ** Square root by the Babylonian method *)

(** [audio_utils_isnan] returns its answer converted to [T]. *)
Definition audio_utils_isnan (x : D) : D :=
  if builtin_isnan x then one else zero.

(** A value of type [T] used as a condition: true unless it compares equal
    to zero. *)
Definition truthy (x : D) : bool := negb (x =? zero).

(** The recursion of [audio_utils_sqrt_unchecked] has no structural
    argument: [fuel] bounds the number of calls, and [None] means that the
    bound was reached before [next == prev]. *)
Fixpoint audio_utils_sqrt_unchecked (fuel : nat) (x prev : D) : option D :=
  match fuel with
  | O => None
  | S fuel' =>
      let next := half * (prev + x / prev) in
      if next =? prev then Some next
      else audio_utils_sqrt_unchecked fuel' x next
  end.

Definition audio_utils_sqrt (fuel : nat) (x : D) : option D :=
  if x <? zero then Some quiet_NaN
  else if truthy (audio_utils_isnan x) || (x =? infinity) || (x =? zero)
       then Some x
  else audio_utils_sqrt_unchecked fuel x one.

(** ** Sequences of calls *)

(** The mutators of either engine. *)
Inductive call : Type :=
  | Add (value : D)
  | SetAlpha (alpha : D)
  | Reset.

Definition exec (c : call) (s : Statistics) : Statistics :=
  match c with
  | Add value => Statistics_add value s
  | SetAlpha alpha => setAlpha alpha s
  | Reset => Statistics_reset s
  end.

Definition Reference_exec (c : call) (r : ReferenceStatistics)
  : ReferenceStatistics :=
  match c with
  | Add value => Reference_add value r
  | SetAlpha alpha => Reference_setAlpha alpha r
  | Reset => Reference_reset r
  end.

(** The calls of [t], first to last. *)
Definition run (t : list call) (s : Statistics) : Statistics :=
  fold_left (fun s c => exec c s) t s.

Definition Reference_run (t : list call) (r : ReferenceStatistics)
  : ReferenceStatistics :=
  fold_left (fun r c => Reference_exec c r) t r.

(** [add] for each sample of [l], first to last. *)
Definition feed (l : list D) (s : Statistics) : Statistics :=
  run (map Add l) s.

Definition Reference_feed (l : list D) (r : ReferenceStatistics)
  : ReferenceStatistics :=
  Reference_run (map Add l) r.

End Templates.

Arguments KahanSum D : clear implicits.
Arguments Statistics D : clear implicits.
Arguments ReferenceStatistics D : clear implicits.
Arguments call D : clear implicits.

(** ** NeumaierSum, and what is left of KahanSum *)

Section Sums.
Context {D : Type} `{Arith D}.
Local Open Scope arith_scope.

(** [KahanSum::reset()] *)
Definition KahanSum_reset (k : KahanSum D) : KahanSum D :=
  mkKahanSum zero zero.

(** [a >= b]: greater or equal; false when either side is Not-a-Number. *)
Definition geb (a b : D) : bool := (b <? a) || (a =? b).

(** The two members of [NeumaierSum] have the names of those of [KahanSum];
    here they are [nSum] and [nCorrection]. *)
Record NeumaierSum : Type := mkNeumaierSum {
  nSum : D;
  nCorrection : D   (* low order bits of mSum *)
}.

Definition NeumaierSum_init : NeumaierSum := mkNeumaierSum zero zero.

(** [const_abs(x)] is [x < T{} ? -x : x]. *)
Definition const_abs (x : D) : D := if x <? zero then neg x else x.

(** [operator+=] *)
Definition NeumaierSum_add (k : NeumaierSum) (rhs : D) : NeumaierSum :=
  let t := nSum k + rhs in
  let mCorrection' :=
    if geb (const_abs (nSum k)) (const_abs rhs)
    then nCorrection k + ((nSum k - t) + rhs)
    else nCorrection k + ((rhs - t) + nSum k) in
  mkNeumaierSum t mCorrection'.

(** [operator T()] *)
Definition NeumaierSum_value (k : NeumaierSum) : D := nSum k + nCorrection k.

Definition NeumaierSum_reset (k : NeumaierSum) : NeumaierSum :=
  mkNeumaierSum zero zero.

(** The argument [prev] of the call of [audio_utils_sqrt_unchecked] that
    comes after [n] calls, when none of these returns. *)
Fixpoint sqrt_unchecked_prev (n : nat) (x prev : D) : option D :=
  match n with
  | O => Some prev
  | S n' =>
      let next := half * (prev + x / prev) in
      if next =? prev then None else sqrt_unchecked_prev n' x next
  end.

(** The constructor [Statistics(const T (&a)[N], D alpha = D(1.))]. *)
Definition Statistics_of_array (a : list D) (alpha : D) : Statistics D :=
  fold_left (fun s data => Statistics_add data s) a (Statistics_new alpha).

End Sums.

Arguments NeumaierSum D : clear implicits.

(** ** The reductions that sum

    [audio_utils_sum] and [audio_utils_sumSqDiff] take the type [S] of their
    running sum as a template parameter.  What they use of it is the value
    initialisation [S{}], [operator+=] with a [D], and the conversion to [D]
    of the forms for arrays. *)
Class Summation (D S : Type) : Type := {
  sum_init : S;
  sum_add : S -> D -> S;
  sum_value : S -> D
}.

(** [S = KahanSum<D>], the default; [S = NeumaierSum<D>]; and [S = D], the sum
    without compensation. *)
#[export] Instance KahanSum_Summation {D : Type} `{Arith D}
  : Summation D (KahanSum D) := {
  sum_init := KahanSum_init;
  sum_add := KahanSum_add;
  sum_value := KahanSum_value
}.

#[export] Instance NeumaierSum_Summation {D : Type} `{Arith D}
  : Summation D (NeumaierSum D) := {
  sum_init := NeumaierSum_init;
  sum_add := NeumaierSum_add;
  sum_value := NeumaierSum_value
}.

Definition plain_Summation {D : Type} `{Arith D} : Summation D D := {|
  sum_init := zero;
  sum_add := add;
  sum_value := fun sum => sum
|}.

Section Reductions.
Context {D : Type} `{Arith D} (S : Type) {Sm : Summation D S}.
Local Open Scope arith_scope.

(** [audio_utils_sum<D, S>(begin, end)] returns the running sum itself. *)
Definition audio_utils_sum (a : list D) : S :=
  fold_left sum_add a sum_init.

(** [audio_utils_sumSqDiff<D, S>(begin, end, x)] *)
Definition audio_utils_sumSqDiff (a : list D) (x : D) : S :=
  fold_left (fun sum v => let diff := v - x in sum_add sum (diff * diff))
            a sum_init.

(** The forms for arrays return a [D]. *)
Definition audio_utils_sum_array (a : list D) : D :=
  sum_value (audio_utils_sum a).

Definition audio_utils_sumSqDiff_array (a : list D) (x : D) : D :=
  sum_value (audio_utils_sumSqDiff a x).

End Reductions.

Arguments audio_utils_sum {D} S {Sm} a.
Arguments audio_utils_sumSqDiff {D} {_} S {Sm} a x.
Arguments audio_utils_sum_array {D} S {Sm} a.
Arguments audio_utils_sumSqDiff_array {D} {_} S {Sm} a x.

(** A sequence of calls without [reset()]. *)
Definition no_reset {D : Type} (t : list (call D)) : bool :=
  forallb (fun c => match c with Reset => false | _ => true end) t.

(** ** Instance: IEEE 754 binary64 *)

Module Binary64.

Definition prec : Z := 53.
Definition emax : Z := 1024.

(** A [double] is a [spec_float]; the values the operations produce from
    valid ones are valid ([valid_binary prec emax]). *)
Definition double : Type := spec_float.

Definition is_nan (x : double) : bool :=
  match x with S754_nan => true | _ => false end.

Definition is_finite (x : double) : bool :=
  match x with S754_zero _ | S754_finite _ _ _ => true | _ => false end.

(** The integer [m * 2^e], rounded to a [double]. *)
Definition of_Z_exp (m e : Z) : double := binary_normalize prec emax m e false.

Definition d_zero : double := S754_zero false.
Definition d_one : double := Eval vm_compute in of_Z_exp 1 0.
Definition d_half : double := Eval vm_compute in of_Z_exp 1 (-1).
Definition d_infinity : double := S754_infinity false.

#[export] Instance double_Arith : Arith double := {
  zero := d_zero;
  one := d_one;
  half := d_half;
  add := SFadd prec emax;
  sub := SFsub prec emax;
  mul := SFmul prec emax;
  div := SFdiv prec emax;
  neg := SFopp;
  ltb := SFltb;
  eqb := SFeqb;
  infinity := d_infinity;
  quiet_NaN := S754_nan;
  builtin_isnan := is_nan
}.

Definition d_two : double := Eval vm_compute in of_Z_exp 2 0.
Definition d_four : double := Eval vm_compute in of_Z_exp 4 0.
Definition d_minus_one : double := Eval vm_compute in of_Z_exp (-1) 0.

(** The samples of [l] that are not Not-a-Number, in their order. *)
Definition numbers (l : list double) : list double :=
  filter (fun x => negb (is_nan x)) l.

(** [m] is a least (a greatest) element of [l], for the order of the
    floating-point comparison. *)
Definition is_min_of (m : double) (l : list double) : Prop :=
  In m l /\ Forall (fun y => SFleb m y = true) l.

Definition is_max_of (m : double) (l : list double) : Prop :=
  In m l /\ Forall (fun y => SFleb y m = true) l.

End Binary64.

(** ** Instance: exact arithmetic *)

Module Exact.

(** The rationals, the two infinities and an undefined value.  The four
    operations are those of the rationals; they are undefined on the other
    values, and so is a division by zero.  The order is that of the extended
    line; every comparison with the undefined value is false. *)
Inductive exact : Type :=
  | Undef
  | NInf
  | PInf
  | Fin (q : Qc).

Definition lift2 (f : Qc -> Qc -> Qc) (x y : exact) : exact :=
  match x, y with
  | Fin a, Fin b => Fin (f a b)
  | _, _ => Undef
  end.

Definition Qc_eqb (a b : Qc) : bool :=
  match (a ?= b)%Qc with Eq => true | _ => false end.

Definition Qc_ltb (a b : Qc) : bool :=
  match (a ?= b)%Qc with Lt => true | _ => false end.

Definition x_div (x y : exact) : exact :=
  match x, y with
  | Fin a, Fin b => if Qc_eqb b 0 then Undef else Fin (a / b)
  | _, _ => Undef
  end.

Definition x_neg (x : exact) : exact :=
  match x with
  | Undef => Undef
  | NInf => PInf
  | PInf => NInf
  | Fin a => Fin (- a)
  end.

Definition x_ltb (x y : exact) : bool :=
  match x, y with
  | Undef, _ | _, Undef => false
  | NInf, NInf => false
  | NInf, _ => true
  | _, NInf => false
  | PInf, _ => false
  | _, PInf => true
  | Fin a, Fin b => Qc_ltb a b
  end.

Definition x_eqb (x y : exact) : bool :=
  match x, y with
  | NInf, NInf | PInf, PInf => true
  | Fin a, Fin b => Qc_eqb a b
  | _, _ => false
  end.

Definition x_isnan (x : exact) : bool :=
  match x with Undef => true | _ => false end.

#[export] Instance exact_Arith : Arith exact := {
  zero := Fin 0;
  one := Fin 1;
  half := Fin (Q2Qc (1 # 2));
  add := lift2 Qcplus;
  sub := lift2 Qcminus;
  mul := lift2 Qcmult;
  div := x_div;
  neg := x_neg;
  ltb := x_ltb;
  eqb := x_eqb;
  infinity := PInf;
  quiet_NaN := Undef;
  builtin_isnan := x_isnan
}.

(** *** Calls with rational arguments, and what both engines keep of them *)

Inductive qcall : Type :=
  | QAdd (value : Qc)
  | QSetAlpha (alpha : Qc)
  | QReset.

Definition to_call (c : qcall) : call exact :=
  match c with
  | QAdd value => Add (Fin value)
  | QSetAlpha alpha => SetAlpha (Fin alpha)
  | QReset => Reset
  end.

Definition calls (t : list qcall) : list (call exact) := map to_call t.

(** The alpha in effect at each [add] of [t], when it is [a] before [t]. *)
Fixpoint alphas_in_effect (a : Qc) (t : list qcall) : list Qc :=
  match t with
  | [] => []
  | QAdd _ :: t' => a :: alphas_in_effect a t'
  | QSetAlpha a' :: t' => alphas_in_effect a' t'
  | QReset :: t' => alphas_in_effect a t'
  end.

(** The alpha left after [t]. *)
Fixpoint final_alpha (a : Qc) (t : list qcall) : Qc :=
  match t with
  | [] => a
  | QSetAlpha a' :: t' => final_alpha a' t'
  | _ :: t' => final_alpha a t'
  end.

(** The samples added since the last reset, most recent first, each with
    the alpha that was in effect when it was added. *)
Fixpoint history (a : Qc) (h : list (Qc * Qc)) (t : list qcall)
  : list (Qc * Qc) :=
  match t with
  | [] => h
  | QAdd v :: t' => history a ((v, a) :: h) t'
  | QSetAlpha a' :: t' => history a' h t'
  | QReset :: t' => history a [] t'
  end.

Definition adds_since_reset (a : Qc) (t : list qcall) : nat :=
  length (history a [] t).

(** The weighted sums of a history [(x_0, a_0), (x_1, a_1), ...]: the
    coefficient of [x_i] is the product of [a_0 .. a_(i-1)]. *)
Fixpoint hW (h : list (Qc * Qc)) : Qc :=
  match h with
  | [] => 0
  | (_, a) :: h' => 1 + a * hW h'
  end.

Fixpoint hW2 (h : list (Qc * Qc)) : Qc :=
  match h with
  | [] => 0
  | (_, a) :: h' => 1 + a * a * hW2 h'
  end.

Fixpoint hS (h : list (Qc * Qc)) : Qc :=
  match h with
  | [] => 0
  | (x, a) :: h' => x + a * hS h'
  end.

Fixpoint hU (m : Qc) (h : list (Qc * Qc)) : Qc :=
  match h with
  | [] => 0
  | (x, a) :: h' => (x - m) * (x - m) + a * hU m h'
  end.

Definition hdata (h : list (Qc * Qc)) : list exact :=
  map (fun p => Fin (fst p)) h.

Definition halphas (h : list (Qc * Qc)) : list exact :=
  map (fun p => Fin (snd p)) h.

(** The state of [Statistics] that stands for the history [h], with mean
    [m]. *)
Record repr (h : list (Qc * Qc)) (m : Qc) (s : Statistics exact) : Prop := {
  repr_weight : mWeight s = Fin (hW h);
  repr_weight2 : mWeight2 s = Fin (hW2 h);
  repr_mean : mMean s = mkKahanSum (Fin m) (Fin 0);
  repr_mean_eq : m * hW h = hS h;
  repr_m2 : mM2 s = Fin (hU m h);
  repr_n : mN s = int64_wrap (Z.of_nat (length h));
  repr_alphas : Forall (fun p => 0 <= snd p) h
}.

(** The state of [ReferenceStatistics] that stores the history [h]. *)
Definition stores (h : list (Qc * Qc)) (r : ReferenceStatistics exact)
  : Prop :=
  mData r = hdata h /\ mAlphaList r = halphas h.

End Exact.


Import Binary64 Exact.

(** ** Binary64 values as real numbers

    What the termination of the square root needs of the format: the value
    of a finite [double], the spacing of the doubles, and what it is for an
    operation to round to nearest. *)

Module Rounding.
Local Open Scope Z_scope.
Local Unset Implicit Arguments.

(** [2^e], and the value [m * 2^e] of a mantissa and an exponent. *)
Definition bpow (e : Z) : R := powerRZ 2 e.

Arguments bpow e : simpl never.

Definition F2R (m e : Z) : R := (IZR m * bpow e)%R.

(** The location of [r / d], a fraction in [0, 1), relative to one half. *)
Definition loc_frac (r d : Z) : location :=
  if r =? 0 then loc_Exact else loc_Inexact (2 * r ?= d).

(** The real number [(Q + r / d) * 2^e]. *)
Definition frac_val (Q r d e : Z) : R :=
  ((IZR Q + IZR r / IZR d) * bpow e)%R.

(** The gap between the float [m * 2^e] and the float below it: half a unit
    in the last place at a power of two, a unit elsewhere. *)
Definition gapb (m e : Z) : R :=
  if (m =? 2 ^ 52) && (-1074 <? e) then bpow (e - 1) else bpow e.

(** [f] is a rounding to nearest of the positive real [y]: [y] is at most
    half a gap away from [f] on either side; zero and infinity are results
    only below half the least float and from the overflow threshold on. *)
Definition rounds_to (y : R) (f : double) : Prop :=
  match f with
  | S754_zero false => (y <= bpow (-1074) / 2)%R
  | S754_finite false m e =>
      bounded 53 1024 m e = true
      /\ (y - F2R (Zpos m) e <= bpow e / 2)%R
      /\ (F2R (Zpos m) e - y <= gapb (Zpos m) e / 2)%R
  | S754_infinity false => (bpow 1024 - bpow 970 <= y)%R
  | _ => False
  end.

(** The value of a [double]; zero for those that have none. *)
Definition B2R (f : double) : R :=
  match f with
  | S754_finite s m e => F2R (cond_Zopp s (Z.pos m)) e
  | _ => 0%R
  end.

(** [f] is a finite, strictly positive [double]. *)
Definition pf (f : double) : Prop :=
  match f with
  | S754_finite false m e => bounded 53 1024 m e = true
  | _ => False
  end.

(** Its exponent, its mantissa, its unit in the last place and the gap
    below it. *)
Definition fexpo (f : double) : Z :=
  match f with
  | S754_finite _ _ e => e
  | _ => 0
  end.

Definition fmant (f : double) : Z :=
  match f with
  | S754_finite _ m _ => Z.pos m
  | _ => 0
  end.

Definition ulp (f : double) : R := bpow (fexpo f).

Definition gapbf (f : double) : R := gapb (fmant f) (fexpo f).

(** The float after [f]. *)
Definition succf (f : double) : double :=
  match f with
  | S754_finite s m e =>
      if Z.pos m + 1 <? 2 ^ 53 then S754_finite s (m + 1) e
      else S754_finite s 4503599627370496 (e + 1)
  | _ => f
  end.

(** Twice a float, and half of it. *)
Definition dbl (f : double) : double :=
  match f with
  | S754_finite s m e => S754_finite s m (e + 1)
  | _ => f
  end.

Definition hlf (f : double) : double :=
  match f with
  | S754_finite s m e => S754_finite s m (e - 1)
  | _ => f
  end.

(** Floats in increasing order, as integers. *)
Definition idx (f : double) : Z := (fexpo f + 1074) * 2 ^ 53 + fmant f.

(** [x] is an integer multiple of [2^E]. *)
Definition multiple_of (E : Z) (x : R) : Prop := exists j : Z, x = F2R j E.

(** *** The iteration of [audio_utils_sqrt_unchecked] on [double] *)

(** [next = T(0.5) * (prev + x / prev)]. *)
Definition newton (x prev : double) : double :=
  (half * (prev + x / prev))%A.

(** The recursion from [prev] returns. *)
Definition terminates (x prev : double) : Prop :=
  exists fuel y, audio_utils_sqrt_unchecked fuel x prev = Some y.

(** One step from [p] is made of three roundings to nearest with finite
    positive results, the last one exact. *)
Record step_ok (x p : double) : Prop := {
  so_q : pf (SFdiv 53 1024 x p);
  so_s : pf (SFadd 53 1024 p (SFdiv 53 1024 x p));
  so_n : pf (newton x p);
  so_rq : rounds_to (B2R x / B2R p) (SFdiv 53 1024 x p);
  so_rs : rounds_to (B2R p + B2R (SFdiv 53 1024 x p))
                    (SFadd 53 1024 p (SFdiv 53 1024 x p));
  so_half : B2R (newton x p)
            = (B2R (SFadd 53 1024 p (SFdiv 53 1024 x p)) / 2)%R;
  so_s_ge : (B2R p <= B2R (SFadd 53 1024 p (SFdiv 53 1024 x p)))%R
}.

(** [p] is at least every normal float below the root of [x]. *)
Definition above_low (x p : double) : Prop :=
  forall f, pf f -> -1074 < fexpo f ->
            (B2R f * B2R f < B2R x)%R -> (B2R f <= B2R p)%R.

(** What holds of every value of [prev] after the first step. *)
Record state_ok (x p : double) : Prop := {
  st_pf : pf p;
  st_exp : -1074 < fexpo p <= 970;
  st_quot : (bpow (-1074) * B2R p <= B2R x)%R;
  st_low : above_low x p
}.

(** 2^-538, a normal float below the root of every positive float. *)
Definition d_low : double := S754_finite false 4503599627370496 (-590).

(** What holds of the greatest float [a] below the root of [x] and of the
    float after it. *)
Record low_facts (x a : double) : Prop := {
  lf_exp : fexpo a <= 459;
  lf_b : pf (succf a);
  lf_bexp : -1074 < fexpo (succf a) <= 970;
  lf_bv : B2R (succf a) = (B2R a + ulp a)%R;
  lf_bgap : gapbf (succf a) = ulp a;
  lf_bulp : (fmant a + 1 < 2 ^ 53 /\ ulp (succf a) = ulp a)
            \/ ulp (succf a) = (2 * ulp a)%R;
  lf_high : (B2R x <= B2R (succf a) * B2R (succf a))%R;
  lf_big : (IZR (2 ^ 52) * ulp a <= B2R a)%R;
  lf_oka : step_ok x a;
  lf_okb : step_ok x (succf a)
}.

End Rounding.

Import Rounding.

(** ** The sums of the documentation

    [sum_{i=1}^n alpha^(n-i) f(x_i)] over the samples [x_1 .. x_n], the first
    added first: the weight is this sum for [f(x) = 1], the mean times the
    weight for [f(x) = x], the variance times the weight for
    [f(x) = (x - mean)^2]. *)
Fixpoint weighted_sum (alpha : Qc) (f : Qc -> Qc) (l : list Qc) : Qc :=
  match l with
  | [] => 0
  | x :: l' => alpha ^ length l' * f x + weighted_sum alpha f l'
  end.

(** What both engines keep of the least and the greatest sample of the
    history [h]. *)
Definition extremes (h : list (Qc * Qc)) (s : Statistics exact)
                    (r : ReferenceStatistics exact) : Prop :=
  match h with
  | [] => mMin s = PInf /\ mMax s = NInf
  | _ :: _ =>
      exists lo hi : Qc,
        mMin s = Fin lo /\ rMin r = Fin lo
        /\ mMax s = Fin hi /\ rMax r = Fin hi
        /\ In lo (map fst h) /\ In hi (map fst h)
        /\ Forall (fun p => lo <= fst p /\ fst p <= hi) h
  end.

(** The state of the online engine in binary64 while every sample added was
    the same number [v]: the mean is [v] with a zero correction, [mM2] is a
    zero, and the weight is a number from 1 on or has overflowed to
    infinity. *)
Definition constant_state (alpha v : double) (st : Statistics double) : Prop :=
  mAlpha st = alpha
  /\ mMean st = mkKahanSum v (S754_zero false)
  /\ (exists z : bool, mM2 st = S754_zero z)
  /\ mMin st = v /\ mMax st = v
  /\ ((pf (mWeight st) /\ (1 <= B2R (mWeight st))%R)
      \/ mWeight st = S754_infinity false).

(** A finite double: a zero, or a mantissa and an exponent within the bounds
    of the format. *)
Definition finite_double (v : double) : Prop :=
  match v with
  | S754_zero _ => True
  | S754_finite _ m e => bounded prec emax m e = true
  | _ => False
  end.

(** * Properties *)

(** ** Rational arithmetic *)

Lemma this_plus (x y : Qc) : (this (x + y)%Qc == this x + this y)%Q.
Proof. apply Qred_correct. Qed.

Lemma this_mult (x y : Qc) : (this (x * y)%Qc == this x * this y)%Q.
Proof. apply Qred_correct. Qed.

Lemma this_opp (x : Qc) : (this (- x)%Qc == - this x)%Q.
Proof. apply Qred_correct. Qed.

Lemma this_minus (x y : Qc) : (this (x - y)%Qc == this x - this y)%Q.
Proof. unfold Qcminus. rewrite this_plus, this_opp. reflexivity. Qed.

Lemma this_0 : (this 0%Qc == 0)%Q.
Proof. reflexivity. Qed.

Lemma this_1 : (this 1%Qc == 1)%Q.
Proof. reflexivity. Qed.

Lemma Q_square_nonneg (d : Q) : (0 <= d * d)%Q.
Proof. nra. Qed.

(** Orders on [Qc] are decided on [Q]. *)
Ltac qc2q :=
  unfold Qcle, Qclt in *;
  repeat (rewrite ?this_plus, ?this_mult, ?this_minus, ?this_opp,
                  ?this_0, ?this_1 in * ).

Lemma Qc_eqb_false (a b : Qc) : a <> b -> Qc_eqb a b = false.
Proof.
  intros Hab. unfold Qc_eqb.
  destruct (a ?= b)%Qc eqn:E; try reflexivity.
  apply Qceq_alt in E. contradiction.
Qed.

Lemma Qc_eqb_refl (a : Qc) : Qc_eqb a a = true.
Proof.
  unfold Qc_eqb. replace (a ?= a)%Qc with Eq; [reflexivity|].
  symmetry. now apply Qceq_alt.
Qed.

Lemma x_div_fin (a b : Qc) : b <> 0%Qc -> x_div (Fin a) (Fin b) = Fin (a / b).
Proof. intros Hb. simpl. now rewrite Qc_eqb_false. Qed.

Lemma x_div_zero (a : Qc) : x_div (Fin a) (Fin 0) = Undef.
Proof. reflexivity. Qed.

Lemma Qc_pos_neq0 (w : Qc) : 0 < w -> w <> 0%Qc.
Proof. intros Hw E. subst w. now apply (Qclt_not_eq 0 0). Qed.

Lemma next_weight_pos (a w : Qc) : 0 <= a -> 0 <= w -> 1 <= 1 + a * w.
Proof. intros. qc2q. nra. Qed.

(** ** The weighted sums of a history *)

Lemma hW_nonneg (h : list (Qc * Qc)) :
  Forall (fun p => 0 <= snd p) h -> 0 <= hW h.
Proof.
  induction 1 as [|[x a] h Ha _ IH]; simpl in *.
  - apply Qcle_refl.
  - apply Qcle_trans with 1; [qc2q; lra | now apply next_weight_pos].
Qed.

Lemma hW_ge_1 (h : list (Qc * Qc)) :
  Forall (fun p => 0 <= snd p) h -> h <> [] -> 1 <= hW h.
Proof.
  intros Hh Hne. destruct h as [|[x a] h]; [congruence|].
  inversion Hh; subst. simpl in *.
  apply next_weight_pos; [assumption | now apply hW_nonneg].
Qed.

Lemma hW_neq0 (h : list (Qc * Qc)) :
  Forall (fun p => 0 <= snd p) h -> h <> [] -> hW h <> 0%Qc.
Proof.
  intros Hh Hne. apply Qc_pos_neq0.
  apply Qclt_le_trans with 1; [qc2q; lra | now apply hW_ge_1].
Qed.

Lemma hW2_nonneg (h : list (Qc * Qc)) : 0 <= hW2 h.
Proof.
  induction h as [|[x a] h IH]; simpl.
  - apply Qcle_refl.
  - qc2q. nra.
Qed.

Lemma hW2_le_sq (h : list (Qc * Qc)) :
  Forall (fun p => 0 <= snd p) h -> hW2 h <= hW h * hW h.
Proof.
  induction 1 as [|[x a] h Ha Hh IH]; simpl in *.
  - qc2q. lra.
  - pose proof (hW_nonneg Hh) as Hw. qc2q.
    set (w := this (hW h)) in *. set (w2 := this (hW2 h)) in *.
    set (b := this a) in *.
    assert (0 <= b * w)%Q by nra.
    assert (0 <= b * b * (w * w - w2))%Q by nra.
    nra.
Qed.

Lemma hW2_lt_sq (h : list (Qc * Qc)) :
  Forall (fun p => 0 < snd p) h -> (2 <= length h)%nat ->
  hW2 h < hW h * hW h.
Proof.
  intros Hpos Hlen.
  assert (Hnn : Forall (fun p => 0 <= snd p) h).
  { eapply Forall_impl; [|exact Hpos]. intros p Hp. now apply Qclt_le_weak. }
  destruct h as [|[x a] h]; [simpl in Hlen; lia|].
  inversion Hpos as [|? ? Ha Hpos']; subst.
  inversion Hnn as [|? ? _ Hnn']; subst.
  assert (Hne : h <> []) by (destruct h; [simpl in Hlen; lia | discriminate]).
  pose proof (hW_ge_1 Hnn' Hne) as Hw.
  pose proof (hW2_le_sq Hnn') as Hsq.
  simpl in *. qc2q.
  set (w := this (hW h)) in *. set (w2 := this (hW2 h)) in *.
  set (b := this a) in *.
  assert (0 < b * w)%Q by nra.
  assert (0 <= b * b * (w * w - w2))%Q by nra.
  nra.
Qed.

(** Moving the centre of the weighted sum of squares. *)
Lemma hU_shift (m m' : Qc) (h : list (Qc * Qc)) :
  hU m' h
  = hU m h - (1 + 1) * (m' - m) * (hS h - m * hW h)
    + (m' - m) * (m' - m) * hW h.
Proof.
  induction h as [|[x a] h IH]; simpl.
  - ring.
  - rewrite IH. ring.
Qed.

Lemma hU_nonneg (m : Qc) (h : list (Qc * Qc)) :
  Forall (fun p => 0 <= snd p) h -> 0 <= hU m h.
Proof.
  induction 1 as [|[x a] h Ha _ IH]; simpl in *.
  - apply Qcle_refl.
  - qc2q.
    assert (0 <= this a * this (hU m h))%Q by nra.
    pose proof (Q_square_nonneg (this x - this m)).
    lra.
Qed.

(** One step of the weighted Welford recurrence. *)
Lemma welford_mean (m v a w s : Qc) :
  1 + a * w <> 0%Qc -> m * w = s ->
  (m + ((v - m) / (1 + a * w) - 0)) * (1 + a * w) = v + a * s.
Proof. intros Hw <-. field. assumption. Qed.

Lemma welford_m2 (m v a : Qc) (h : list (Qc * Qc)) :
  1 + a * hW h <> 0%Qc -> m * hW h = hS h ->
  a * hU m h + (v - m) * (v - (m + ((v - m) / (1 + a * hW h) - 0)))
  = hU (m + ((v - m) / (1 + a * hW h) - 0)) ((v, a) :: h).
Proof.
  intros Hw Hm. simpl.
  rewrite (hU_shift m (m + ((v - m) / (1 + a * hW h) - 0)) h).
  rewrite <- Hm. field. assumption.
Qed.

Lemma increment_nonneg (m v a w : Qc) :
  0 <= a -> 0 <= w ->
  0 <= (v - m) * (v - (m + ((v - m) / (1 + a * w) - 0))).
Proof.
  intros Ha Hw.
  assert (Hw' : 1 + a * w <> 0%Qc).
  { apply Qc_pos_neq0. qc2q. nra. }
  replace ((v - m) * (v - (m + ((v - m) / (1 + a * w) - 0))))
    with ((v - m) / (1 + a * w) * ((v - m) / (1 + a * w))
          * ((1 + a * w) * (a * w))) by (field; assumption).
  set (e := (v - m) / (1 + a * w)).
  qc2q.
  assert (0 <= this a * this w)%Q by nra.
  assert (0 <= (1 + this a * this w) * (this a * this w))%Q by nra.
  assert (0 <= this e * this e)%Q by nra.
  nra.
Qed.

(** ** The counter *)

Lemma int64_wrap_small (z : Z) :
  (- 2 ^ 63 <= z < 2 ^ 63)%Z -> int64_wrap z = z.
Proof.
  intros Hz. unfold int64_wrap.
  rewrite Z.mod_small; lia.
Qed.

Lemma int64_wrap_succ (z : Z) :
  int64_wrap (int64_wrap z + 1) = int64_wrap (z + 1).
Proof.
  unfold int64_wrap.
  replace ((z + 2 ^ 63) mod 2 ^ 64 - 2 ^ 63 + 1 + 2 ^ 63)%Z
    with ((z + 2 ^ 63) mod 2 ^ 64 + 1)%Z by lia.
  replace (z + 1 + 2 ^ 63)%Z with ((z + 2 ^ 63) + 1)%Z by lia.
  now rewrite Zplus_mod_idemp_l.
Qed.

Lemma int64_wrap_add (z k : Z) :
  int64_wrap (int64_wrap z + k) = int64_wrap (z + k).
Proof.
  unfold int64_wrap.
  replace ((z + 2 ^ 63) mod 2 ^ 64 - 2 ^ 63 + k + 2 ^ 63)%Z
    with ((z + 2 ^ 63) mod 2 ^ 64 + k)%Z by lia.
  replace (z + k + 2 ^ 63)%Z with ((z + 2 ^ 63) + k)%Z by lia.
  now rewrite Zplus_mod_idemp_l.
Qed.

(** ** The online engine in exact arithmetic *)

Lemma repr_new (a : Qc) : repr [] 0 (Statistics_new (Fin a)).
Proof.
  constructor; simpl; try reflexivity. constructor.
Qed.

Lemma repr_reset (s : Statistics exact) : repr [] 0 (Statistics_reset s).
Proof.
  constructor; simpl; try reflexivity. constructor.
Qed.

Lemma repr_setAlpha (h : list (Qc * Qc)) (m a : Qc) (s : Statistics exact) :
  repr h m s -> repr h m (setAlpha (Fin a) s).
Proof. intros [? ? ? ? ? ? ?]. constructor; assumption. Qed.

Lemma repr_add (h : list (Qc * Qc)) (m a v : Qc) (s : Statistics exact) :
  repr h m s -> mAlpha s = Fin a -> 0 <= a ->
  repr ((v, a) :: h) (m + ((v - m) / (1 + a * hW h) - 0))
       (Statistics_add (Fin v) s).
Proof.
  intros [Hw Hw2 Hmean Hm Hm2 Hn Hal] Ha Hnn.
  assert (Hw' : 1 + a * hW h <> 0%Qc).
  { apply Qc_pos_neq0.
    apply Qclt_le_trans with 1; [qc2q; lra|].
    apply next_weight_pos; [assumption | now apply hW_nonneg]. }
  destruct s as [sa smin smax sn sw sw2 smean sm2]; simpl in *. subst.
  constructor; unfold Statistics_add; simpl.
  - reflexivity.
  - reflexivity.
  - rewrite Qc_eqb_false by assumption. unfold KahanSum_add. simpl.
    f_equal. f_equal. ring.
  - now apply welford_mean.
  - rewrite Qc_eqb_false by assumption. simpl. f_equal.
    now apply welford_m2.
  - rewrite int64_wrap_succ. f_equal. lia.
  - constructor; assumption.
Qed.

(** Every state reached with non-negative alphas stands for the history of
    the calls. *)
Lemma run_repr (t : list qcall) :
  forall (a : Qc) (h : list (Qc * Qc)) (m : Qc) (s : Statistics exact),
    repr h m s -> mAlpha s = Fin a ->
    Forall (fun a' => 0 <= a') (alphas_in_effect a t) ->
    exists m',
      repr (history a h t) m' (run (calls t) s)
      /\ mAlpha (run (calls t) s) = Fin (final_alpha a t).
Proof.
  induction t as [|[v|a'|] t IH]; intros a h m s Hr Ha Hal; simpl in *.
  - eauto.
  - inversion Hal; subst.
    eapply IH; [apply repr_add; eassumption | exact Ha | assumption].
  - eapply IH; [apply repr_setAlpha; eassumption | reflexivity | assumption].
  - eapply IH; [apply repr_reset | exact Ha | assumption].
Qed.

(** ** The reference engine in exact arithmetic *)

Lemma Reference_run_stores (t : list qcall) :
  forall (a : Qc) (h : list (Qc * Qc)) (r : ReferenceStatistics exact),
    stores h r -> rAlpha r = Fin a ->
    stores (history a h t) (Reference_run (calls t) r).
Proof.
  induction t as [|[v|a'|] t IH]; intros a h r [Hd Hl] Ha; simpl in *.
  - now split.
  - apply IH.
    + unfold Reference_add.
      destruct (if (Reference_getN r =? 0)%Z then _ else _) as [mn mx].
      split; simpl; congruence.
    + unfold Reference_add.
      destruct (if (Reference_getN r =? 0)%Z then _ else _) as [mn mx].
      exact Ha.
  - apply IH; [now split | reflexivity].
  - apply IH; [now split | exact Ha].
Qed.

Lemma getWeight_loop_exact (h : list (Qc * Qc)) :
  forall acc c : Qc,
    getWeight_loop (hdata h) (halphas h) (Fin acc) (Fin c)
    = Fin (acc + c * hW h).
Proof.
  induction h as [|[x a] h IH]; intros acc c; simpl.
  - f_equal. ring.
  - rewrite IH. f_equal. ring.
Qed.

Lemma getWeight2_loop_exact (h : list (Qc * Qc)) :
  forall acc c : Qc,
    getWeight2_loop (hdata h) (halphas h) (Fin acc) (Fin c)
    = Fin (acc + c * hW2 h).
Proof.
  induction h as [|[x a] h IH]; intros acc c; simpl.
  - f_equal. ring.
  - rewrite IH. f_equal. ring.
Qed.

Lemma getMean_loop_exact (h : list (Qc * Qc)) :
  forall acc c : Qc,
    getMean_loop (hdata h) (halphas h) (Fin acc) (Fin c)
    = Fin (acc + c * hS h).
Proof.
  induction h as [|[x a] h IH]; intros acc c; simpl.
  - f_equal. ring.
  - rewrite IH. f_equal. ring.
Qed.

Lemma getUnweightedVariance_loop_exact (m : Qc) (h : list (Qc * Qc)) :
  forall acc c : Qc,
    getUnweightedVariance_loop (Fin m) (hdata h) (halphas h) (Fin acc) (Fin c)
    = Fin (acc + c * hU m h).
Proof.
  induction h as [|[x a] h IH]; intros acc c; simpl.
  - f_equal. ring.
  - rewrite IH. f_equal. ring.
Qed.

Lemma Reference_getWeight_exact (h : list (Qc * Qc))
                                (r : ReferenceStatistics exact) :
  stores h r -> Reference_getWeight r = Fin (hW h).
Proof.
  intros [Hd Hl]. unfold Reference_getWeight. rewrite Hd, Hl.
  change (@zero exact _) with (Fin 0). change (@one exact _) with (Fin 1).
  rewrite getWeight_loop_exact. f_equal. ring.
Qed.

Lemma Reference_getWeight2_exact (h : list (Qc * Qc))
                                 (r : ReferenceStatistics exact) :
  stores h r -> Reference_getWeight2 r = Fin (hW2 h).
Proof.
  intros [Hd Hl]. unfold Reference_getWeight2. rewrite Hd, Hl.
  change (@zero exact _) with (Fin 0). change (@one exact _) with (Fin 1).
  rewrite getWeight2_loop_exact. f_equal. ring.
Qed.

Lemma Reference_getMean_exact (h : list (Qc * Qc))
                              (r : ReferenceStatistics exact) :
  stores h r -> hW h <> 0%Qc -> Reference_getMean r = Fin (hS h / hW h).
Proof.
  intros Hs Hw. unfold Reference_getMean.
  rewrite (Reference_getWeight_exact Hs).
  destruct Hs as [Hd Hl]. rewrite Hd, Hl.
  change (@zero exact _) with (Fin 0). change (@one exact _) with (Fin 1).
  rewrite getMean_loop_exact.
  change (x_div (Fin (0 + 1 * hS h)) (Fin (hW h)) = Fin (hS h / hW h)).
  rewrite x_div_fin by assumption. f_equal. field. assumption.
Qed.

Lemma getUnweightedVariance_exact (h : list (Qc * Qc))
                                  (r : ReferenceStatistics exact) :
  stores h r -> hW h <> 0%Qc ->
  getUnweightedVariance r = Fin (hU (hS h / hW h) h).
Proof.
  intros Hs Hw. unfold getUnweightedVariance.
  rewrite (Reference_getMean_exact Hs Hw).
  destruct Hs as [Hd Hl]. rewrite Hd, Hl.
  change (@zero exact _) with (Fin 0). change (@one exact _) with (Fin 1).
  rewrite getUnweightedVariance_loop_exact. f_equal. ring.
Qed.

(** ** Feeding samples under one alpha *)

Lemma calls_QAdd (l : list Qc) :
  calls (map QAdd l) = map (@Add exact) (map Fin l).
Proof. unfold calls. rewrite !map_map. reflexivity. Qed.

Lemma alphas_in_effect_QAdd (a : Qc) (l : list Qc) :
  alphas_in_effect a (map QAdd l) = map (fun _ => a) l.
Proof. induction l as [|v l IH]; simpl; congruence. Qed.

Lemma final_alpha_QAdd (a : Qc) (l : list Qc) :
  final_alpha a (map QAdd l) = a.
Proof. induction l as [|v l IH]; simpl; congruence. Qed.

Lemma history_QAdd (a : Qc) (l : list Qc) :
  forall h, history a h (map QAdd l) = rev (map (fun v => (v, a)) l) ++ h.
Proof.
  induction l as [|v l IH]; intros h; simpl.
  - reflexivity.
  - rewrite IH, <- app_assoc. reflexivity.
Qed.

Lemma history_QAdd_length (a : Qc) (l : list Qc) :
  length (history a [] (map QAdd l)) = length l.
Proof.
  rewrite history_QAdd, app_nil_r, length_rev, length_map. reflexivity.
Qed.

Lemma history_QAdd_alpha (a : Qc) (l : list Qc) :
  Forall (fun p => snd p = a) (history a [] (map QAdd l)).
Proof.
  rewrite history_QAdd, app_nil_r.
  apply Forall_rev, Forall_map, Forall_forall. reflexivity.
Qed.

Lemma Forall_const (P : Qc -> Prop) (a : Qc) (l : list Qc) :
  P a -> Forall P (map (fun _ => a) l).
Proof. intros Ha. apply Forall_map, Forall_forall. auto. Qed.

(** With one alpha [a] the two weights are tied by
    [weight2 * (1 + a) = weight * (weight * (a - 1) + 2)]. *)
Lemma hW2_constant_alpha (a : Qc) (h : list (Qc * Qc)) :
  Forall (fun p => snd p = a) h ->
  hW2 h * (1 + a) = hW h * (hW h * (a - 1) + (1 + 1)).
Proof.
  induction 1 as [|[x b] h Hb _ IH]; simpl in *.
  - ring.
  - subst b.
    replace ((1 + a * a * hW2 h) * (1 + a))
      with ((1 + a) + a * a * (hW2 h * (1 + a))) by ring.
    rewrite IH. ring.
Qed.

(** ** Both engines on the same calls *)

Lemma engines_agree (a : Qc) (t : list qcall) :
  Forall (fun a' => 0 <= a') (alphas_in_effect a t) ->
  let s := run (calls t) (Statistics_new (Fin a)) in
  let r := Reference_run (calls t) (Reference_new (Fin a)) in
  (1 <= adds_since_reset a t -> getMean s = Reference_getMean r)%nat
  /\ (2 <= Z.of_nat (adds_since_reset a t) < 2 ^ 63 ->
      getVariance s = Reference_getVariance r)%Z.
Proof.
  intros Hal s r. unfold adds_since_reset.
  destruct (run_repr t (repr_new a) eq_refl Hal) as [m [Hr _]].
  fold s in Hr.
  assert (Hs : stores (history a [] t) r).
  { apply Reference_run_stores; [now split | reflexivity]. }
  set (h := history a [] t) in *.
  assert (Hmean : h <> [] -> m = hS h / hW h).
  { intros Hne. pose proof (hW_neq0 (repr_alphas Hr) Hne) as Hw.
    rewrite <- (repr_mean_eq Hr). field. assumption. }
  split.
  - intros Hlen.
    assert (Hne : h <> []) by (destruct h; [simpl in Hlen; lia | discriminate]).
    rewrite (Reference_getMean_exact Hs (hW_neq0 (repr_alphas Hr) Hne)).
    unfold getMean. rewrite (repr_mean Hr). simpl. f_equal. auto.
  - intros Hlen.
    assert (Hne : h <> []) by (destruct h; [simpl in Hlen; lia | discriminate]).
    pose proof (hW_neq0 (repr_alphas Hr) Hne) as Hw.
    unfold getVariance, Reference_getVariance, getSampleWeight.
    rewrite (repr_n Hr), int64_wrap_small by lia.
    replace (Z.of_nat (length h) <? 2)%Z with false by (symmetry; apply Z.ltb_ge; lia).
    rewrite (getUnweightedVariance_exact Hs Hw),
            (Reference_getWeight_exact Hs), (Reference_getWeight2_exact Hs),
            (repr_m2 Hr), (repr_weight Hr), (repr_weight2 Hr).
    rewrite (Hmean Hne). reflexivity.
Qed.

(** C1, as amended.  With alpha equal to 1 throughout and the same samples
    added in the same order, in exact arithmetic: [getMean()] of the online
    engine equals [getMean()] of the reference engine once a sample has been
    added, and [getVariance()] of the two are equal once two samples have
    been added (and fewer than 2^63, the range of the counter). *)
Theorem C1_online_matches_reference (l : list Qc) :
  let s := feed (map Fin l) (Statistics_new one) in
  let r := Reference_feed (map Fin l) (Reference_new one) in
  ((1 <= length l)%nat -> getMean s = Reference_getMean r)
  /\ ((2 <= Z.of_nat (length l) < 2 ^ 63)%Z ->
      getVariance s = Reference_getVariance r).
Proof.
  intros s r. unfold s, r, feed, Reference_feed.
  rewrite <- calls_QAdd.
  assert (Hal : Forall (fun a' => 0 <= a') (alphas_in_effect 1 (map QAdd l))).
  { rewrite alphas_in_effect_QAdd. apply Forall_const. qc2q. lra. }
  pose proof (engines_agree 1 (map QAdd l) Hal) as [Hm Hv].
  unfold adds_since_reset in Hm, Hv. rewrite history_QAdd_length in Hm, Hv.
  split; assumption.
Qed.

Lemma C1_witness :
  getMean (feed (map Fin [1; Q2Qc 3]) (Statistics_new one))
  = Reference_getMean (Reference_feed (map Fin [1; Q2Qc 3]) (Reference_new one))
  /\ getVariance (feed (map Fin [1; Q2Qc 3]) (Statistics_new one))
     = Reference_getVariance
         (Reference_feed (map Fin [1; Q2Qc 3]) (Reference_new one)).
Proof.
  destruct (C1_online_matches_reference [1; Q2Qc 3]) as [Hm Hv].
  split; [apply Hm | apply Hv]; simpl; lia.
Defined.

(** With no sample the reference engine divides zero by zero where the
    online engine returns zero, in exact arithmetic and in binary64 alike;
    with one sample so does the reference variance. *)
Lemma C1_fails_below_two_samples :
  getMean (feed [] (Statistics_new (one : exact)))
  <> Reference_getMean (Reference_feed [] (Reference_new (one : exact)))
  /\ getVariance (feed [Fin 1] (Statistics_new (one : exact)))
     <> Reference_getVariance
          (Reference_feed [Fin 1] (Reference_new (one : exact)))
  /\ getMean (feed [] (Statistics_new (one : double))) = d_zero
  /\ Reference_getMean (Reference_feed [] (Reference_new (one : double)))
     = S754_nan.
Proof.
  repeat split; try discriminate; reflexivity.
Qed.

(** ** The sample weight *)

Lemma sample_weight_constant_alpha (a : Qc) (l : list Qc) :
  0 <= a -> l <> [] ->
  let s := feed (map Fin l) (Statistics_new (Fin a)) in
  exists w w2 : Qc,
    mWeight s = Fin w /\ mWeight2 s = Fin w2 /\ 1 <= w
    /\ w2 * (1 + a) = w * (w * (a - 1) + (1 + 1)).
Proof.
  intros Ha Hne s. unfold s, feed. rewrite <- calls_QAdd.
  assert (Hal : Forall (fun a' => 0 <= a') (alphas_in_effect a (map QAdd l))).
  { rewrite alphas_in_effect_QAdd. now apply Forall_const. }
  destruct (run_repr (map QAdd l) (repr_new a) eq_refl Hal) as [m [Hr _]].
  exists (hW (history a [] (map QAdd l))), (hW2 (history a [] (map QAdd l))).
  repeat split.
  - apply (repr_weight Hr).
  - apply (repr_weight2 Hr).
  - apply hW_ge_1; [apply (repr_alphas Hr)|].
    intros E. apply (f_equal (@length _)) in E.
    rewrite history_QAdd_length in E. destruct l; [congruence | discriminate].
  - apply hW2_constant_alpha, history_QAdd_alpha.
Qed.

(** In exact arithmetic.  [getVariance()] divides by
    [weight - weight2 / weight]; when the samples (at least one) are added
    under one alpha, not negative, this term is
    [(weight - 1) * 2 / (1 + alpha)], and it is [weight - 1] when that
    alpha is 1. *)
Lemma sample_weight_exact (a : Qc) (l : list Qc) :
  0 <= a -> l <> [] ->
  let s := feed (map Fin l) (Statistics_new (Fin a)) in
  getVariance s
  = (if (mN s <? 2)%Z then zero
     else (mM2 s / (mWeight s - mWeight2 s / mWeight s))%A)
  /\ getSampleWeight s
     = ((getWeight s - one) * (one + one) / (one + Fin a))%A
  /\ (a = 1 -> getSampleWeight s = (getWeight s - one)%A).
Proof.
  intros Ha Hne s.
  destruct (sample_weight_constant_alpha Ha Hne) as (w & w2 & Hw & Hw2 & Hw1 & E).
  fold s in Hw, Hw2.
  assert (Hw0 : w <> 0%Qc).
  { apply Qc_pos_neq0. apply Qclt_le_trans with 1; [qc2q; lra | assumption]. }
  assert (Ha1 : 1 + a <> 0%Qc).
  { apply Qc_pos_neq0. qc2q. lra. }
  assert (E2 : w2 = w * (w * (a - 1) + (1 + 1)) / (1 + a)).
  { rewrite <- E. field. assumption. }
  split; [reflexivity|].
  unfold getSampleWeight, getWeight. rewrite Hw, Hw2.
  change (@one exact _) with (Fin 1). simpl.
  rewrite !Qc_eqb_false by assumption.
  split.
  - f_equal. rewrite E2. field. split; assumption.
  - intros ->. f_equal. rewrite E2. field. split; [discriminate | assumption].
Qed.

Lemma Fin_neq (a b : Qc) : Qc_eqb a b = false -> Fin a <> Fin b.
Proof.
  intros Hab E. injection E as E. subst b.
  rewrite Qc_eqb_refl in Hab. discriminate.
Qed.

(** Two samples under alpha = 1/2: weight = 3/2, weight2 = 5/4, and
    [weight - weight2 / weight] is 2/3, not [weight - 1] = 1/2. *)
Lemma C2_fails_for_alpha_one_half :
  let s := feed [Fin 0; Fin 0] (Statistics_new (Fin (Q2Qc (1 # 2)))) in
  getWeight s = Fin (Q2Qc (3 # 2))
  /\ getSampleWeight s = Fin (Q2Qc (2 # 3))
  /\ getSampleWeight s <> (getWeight s - one)%A.
Proof.
  assert (E : forall a b : Qc, this a = this b -> Fin a = Fin b).
  { intros a b Hab. f_equal. apply Qc_is_canon. now rewrite Hab. }
  intros s. split; [|split].
  - apply E. vm_compute. reflexivity.
  - apply E. vm_compute. reflexivity.
  - apply Fin_neq. vm_compute. reflexivity.
Qed.

(** ** The unnormalized variance *)

(** C3.  In exact arithmetic, after any calls and before a further
    [add(value)], with every alpha used by an [add] (that one too) not
    negative: the term [delta * (value - mean)] computed with the updated
    mean is not negative, the [add] sets [m2] to [alpha * m2] plus that term,
    [m2] is not negative after the calls and after the [add], and neither is
    what [getPopVariance()] returns. *)
Theorem C3_m2_nonneg (a : Qc) (t : list qcall) (value : Qc) :
  Forall (fun a' => 0 <= a') (alphas_in_effect a (t ++ [QAdd value])) ->
  let s := run (calls t) (Statistics_new (Fin a)) in
  let s' := Statistics_add (Fin value) s in
  (exists i, m2_increment (Fin value) s = Fin i /\ 0 <= i)
  /\ mM2 s' = (mAlpha s * mM2 s + m2_increment (Fin value) s)%A
  /\ (exists q, mM2 s = Fin q /\ 0 <= q)
  /\ (exists q', mM2 s' = Fin q' /\ 0 <= q')
  /\ (exists p, getPopVariance s = Fin p /\ 0 <= p)
  /\ (exists p', getPopVariance s' = Fin p' /\ 0 <= p').
Proof.
  intros Hal s s'.
  assert (Hpop : forall h m (u : Statistics exact),
             repr h m u -> exists p, getPopVariance u = Fin p /\ 0 <= p).
  { intros h m u Hr. unfold getPopVariance.
    destruct (mN u <? 1)%Z eqn:En;
      [exists 0; split; [reflexivity | apply Qcle_refl]|].
    rewrite (repr_m2 Hr), (repr_weight Hr).
    destruct h as [|p h].
    - rewrite (repr_n Hr) in En. discriminate.
    - assert (Hne : p :: h <> []) by discriminate.
      pose proof (hW_ge_1 (repr_alphas Hr) Hne) as Hw.
      pose proof (hU_nonneg m (repr_alphas Hr)) as Hu.
      assert (Hw0 : hW (p :: h) <> 0%Qc).
      { apply Qc_pos_neq0. apply Qclt_le_trans with 1; [qc2q; lra | exact Hw]. }
      exists (hU m (p :: h) / hW (p :: h)). split.
      + now apply x_div_fin.
      + set (u2 := hU m (p :: h)) in *. set (w := hW (p :: h)) in *.
        assert (E : u2 = u2 / w * w) by (field; assumption).
        set (q := u2 / w) in *. clearbody q u2 w. qc2q.
        destruct (Qlt_le_dec (this q) 0) as [Hneg|]; [|assumption].
        exfalso. rewrite E in Hu. qc2q. nra. }
  assert (Hal' : Forall (fun a' => 0 <= a') (alphas_in_effect a t)
                 /\ 0 <= final_alpha a t).
  { clear - Hal. revert a Hal.
    induction t as [|[v|b|] t IH]; intros a Hal; simpl in *.
    - inversion Hal; subst. split; [constructor | assumption].
    - inversion Hal; subst. destruct (IH a) as [? ?]; [assumption|].
      split; [constructor|]; assumption.
    - now apply IH.
    - now apply IH. }
  destruct Hal' as [Hal1 Hfin].
  destruct (run_repr t (repr_new a) eq_refl Hal1) as [m [Hr Ha]].
  fold s in Hr, Ha.
  pose proof (repr_add value Hr Ha Hfin) as Hr'. fold s' in Hr'.
  pose proof (hW_nonneg (repr_alphas Hr)) as Hw.
  assert (Hw' : 1 + final_alpha a t * hW (history a [] t) <> 0%Qc).
  { apply Qc_pos_neq0. apply Qclt_le_trans with 1; [qc2q; lra|].
    now apply next_weight_pos. }
  assert (Hinc : m2_increment (Fin value) s
                 = Fin ((value - m)
                        * (value - (m + ((value - m)
                             / (1 + final_alpha a t * hW (history a [] t))
                                         - 0))))).
  { unfold m2_increment, KahanSum_add, KahanSum_value.
    rewrite (repr_mean Hr), (repr_weight Hr), Ha. simpl.
    rewrite Qc_eqb_false by assumption. reflexivity. }
  split; [|split; [|split; [|split; [|split]]]].
  - eexists. split; [exact Hinc|]. now apply increment_nonneg.
  - reflexivity.
  - exists (hU m (history a [] t)). split; [apply (repr_m2 Hr)|].
    apply hU_nonneg, (repr_alphas Hr).
  - eexists. split; [apply (repr_m2 Hr')|].
    apply hU_nonneg, (repr_alphas Hr').
  - exact (Hpop _ _ _ Hr).
  - exact (Hpop _ _ _ Hr').
Qed.

Lemma C3_witness :
  exists q', mM2 (Statistics_add (Fin (Q2Qc 5))
                   (run (calls [QAdd 1; QSetAlpha (Q2Qc (1 # 2)); QAdd 0])
                        (Statistics_new (Fin 1))))
             = Fin q' /\ 0 <= q'.
Proof.
  assert (Hal : Forall (fun a' => 0 <= a')
                  (alphas_in_effect 1 ([QAdd 1; QSetAlpha (Q2Qc (1 # 2)); QAdd 0]
                                       ++ [QAdd (Q2Qc 5)]))).
  { simpl. repeat constructor; discriminate. }
  exact (proj1 (proj2 (proj2 (proj2 (C3_m2_nonneg _ _ _ Hal))))).
Defined.

(** ** The divisors *)

(** C10.  In exact arithmetic, after calls whose [add]s all ran under a
    strictly positive alpha: once a sample has been added (since the last
    reset) [weight] is strictly positive, so [getPopVariance()] does not
    divide by zero; once two have been added [weight2 < weight * weight] and
    the divisor [weight - weight2 / weight] of [getVariance()] is strictly
    positive. *)
Theorem C10_divisors_positive (a : Qc) (t : list qcall) :
  Forall (fun a' => 0 < a') (alphas_in_effect a t) ->
  let s := run (calls t) (Statistics_new (Fin a)) in
  ((1 <= adds_since_reset a t)%nat ->
   exists w, mWeight s = Fin w /\ 0 < w)
  /\ ((2 <= adds_since_reset a t)%nat ->
      exists w w2 d,
        mWeight s = Fin w /\ mWeight2 s = Fin w2 /\ w2 < w * w
        /\ getSampleWeight s = Fin d /\ 0 < d).
Proof.
  intros Hpos s. unfold adds_since_reset.
  assert (Hal : Forall (fun a' => 0 <= a') (alphas_in_effect a t)).
  { eapply Forall_impl; [|exact Hpos]. intros b Hb. now apply Qclt_le_weak. }
  destruct (run_repr t (repr_new a) eq_refl Hal) as [m [Hr _]].
  fold s in Hr.
  assert (Hhist : forall t a h,
             Forall (fun p => 0 < snd p) h ->
             Forall (fun a' => 0 < a') (alphas_in_effect a t) ->
             Forall (fun p => 0 < snd p) (history a h t)).
  { clear. induction t as [|[v|b|] t IH]; intros a h Hh Hal; simpl in *.
    - assumption.
    - inversion Hal; subst. apply IH; [constructor|]; assumption.
    - now apply IH.
    - apply IH; [constructor | assumption]. }
  pose proof (Hhist t a [] (Forall_nil _) Hpos) as Hh.
  set (h := history a [] t) in *.
  assert (Hw : (1 <= length h)%nat -> 0 < hW h).
  { intros Hlen. apply Qclt_le_trans with 1; [qc2q; lra|].
    apply hW_ge_1; [apply (repr_alphas Hr)|].
    destruct h; [simpl in Hlen; lia | discriminate]. }
  split.
  - intros Hlen. exists (hW h). split; [apply (repr_weight Hr) | auto].
  - intros Hlen.
    assert (Hw0 : 0 < hW h) by (apply Hw; lia).
    pose proof (hW2_lt_sq Hh Hlen) as Hlt.
    exists (hW h), (hW2 h), (hW h - hW2 h / hW h).
    split; [apply (repr_weight Hr)|].
    split; [apply (repr_weight2 Hr)|].
    split; [assumption|].
    split.
    + unfold getSampleWeight. rewrite (repr_weight Hr), (repr_weight2 Hr).
      simpl. rewrite Qc_eqb_false by now apply Qc_pos_neq0. reflexivity.
    + set (w := hW h) in *. set (w2 := hW2 h) in *.
      assert (E : w2 = w2 / w * w) by (field; now apply Qc_pos_neq0).
      set (q := w2 / w) in *. clearbody q w w2. qc2q.
      destruct (Qlt_le_dec (this q) (this w)) as [|Hge]; [lra|].
      exfalso. rewrite E in Hlt. qc2q. nra.
Qed.

Lemma C10_witness :
  exists w w2 d,
    mWeight (run (calls [QAdd 1; QSetAlpha (Q2Qc (1 # 2)); QAdd 0])
                 (Statistics_new (Fin 1))) = Fin w
    /\ mWeight2 (run (calls [QAdd 1; QSetAlpha (Q2Qc (1 # 2)); QAdd 0])
                     (Statistics_new (Fin 1))) = Fin w2
    /\ w2 < w * w
    /\ getSampleWeight (run (calls [QAdd 1; QSetAlpha (Q2Qc (1 # 2)); QAdd 0])
                            (Statistics_new (Fin 1))) = Fin d
    /\ 0 < d.
Proof.
  assert (Hal : Forall (fun a' => 0 < a')
                  (alphas_in_effect 1 [QAdd 1; QSetAlpha (Q2Qc (1 # 2)); QAdd 0])).
  { simpl. repeat constructor. }
  apply (proj2 (C10_divisors_positive 1 _ Hal)).
  unfold adds_since_reset. simpl. lia.
Defined.

(** ** Reset, and the statistics that are not yet defined *)

(** C5.  Whatever state the engine is in, [reset()] leaves the state of a
    newly constructed engine with the same alpha: count 0, weight 0, mean 0,
    min and max at their sentinels, alpha kept; every sequence of calls then
    gives what it gives on the new engine. *)
Theorem C5_reset_is_new {D : Type} `{Arith D} (s : Statistics D) :
  Statistics_reset s = Statistics_new (mAlpha s)
  /\ getN (Statistics_reset s) = 0%Z
  /\ getWeight (Statistics_reset s) = zero
  /\ getMean (Statistics_reset s) = zero
  /\ getMin (Statistics_reset s) = mPositiveInfinity
  /\ getMax (Statistics_reset s) = mNegativeInfinity
  /\ mAlpha (Statistics_reset s) = mAlpha s
  /\ forall t, run t (Statistics_reset s) = run t (Statistics_new (mAlpha s)).
Proof. repeat split. Qed.

(** In every state [getVariance()] returns zero when the count is below 2
    and [getPopVariance()] returns zero when it is below 1; after one
    sample [v] added to a new engine (exact arithmetic, any alpha) the count
    is 1, the mean is [v], and both variances are zero. *)
Lemma undefined_variances_exact :
  (forall (D : Type) (A : Arith D) (s : Statistics D),
      ((mN s < 2)%Z -> getVariance s = zero)
      /\ ((mN s < 1)%Z -> getPopVariance s = zero))
  /\ (forall a v : Qc,
         let s := Statistics_add (Fin v) (Statistics_new (Fin a)) in
         getN s = 1%Z
         /\ getMean s = Fin v
         /\ getVariance s = zero
         /\ getPopVariance s = zero).
Proof.
  split.
  - intros D A s. unfold getVariance, getPopVariance. split; intros Hn.
    + apply Z.ltb_lt in Hn. now rewrite Hn.
    + apply Z.ltb_lt in Hn. now rewrite Hn.
  - intros a v s.
    assert (Hw : 1 + a * 0 <> 0%Qc).
    { replace (1 + a * 0) with 1 by ring. discriminate. }
    unfold s, getN, getMean, getVariance, getPopVariance, Statistics_add,
      KahanSum_add, KahanSum_value. simpl.
    rewrite !Qc_eqb_false by assumption. simpl.
    rewrite !Qc_eqb_false by assumption.
    split; [reflexivity|]. split; [|split; [reflexivity|]].
    + f_equal. field. discriminate.
    + f_equal. field. discriminate.
Qed.

(** ** The order of binary64 *)

Ltac cmp_cases :=
  repeat match goal with
  | |- context [Z.compare ?a ?b] => destruct (Z.compare_spec a b); subst
  | |- context [Pos.compare_cont Eq ?a ?b] =>
      change (Pos.compare_cont Eq a b) with (Pos.compare a b);
      destruct (Pos.compare_spec a b); subst
  | H : context [Z.compare ?a ?b] |- _ =>
      destruct (Z.compare_spec a b); subst
  | H : context [Pos.compare_cont Eq ?a ?b] |- _ =>
      change (Pos.compare_cont Eq a b) with (Pos.compare a b) in H;
      destruct (Pos.compare_spec a b); subst
  end; simpl in *; try discriminate; try reflexivity; try lia.

Lemma SFcompare_antisym (a b : spec_float) :
  SFcompare b a = option_map CompOpp (SFcompare a b).
Proof.
  destruct a as [[]|[]| |[] ma ea], b as [[]|[]| |[] mb eb]; simpl;
    try reflexivity; cmp_cases.
Qed.

Lemma SFcompare_refl (a : spec_float) :
  is_nan a = false -> SFcompare a a = Some Eq.
Proof.
  destruct a as [[]|[]| |[] ma ea]; simpl; intros; try discriminate;
    try reflexivity;
    rewrite Z.compare_refl, Pos.compare_cont_refl; reflexivity.
Qed.

Lemma SFcompare_number (a b : spec_float) :
  is_nan a = false -> is_nan b = false -> exists c, SFcompare a b = Some c.
Proof.
  destruct a as [[]|[]| |[] ma ea], b as [[]|[]| |[] mb eb]; simpl;
    intros; try discriminate; eauto.
Qed.

Lemma SFcompare_trans_lt (a b c : spec_float) :
  SFcompare a b = Some Lt -> SFcompare b c = Some Lt ->
  SFcompare a c = Some Lt.
Proof.
  destruct a as [[]|[]| |[] ma ea], b as [[]|[]| |[] mb eb],
           c as [[]|[]| |[] mc ec]; simpl; intros H1 H2;
    try discriminate; try reflexivity;
    injection H1 as H1; injection H2 as H2; f_equal; cmp_cases.
Qed.

Lemma SFcompare_eq_l (a b c : spec_float) :
  SFcompare a b = Some Eq -> SFcompare b c = SFcompare a c.
Proof.
  destruct a as [[]|[]| |[] ma ea], b as [[]|[]| |[] mb eb],
           c as [[]|[]| |[] mc ec]; simpl; intros H1;
    try discriminate; try reflexivity;
    injection H1 as H1; f_equal; cmp_cases.
Qed.

Lemma SFcompare_eq_r (a b c : spec_float) :
  SFcompare b c = Some Eq -> SFcompare a b = SFcompare a c.
Proof.
  intros H.
  assert (Hcb : SFcompare c b = Some Eq).
  { rewrite SFcompare_antisym, H. reflexivity. }
  rewrite (SFcompare_antisym b a), (SFcompare_antisym c a).
  now rewrite (SFcompare_eq_l c b a Hcb).
Qed.

Lemma SFleb_refl (a : double) : is_nan a = false -> SFleb a a = true.
Proof. intros Ha. unfold SFleb. now rewrite SFcompare_refl. Qed.

Lemma SFltb_false_leb (a b : double) :
  is_nan a = false -> is_nan b = false ->
  SFltb a b = false -> SFleb b a = true.
Proof.
  intros Ha Hb. unfold SFltb, SFleb.
  rewrite (SFcompare_antisym a b).
  destruct (SFcompare_number a b Ha Hb) as [c ->].
  destruct c; simpl; congruence.
Qed.

Lemma SFltb_leb_trans (a b c : double) :
  SFltb a b = true -> SFleb b c = true -> SFleb a c = true.
Proof.
  unfold SFltb, SFleb. intros Hab Hbc.
  destruct (SFcompare a b) as [[]|] eqn:E1; try discriminate.
  destruct (SFcompare b c) as [[]|] eqn:E2; try discriminate.
  - now rewrite <- (SFcompare_eq_r a b c E2), E1.
  - now rewrite (SFcompare_trans_lt a b c E1 E2).
Qed.

Lemma SFleb_ltb_trans (a b c : double) :
  SFleb a b = true -> SFltb b c = true -> SFleb a c = true.
Proof.
  unfold SFltb, SFleb. intros Hab Hbc.
  destruct (SFcompare b c) as [[]|] eqn:E2; try discriminate.
  destruct (SFcompare a b) as [[]|] eqn:E1; try discriminate.
  - now rewrite <- (SFcompare_eq_l a b c E1), E2.
  - now rewrite (SFcompare_trans_lt a b c E1 E2).
Qed.

Lemma SFltb_nan_l (x : double) : SFltb S754_nan x = false.
Proof. reflexivity. Qed.

Lemma SFltb_nan_r (x : double) : SFltb x S754_nan = false.
Proof. destruct x; reflexivity. Qed.

Lemma is_nan_true (x : double) : is_nan x = true -> x = S754_nan.
Proof. destruct x; simpl; congruence. Qed.

(** ** Minimum and maximum of the online engine *)

Section MinMax.
Context {D : Type} `{Arith D}.

Lemma feed_cons (v : D) (l : list D) (s : Statistics D) :
  feed (v :: l) s = feed l (Statistics_add v s).
Proof. reflexivity. Qed.

Lemma feed_mMin (l : list D) :
  forall s, mMin (feed l s) = fold_left std_min l (mMin s).
Proof.
  induction l as [|v l IH]; intros s; [reflexivity|].
  rewrite feed_cons, IH. reflexivity.
Qed.

Lemma feed_mMax (l : list D) :
  forall s, mMax (feed l s) = fold_left std_max l (mMax s).
Proof.
  induction l as [|v l IH]; intros s; [reflexivity|].
  rewrite feed_cons, IH. reflexivity.
Qed.

Lemma feed_mN (l : list D) :
  forall v s, mN (feed (v :: l) s)
              = int64_wrap (mN s + 1 + Z.of_nat (length l)).
Proof.
  induction l as [|v' l IH]; intros v s; rewrite feed_cons.
  - cbn [feed run map fold_left Statistics_add mN length]. f_equal. lia.
  - rewrite IH. cbn [Statistics_add mN length].
    rewrite <- Z.add_assoc, int64_wrap_add. f_equal. lia.
Qed.

End MinMax.

Lemma std_min_nan (m : double) : std_min m S754_nan = m.
Proof. reflexivity. Qed.

Lemma std_max_nan (m : double) : std_max m S754_nan = m.
Proof. unfold std_max. simpl. now rewrite SFltb_nan_r. Qed.

Lemma fold_min_numbers (l : list double) :
  forall m, fold_left std_min l m = fold_left std_min (numbers l) m.
Proof.
  induction l as [|v l IH]; intros m; [reflexivity|].
  simpl. destruct (is_nan v) eqn:Ev; simpl.
  - apply is_nan_true in Ev. subst v. rewrite std_min_nan. apply IH.
  - apply IH.
Qed.

Lemma fold_max_numbers (l : list double) :
  forall m, fold_left std_max l m = fold_left std_max (numbers l) m.
Proof.
  induction l as [|v l IH]; intros m; [reflexivity|].
  simpl. destruct (is_nan v) eqn:Ev; simpl.
  - apply is_nan_true in Ev. subst v. rewrite std_max_nan. apply IH.
  - apply IH.
Qed.

Lemma numbers_not_nan (l : list double) :
  Forall (fun x => is_nan x = false) (numbers l).
Proof.
  apply Forall_forall. intros x Hx. apply filter_In in Hx.
  destruct Hx as [_ Hx]. now apply negb_true_iff in Hx.
Qed.

(** The running minimum over samples that are numbers. *)
Lemma fold_min_spec (l : list double) :
  Forall (fun x => is_nan x = false) l ->
  forall m0, is_nan m0 = false ->
    let m := fold_left std_min l m0 in
    is_nan m = false
    /\ (m = m0 \/ In m l)
    /\ SFleb m m0 = true
    /\ Forall (fun y => SFleb m y = true) l.
Proof.
  induction 1 as [|v l Hv Hl IH]; intros m0 Hm0; simpl.
  - repeat split; auto using SFleb_refl.
  - assert (Hstep : is_nan (std_min m0 v) = false
                    /\ (std_min m0 v = m0 \/ std_min m0 v = v)
                    /\ SFleb (std_min m0 v) m0 = true
                    /\ SFleb (std_min m0 v) v = true).
    { unfold std_min. change (@ltb double _) with SFltb.
      destruct (SFltb v m0) eqn:E.
      - repeat split; auto using SFleb_refl.
        apply SFltb_leb_trans with m0; auto using SFleb_refl.
      - repeat split; auto using SFleb_refl, SFltb_false_leb. }
    destruct Hstep as (Hn & Hor & Hle0 & Hlev).
    destruct (IH (std_min m0 v) Hn) as (Hn' & Hor' & Hle' & Hall).
    set (m := fold_left std_min l (std_min m0 v)) in *.
    assert (Hmid : forall y, SFleb (std_min m0 v) y = true -> SFleb m y = true).
    { intros y Hy. destruct Hor' as [->|Hin]; [assumption|].
      unfold SFleb in Hle'.
      destruct (SFcompare m (std_min m0 v)) as [[]|] eqn:E; try discriminate.
      - unfold SFleb. now rewrite <- (SFcompare_eq_l _ _ y E).
      - apply SFltb_leb_trans with (std_min m0 v); [|assumption].
        unfold SFltb. now rewrite E. }
    repeat split.
    + assumption.
    + destruct Hor' as [E|Hin]; [|now right; right].
      rewrite E. destruct Hor as [->| ->]; [now left | now right; left].
    + now apply Hmid.
    + constructor; [now apply Hmid | assumption].
Qed.

(** The running maximum over samples that are numbers. *)
Lemma fold_max_spec (l : list double) :
  Forall (fun x => is_nan x = false) l ->
  forall m0, is_nan m0 = false ->
    let m := fold_left std_max l m0 in
    is_nan m = false
    /\ (m = m0 \/ In m l)
    /\ SFleb m0 m = true
    /\ Forall (fun y => SFleb y m = true) l.
Proof.
  induction 1 as [|v l Hv Hl IH]; intros m0 Hm0; simpl.
  - repeat split; auto using SFleb_refl.
  - assert (Hstep : is_nan (std_max m0 v) = false
                    /\ (std_max m0 v = m0 \/ std_max m0 v = v)
                    /\ SFleb m0 (std_max m0 v) = true
                    /\ SFleb v (std_max m0 v) = true).
    { unfold std_max. change (@ltb double _) with SFltb.
      destruct (SFltb m0 v) eqn:E.
      - repeat split; auto using SFleb_refl.
        apply SFltb_leb_trans with v; auto using SFleb_refl.
      - repeat split; auto using SFleb_refl, SFltb_false_leb. }
    destruct Hstep as (Hn & Hor & Hle0 & Hlev).
    destruct (IH (std_max m0 v) Hn) as (Hn' & Hor' & Hle' & Hall).
    set (m := fold_left std_max l (std_max m0 v)) in *.
    assert (Hmid : forall y, SFleb y (std_max m0 v) = true -> SFleb y m = true).
    { intros y Hy. destruct Hor' as [->|Hin]; [assumption|].
      unfold SFleb in Hle'.
      destruct (SFcompare (std_max m0 v) m) as [[]|] eqn:E; try discriminate.
      - unfold SFleb. now rewrite <- (SFcompare_eq_r y _ _ E).
      - apply SFleb_ltb_trans with (std_max m0 v); [assumption|].
        unfold SFltb. now rewrite E. }
    repeat split.
    + assumption.
    + destruct Hor' as [E|Hin]; [|now right; right].
      rewrite E. destruct Hor as [->| ->]; [now left | now right; left].
    + now apply Hmid.
    + constructor; [now apply Hmid | assumption].
Qed.

Lemma SFleb_pinf (y : double) :
  SFleb (S754_infinity false) y = true -> y = S754_infinity false.
Proof. destruct y as [[]|[]| |[] m e]; cbv; congruence. Qed.

Lemma SFleb_ninf (y : double) :
  SFleb y (S754_infinity true) = true -> y = S754_infinity true.
Proof. destruct y as [[]|[]| |[] m e]; cbv; congruence. Qed.

(** C4.  Whatever the alpha, after the samples of [l], some of them
    Not-a-Number and at least one not: [getMin()] and [getMax()] are a least
    and a greatest of the samples that are not Not-a-Number, and are what
    the engine gives when fed those samples alone; every sample of [l] is
    counted by [getN()]. *)
Theorem C4_nan_never_min_max (alpha : double) (l : list double) :
  numbers l <> [] ->
  let s := feed l (Statistics_new alpha) in
  is_min_of (getMin s) (numbers l)
  /\ is_max_of (getMax s) (numbers l)
  /\ getMin s = getMin (feed (numbers l) (Statistics_new alpha))
  /\ getMax s = getMax (feed (numbers l) (Statistics_new alpha))
  /\ getN s = int64_wrap (Z.of_nat (length l)).
Proof.
  intros Hne s. unfold getMin, getMax, getN, s.
  rewrite !feed_mMin, !feed_mMax.
  rewrite (fold_min_numbers l), (fold_max_numbers l).
  cbn [Statistics_new mMin mMax mN].
  pose proof (numbers_not_nan l) as Hnum.
  assert (Hp : is_nan (@mPositiveInfinity double _) = false) by reflexivity.
  assert (Hm : is_nan (@mNegativeInfinity double _) = false) by reflexivity.
  destruct (fold_min_spec Hnum _ Hp) as (_ & Hmin_or & _ & Hmin_all).
  destruct (fold_max_spec Hnum _ Hm) as (_ & Hmax_or & _ & Hmax_all).
  clear Hp Hm.
  destruct (numbers l) as [|x nl] eqn:En; [congruence|].
  split; [|split; [|split; [|split]]].
  - split; [|assumption].
    destruct Hmin_or as [E|Hin]; [|assumption].
    rewrite E in Hmin_all |- *. inversion Hmin_all; subst.
    left. now apply SFleb_pinf.
  - split; [|assumption].
    destruct Hmax_or as [E|Hin]; [|assumption].
    rewrite E in Hmax_all |- *. inversion Hmax_all; subst.
    left. now apply SFleb_ninf.
  - reflexivity.
  - reflexivity.
  - destruct l as [|v l]; [discriminate|].
    rewrite feed_mN. cbn [Statistics_new mN length]. f_equal. lia.
Qed.

Lemma C4_witness :
  is_min_of (getMin (feed [d_four; S754_nan; d_one; d_two] (Statistics_new d_one)))
            [d_four; d_one; d_two]
  /\ getN (feed [d_four; S754_nan; d_one; d_two] (Statistics_new d_one)) = 4%Z.
Proof.
  assert (Hne : numbers [d_four; S754_nan; d_one; d_two] <> [])
    by discriminate.
  pose proof (C4_nan_never_min_max d_one [d_four; S754_nan; d_one; d_two] Hne)
    as (Hmin & _ & _ & _ & Hn).
  split; [exact Hmin | exact Hn].
Defined.

Example nan_among_samples :
  let s := feed [d_four; S754_nan; d_one; d_two] (Statistics_new d_one) in
  getMin s = d_one /\ getMax s = d_four /\ getN s = 4%Z
  /\ getMean s = S754_nan.
Proof. vm_compute. repeat split. Qed.

(** ** Minimum and maximum of the reference engine *)

(** C7.  In the reference engine the first sample added to a new or reset
    engine becomes both minimum and maximum, whatever it is; a later sample
    replaces the maximum exactly when it is greater than it, and replaces
    the minimum only when it is less than it (and is not greater than the
    maximum); a later Not-a-Number sample leaves both as they are. *)
Theorem C7_reference_min_max (value : double) (r : ReferenceStatistics double) :
  (forall alpha, Reference_getN (Reference_new alpha) = 0%Z)
  /\ Reference_getN (Reference_reset r) = 0%Z
  /\ (Reference_getN r = 0%Z ->
      Reference_getMin (Reference_add value r) = value
      /\ Reference_getMax (Reference_add value r) = value)
  /\ (Reference_getN r <> 0%Z ->
      Reference_getMax (Reference_add value r)
      = (if (value >? rMax r)%A then value else rMax r)
      /\ Reference_getMin (Reference_add value r)
         = (if (value >? rMax r)%A then rMin r
            else if (value <? rMin r)%A then value else rMin r)
      /\ (Reference_getMax (Reference_add value r) <> Reference_getMax r ->
          SFltb (rMax r) value = true)
      /\ (Reference_getMin (Reference_add value r) <> Reference_getMin r ->
          SFltb value (rMin r) = true)
      /\ (is_nan value = true ->
          Reference_getMin (Reference_add value r) = Reference_getMin r
          /\ Reference_getMax (Reference_add value r) = Reference_getMax r)).
Proof.
  split; [reflexivity|]. split; [reflexivity|].
  unfold Reference_getMin, Reference_getMax, Reference_add.
  change (@ltb double _) with SFltb.
  split.
  - intros Hn. rewrite Hn. simpl. split; reflexivity.
  - intros Hn. apply Z.eqb_neq in Hn. rewrite Hn.
    destruct (SFltb (rMax r) value) eqn:Emax;
      destruct (SFltb value (rMin r)) eqn:Emin; simpl;
      (split; [reflexivity|]); (split; [reflexivity|]);
      (split; [congruence|]); (split; [congruence|]);
      intros Hnan; apply is_nan_true in Hnan; subst value;
      rewrite ?SFltb_nan_r in *; simpl in *; try discriminate;
      split; reflexivity.
Qed.

Lemma C7_witness :
  Reference_getMin (Reference_add S754_nan (Reference_new d_one)) = S754_nan
  /\ Reference_getMax
       (Reference_add S754_nan (Reference_add d_two (Reference_new d_one)))
     = d_two.
Proof.
  split.
  - apply (proj1 (proj2 (proj2 (C7_reference_min_max S754_nan
                                  (Reference_new d_one))))).
    reflexivity.
  - destruct (proj2 (proj2 (proj2 (C7_reference_min_max S754_nan
                 (Reference_add d_two (Reference_new d_one))))))
      as (_ & _ & _ & _ & Hnan); [discriminate|].
    apply (proj2 (Hnan eq_refl)).
Defined.

Example reference_keeps_first_nan :
  let r := Reference_feed [S754_nan; d_four; d_one] (Reference_new d_one) in
  Reference_getMin r = S754_nan /\ Reference_getMax r = S754_nan
  /\ getMin (feed [S754_nan; d_four; d_one] (Statistics_new d_one)) = d_one
  /\ getMax (feed [S754_nan; d_four; d_one] (Statistics_new d_one)) = d_four.
Proof. vm_compute. repeat split. Qed.

(** ** The square root *)

(** More fuel does not change a result. *)
Lemma sqrt_unchecked_more_fuel {D : Type} `{Arith D} (n : nat) :
  forall (x prev y : D) (k : nat),
    audio_utils_sqrt_unchecked n x prev = Some y ->
    audio_utils_sqrt_unchecked (n + k) x prev = Some y.
Proof.
  induction n as [|n IH]; intros x prev y k; simpl; [discriminate|].
  destruct (eqb _ prev); [trivial | apply IH].
Qed.

(** C8.  [audio_utils_sqrt(4.0)] is 2.0 (returned by the seventh call of
    the iteration), [audio_utils_sqrt(0.0)] is 0.0, [audio_utils_sqrt(-1.0)] is
    Not-a-Number, [audio_utils_sqrt(infinity)] is infinity; every input less
    than zero gives Not-a-Number; Not-a-Number, positive infinity and the
    zeros are returned as they are. *)
Theorem C8_sqrt_values (fuel : nat) :
  audio_utils_sqrt (7 + fuel) d_four = Some d_two
  /\ audio_utils_sqrt fuel d_zero = Some d_zero
  /\ audio_utils_sqrt fuel d_minus_one = Some S754_nan
  /\ audio_utils_sqrt fuel d_infinity = Some d_infinity
  /\ (forall x : double, (x <? zero)%A = true ->
        audio_utils_sqrt fuel x = Some S754_nan)
  /\ audio_utils_sqrt fuel S754_nan = Some S754_nan
  /\ (forall s : bool,
        audio_utils_sqrt fuel (S754_zero s) = Some (S754_zero s)).
Proof.
  split; [|repeat split].
  - apply (sqrt_unchecked_more_fuel (D := double) 7). vm_compute. reflexivity.
  - intros x Hx. unfold audio_utils_sqrt. now rewrite Hx.
Qed.

Lemma C8_witness :
  audio_utils_sqrt 0 (S754_infinity true) = Some S754_nan.
Proof.
  apply (proj1 (proj2 (proj2 (proj2 (proj2 (C8_sqrt_values 0)))))).
  reflexivity.
Defined.

(** ** The square root terminates

    The iteration of [audio_utils_sqrt_unchecked] on [double] stops.  Every
    operation of a step ends in [binary_round_aux]; its result is within half
    a gap of the exact value, so it is a nearest float.  From at or above the
    root a step does not go up and stays at or above the greatest float [a]
    below the root; from [a] a step goes to [a] or to the float [b] after it;
    and when it goes to [b], the step from [b] stays at [b], because [x] is a
    multiple of 2^52 squared units of [a] and no such multiple lies where
    the two quotients would have to round apart. *)

Section Termination.
Local Open Scope Z_scope.
Local Unset Implicit Arguments.

(** *** Powers of two *)

Lemma bpow_gt_0 (e : Z) : (0 < bpow e)%R.
Proof. apply powerRZ_lt. lra. Qed.

Lemma bpow_plus (a b : Z) : bpow (a + b) = (bpow a * bpow b)%R.
Proof. apply powerRZ_add. lra. Qed.

Lemma bpow_0 : bpow 0 = 1%R.
Proof. reflexivity. Qed.

Lemma bpow_1 : bpow 1 = 2%R.
Proof. unfold bpow. simpl. lra. Qed.

Lemma bpow_succ (e : Z) : bpow (e + 1) = (2 * bpow e)%R.
Proof. rewrite bpow_plus, bpow_1. lra. Qed.

Lemma bpow_pred (e : Z) : bpow (e - 1) = (bpow e / 2)%R.
Proof.
  replace e with ((e - 1) + 1) at 2 by lia. rewrite bpow_succ. lra.
Qed.

Lemma bpow_IZR (e : Z) : 0 <= e -> bpow e = IZR (2 ^ e).
Proof.
  intros He. destruct e as [|p|p]; [reflexivity| |lia].
  unfold bpow. rewrite <- Zpower_pos_powerRZ. reflexivity.
Qed.

Lemma bpow_ge_1 (e : Z) : 0 <= e -> (1 <= bpow e)%R.
Proof.
  intros He. rewrite bpow_IZR by assumption.
  apply IZR_le. pose proof (Z.pow_pos_nonneg 2 e). lia.
Qed.

Lemma bpow_le (a b : Z) : a <= b -> (bpow a <= bpow b)%R.
Proof.
  intros Hab. replace b with (a + (b - a)) by lia. rewrite bpow_plus.
  pose proof (bpow_gt_0 a). pose proof (bpow_ge_1 (b - a) ltac:(lia)). nra.
Qed.

Lemma bpow_lt (a b : Z) : a < b -> (bpow a < bpow b)%R.
Proof.
  intros Hab. apply Rlt_le_trans with (bpow (a + 1)).
  - rewrite bpow_succ. pose proof (bpow_gt_0 a). lra.
  - apply bpow_le. lia.
Qed.

Lemma bpow_lt_inv (a b : Z) : (bpow a < bpow b)%R -> a < b.
Proof.
  intros H. destruct (Z_lt_le_dec a b) as [|Hle]; [assumption|].
  apply bpow_le in Hle. lra.
Qed.

Lemma F2R_shift (m e k : Z) : 0 <= k -> F2R (m * 2 ^ k) e = F2R m (e + k).
Proof.
  intros Hk. unfold F2R. rewrite mult_IZR, bpow_plus, <- bpow_IZR by assumption.
  lra.
Qed.

(** *** Number of binary digits *)

Lemma digits2_pos_spec (m : positive) :
  2 ^ (Zpos (digits2_pos m) - 1) <= Zpos m < 2 ^ Zpos (digits2_pos m).
Proof.
  induction m as [m IH|m IH|]; simpl digits2_pos.
  - rewrite Pos2Z.inj_succ.
    replace (Z.succ (Z.pos (digits2_pos m)) - 1) with (Z.pos (digits2_pos m) - 1 + 1) by lia.
    rewrite Z.pow_succ_r by lia.
    rewrite Z.pow_add_r by lia. change (2 ^ 1) with 2. lia.
  - rewrite Pos2Z.inj_succ.
    replace (Z.succ (Z.pos (digits2_pos m)) - 1) with (Z.pos (digits2_pos m) - 1 + 1) by lia.
    rewrite Z.pow_succ_r by lia.
    rewrite Z.pow_add_r by lia. change (2 ^ 1) with 2. lia.
  - simpl. lia.
Qed.

Lemma Zdigits2_spec (m : Z) :
  0 < m -> 2 ^ (Zdigits2 m - 1) <= m < 2 ^ Zdigits2 m.
Proof.
  destruct m as [|p|p]; try lia. intros _. apply digits2_pos_spec.
Qed.

Lemma Zdigits2_pos (m : Z) : 0 < m -> 0 < Zdigits2 m.
Proof. destruct m; simpl; lia. Qed.

Lemma Zdigits2_unique (m d : Z) :
  0 < m -> 2 ^ (d - 1) <= m < 2 ^ d -> Zdigits2 m = d.
Proof.
  intros Hm [Hlo Hhi].
  pose proof (Zdigits2_spec m Hm) as [Hlo' Hhi'].
  pose proof (Zdigits2_pos m Hm).
  assert (0 < d).
  { destruct (Z_lt_le_dec 0 d) as [|Hd]; [assumption|].
    destruct (Z.eq_dec d 0) as [->|Hd0]; [simpl in Hhi; lia|].
    rewrite (Z.pow_neg_r 2 d) in Hhi by lia. lia. }
  destruct (Z.lt_trichotomy (Zdigits2 m) d) as [Hlt|[Heq|Hgt]]; [|assumption|].
  - assert (2 ^ Zdigits2 m <= 2 ^ (d - 1)) by (apply Z.pow_le_mono_r; lia). lia.
  - assert (2 ^ d <= 2 ^ (Zdigits2 m - 1)) by (apply Z.pow_le_mono_r; lia). lia.
Qed.

(** *** Shifting a mantissa to the right *)

Lemma loc_frac_exact (r d : Z) : loc_frac r d = loc_Exact <-> r = 0.
Proof.
  unfold loc_frac. destruct (Z.eqb_spec r 0); split; intros; try discriminate; auto; contradiction.
Qed.

Lemma div2_xI (p : positive) : Z.pos p~1 / 2 = Z.pos p.
Proof. rewrite Pos2Z.inj_xI. symmetry. apply Z.div_unique with 1; lia. Qed.

Lemma div2_xO (p : positive) : Z.pos p~0 / 2 = Z.pos p.
Proof. rewrite Pos2Z.inj_xO. symmetry. apply Z.div_unique with 0; lia. Qed.

Lemma mod2_xI (p : positive) : Z.pos p~1 mod 2 = 1.
Proof. rewrite Pos2Z.inj_xI. symmetry. apply Z.mod_unique with (Z.pos p); lia. Qed.

Lemma mod2_xO (p : positive) : Z.pos p~0 mod 2 = 0.
Proof. rewrite Pos2Z.inj_xO. symmetry. apply Z.mod_unique with (Z.pos p); lia. Qed.

Lemma shr_1_spec (mrs : shr_record) (r d : Z) :
  0 <= shr_m mrs -> 0 <= r < d ->
  loc_of_shr_record mrs = loc_frac r d ->
  shr_m (shr_1 mrs) = shr_m mrs / 2
  /\ loc_of_shr_record (shr_1 mrs)
     = loc_frac (d * (shr_m mrs mod 2) + r) (2 * d).
Proof.
  destruct mrs as [m rb sb]. simpl shr_m. intros Hm Hr Hloc.
  assert (Hcase : (rb = false /\ sb = false /\ r = 0)
                  \/ (rb = false /\ sb = true /\ 0 < r /\ 2 * r < d)
                  \/ (rb = true /\ sb = false /\ 2 * r = d)
                  \/ (rb = true /\ sb = true /\ d < 2 * r)).
  { unfold loc_frac in Hloc. destruct (Z.eqb_spec r 0) as [->|Hr0].
    - destruct rb, sb; simpl in Hloc; try discriminate. auto.
    - destruct (Z.compare_spec (2 * r) d); destruct rb, sb; simpl in Hloc;
        try discriminate; [right; right; left | right; left | right; right; right];
        repeat split; lia. }
  assert (Hm2 : m mod 2 = 0 \/ m mod 2 = 1) by (pose proof (Z.mod_pos_bound m 2); lia).
  assert (Hshr : shr_m (shr_1 {| shr_m := m; shr_r := rb; shr_s := sb |}) = m / 2
                 /\ shr_r (shr_1 {| shr_m := m; shr_r := rb; shr_s := sb |})
                    = (m mod 2 =? 1)
                 /\ shr_s (shr_1 {| shr_m := m; shr_r := rb; shr_s := sb |})
                    = orb rb sb).
  { destruct m as [|[p|p|]|p]; try lia; simpl shr_1; simpl shr_m; simpl shr_r;
      simpl shr_s;
      rewrite ?div2_xI, ?div2_xO, ?mod2_xI, ?mod2_xO; repeat split. }
  destruct Hshr as (E1 & E2 & E3). split; [exact E1|].
  destruct (shr_1 {| shr_m := m; shr_r := rb; shr_s := sb |}) as [m' rb' sb'].
  simpl in E1, E2, E3. subst m' rb' sb'. unfold loc_frac.
  destruct Hcase as [(-> & -> & ->)|[(-> & -> & H1 & H2)|[(-> & -> & H1)|(-> & -> & H1)]]];
    destruct Hm2 as [E|E]; rewrite E;
    change (1 =? 1) with true; change (0 =? 1) with false;
    cbn [orb loc_of_shr_record];
    repeat match goal with
           | |- context [?a =? ?b] => destruct (Z.eqb_spec a b); try lia
           | |- context [?a ?= ?b] => destruct (Z.compare_spec a b); try lia
           end; try reflexivity.
Qed.

Lemma iter_pos_nat {A : Type} (f : A -> A) (p : positive) :
  forall x, iter_pos f p x = Nat.iter (Pos.to_nat p) f x.
Proof.
  induction p as [p IH|p IH|]; intros x; simpl iter_pos.
  - rewrite !IH, Pos2Nat.inj_xI.
    replace (S (2 * Pos.to_nat p)) with (Pos.to_nat p + Pos.to_nat p + 1)%nat by lia.
    rewrite !Nat.iter_add. reflexivity.
  - rewrite !IH, Pos2Nat.inj_xO.
    replace (2 * Pos.to_nat p)%nat with (Pos.to_nat p + Pos.to_nat p)%nat by lia.
    rewrite Nat.iter_add. reflexivity.
  - reflexivity.
Qed.

Lemma shr_iter_spec (mrs : shr_record) (r d : Z) (n : nat) :
  0 <= shr_m mrs -> 0 <= r < d ->
  loc_of_shr_record mrs = loc_frac r d ->
  let mrs' := Nat.iter n shr_1 mrs in
  let k := Z.of_nat n in
  shr_m mrs' = shr_m mrs / 2 ^ k
  /\ loc_of_shr_record mrs'
     = loc_frac (d * (shr_m mrs mod 2 ^ k) + r) (d * 2 ^ k).
Proof.
  intros Hm Hr Hloc. induction n as [|n IH].
  - simpl. rewrite Z.div_1_r, Z.mod_1_r, Z.mul_0_r, Z.mul_1_r. auto.
  - cbv zeta in *. destruct IH as [IH1 IH2].
    rewrite Nat2Z.inj_succ, Z.pow_succ_r by lia.
    set (Q := shr_m mrs) in *. set (k := Z.of_nat n) in *.
    assert (Hk : 0 < 2 ^ k) by (apply Z.pow_pos_nonneg; lia).
    pose proof (Z.mod_pos_bound Q (2 ^ k) Hk) as Hmod.
    assert (Hq : 0 <= Q / 2 ^ k) by (apply Z.div_pos; lia).
    destruct (shr_1_spec (Nat.iter n shr_1 mrs)
                (d * (Q mod 2 ^ k) + r) (d * 2 ^ k)) as [E1 E2].
    + rewrite IH1. exact Hq.
    + nia.
    + exact IH2.
    + simpl Nat.iter. split.
      * rewrite E1, IH1, Z.div_div by lia. f_equal. lia.
      * rewrite E2, IH1. f_equal; [|lia].
        rewrite (Z.mul_comm 2 (2 ^ k)), Z.rem_mul_r by lia. lia.
Qed.

(** [shr] on a record that stands for [Q + r / d], shifted by [n] places. *)
Lemma shr_spec (Q r d e n : Z) (l : location) :
  0 <= Q -> 0 <= r < d -> l = loc_frac r d ->
  let '(mrs', e') := shr (shr_record_of_loc Q l) e n in
  let k := Z.max n 0 in
  e' = e + k
  /\ shr_m mrs' = Q / 2 ^ k
  /\ loc_of_shr_record mrs' = loc_frac (d * (Q mod 2 ^ k) + r) (d * 2 ^ k).
Proof.
  intros HQ Hr ->.
  assert (Hrec : shr_m (shr_record_of_loc Q (loc_frac r d)) = Q
                 /\ loc_of_shr_record (shr_record_of_loc Q (loc_frac r d))
                    = loc_frac r d).
  { destruct (loc_frac r d) as [|[]]; split; reflexivity. }
  destruct Hrec as [Hm Hl].
  unfold shr. destruct n as [|p|p].
  - simpl Z.max. rewrite Z.add_0_r, Z.pow_0_r, Z.div_1_r, Z.mod_1_r, Z.mul_0_r, Z.mul_1_r.
    auto.
  - rewrite iter_pos_nat.
    replace (Z.max (Z.pos p) 0) with (Z.of_nat (Pos.to_nat p)) by lia.
    destruct (shr_iter_spec (shr_record_of_loc Q (loc_frac r d)) r d (Pos.to_nat p))
      as [E1 E2]; try assumption; [rewrite Hm; assumption|].
    rewrite Hm in E1, E2. split; [lia|]. split; assumption.
  - simpl Z.max. rewrite Z.add_0_r, Z.pow_0_r, Z.div_1_r, Z.mod_1_r, Z.mul_0_r, Z.mul_1_r.
    auto.
Qed.

(** *** Rounding to nearest *)

Lemma fexp_eq (e : Z) : fexp 53 1024 e = Z.max (e - 53) (-1074).
Proof. reflexivity. Qed.

Lemma rne_spec (Q r d : Z) :
  0 <= r < d ->
  let m := round_nearest_even Q (loc_frac r d) in
  (m = Q /\ 2 * r <= d) \/ (m = Q + 1 /\ d <= 2 * r).
Proof.
  intros Hr. unfold loc_frac, round_nearest_even.
  destruct (Z.eqb_spec r 0) as [->|Hr0]; [left; split; lia|].
  destruct (Z.compare_spec (2 * r) d).
  - destruct (Z.even Q); [left | right]; split; lia.
  - left. split; lia.
  - right. split; lia.
Qed.

Lemma frac_val_shift (Q r d e n : Z) :
  0 <= n -> 0 < d ->
  frac_val Q r d e
  = frac_val (Q / 2 ^ n) (d * (Q mod 2 ^ n) + r) (d * 2 ^ n) (e + n).
Proof.
  intros Hn Hd. unfold frac_val.
  assert (Hp : 0 < 2 ^ n) by (apply Z.pow_pos_nonneg; lia).
  rewrite bpow_plus, (bpow_IZR n) by assumption.
  rewrite (Z.div_mod Q (2 ^ n)) at 1 by lia.
  rewrite !plus_IZR, !mult_IZR.
  assert (IZR d <> 0%R) by (apply not_0_IZR; lia).
  assert (IZR (2 ^ n) <> 0%R) by (apply not_0_IZR; lia).
  field. split; assumption.
Qed.

(** The first truncation of [binary_round_aux]. *)
Lemma shr_fexp_trunc (mx ex r d : Z) :
  0 <= mx -> 0 <= r < d -> ex <= fexp 53 1024 (Zdigits2 mx + ex) ->
  exists mrs Q1 r1 d1 e1,
    shr_fexp 53 1024 mx ex (loc_frac r d) = (mrs, e1)
    /\ shr_m mrs = Q1 /\ loc_of_shr_record mrs = loc_frac r1 d1
    /\ 0 <= r1 < d1
    /\ frac_val mx r d ex = frac_val Q1 r1 d1 e1
    /\ 0 <= Q1 < 2 ^ 53 /\ -1074 <= e1
    /\ (-1074 < e1 -> 2 ^ 52 <= Q1)
    /\ (Q1 = 0 -> r1 = 0 -> mx = 0 /\ r = 0).
Proof.
  intros Hmx Hr Hex. unfold shr_fexp.
  set (n := fexp 53 1024 (Zdigits2 mx + ex) - ex) in *.
  assert (Hn : 0 <= n) by (unfold n; lia).
  pose proof (shr_spec mx r d ex n (loc_frac r d) Hmx Hr eq_refl) as Hs.
  destruct (shr (shr_record_of_loc mx (loc_frac r d)) ex n) as [mrs e1].
  replace (Z.max n 0) with n in Hs by lia.
  destruct Hs as (He1 & Hm & Hl).
  assert (Hp : 0 < 2 ^ n) by (apply Z.pow_pos_nonneg; lia).
  pose proof (Z.mod_pos_bound mx (2 ^ n) Hp) as Hmod.
  exists mrs, (mx / 2 ^ n), (d * (mx mod 2 ^ n) + r), (d * 2 ^ n), e1.
  split; [reflexivity|]. split; [exact Hm|]. split; [exact Hl|].
  split; [nia|].
  split; [subst e1; apply frac_val_shift; lia|].
  assert (He1' : e1 = Z.max (Zdigits2 mx + ex - 53) (-1074)).
  { subst e1. unfold n. rewrite fexp_eq. lia. }
  destruct (Z.eq_dec mx 0) as [->|Hmx0].
  - rewrite Z.div_0_l, Z.mod_0_l by lia. simpl Zdigits2 in *.
    rewrite fexp_eq in *. repeat split; try lia.
  - assert (Hpos : 0 < mx) by lia.
    pose proof (Zdigits2_spec mx Hpos) as [Hlo Hhi].
    pose proof (Zdigits2_pos mx Hpos) as Hdpos.
    set (dx := Zdigits2 mx) in *.
    assert (Hdn : dx - 53 <= n) by (unfold n; rewrite fexp_eq; lia).
    split; [|split; [lia|split]].
    + split; [apply Z.div_pos; lia|].
      apply Z.div_lt_upper_bound; [lia|].
      apply Z.lt_le_trans with (2 ^ dx); [assumption|].
      rewrite <- Z.pow_add_r by lia. apply Z.pow_le_mono_r; lia.
    + intros Hnorm.
      assert (En : n = dx - 53) by (unfold n; rewrite fexp_eq; lia).
      apply Z.div_le_lower_bound; [lia|].
      apply Z.le_trans with (2 ^ (dx - 1)); [|assumption].
      rewrite <- Z.pow_add_r by lia. apply Z.pow_le_mono_r; lia.
    + intros HQ Hr1. exfalso.
      assert (mx mod 2 ^ n = 0) by nia.
      pose proof (Z.div_mod mx (2 ^ n)). lia.
Qed.

(** The renormalisation after rounding the mantissa. *)
Lemma shr_fexp_renorm (m1 e1 : Z) :
  0 <= m1 <= 2 ^ 53 -> -1074 <= e1 ->
  exists mrs,
    shr_fexp 53 1024 m1 e1 loc_Exact = (mrs, if m1 =? 2 ^ 53 then e1 + 1 else e1)
    /\ shr_m mrs = (if m1 =? 2 ^ 53 then 2 ^ 52 else m1).
Proof.
  intros Hm He. unfold shr_fexp.
  destruct (Z.eqb_spec m1 (2 ^ 53)) as [->|Hne].
  - replace (Zdigits2 (2 ^ 53)) with 54 by reflexivity.
    rewrite fexp_eq. replace (Z.max (54 + e1 - 53) (-1074) - e1) with 1 by lia.
    eexists. split; reflexivity.
  - assert (Hn : fexp 53 1024 (Zdigits2 m1 + e1) - e1 <= 0).
    { rewrite fexp_eq. destruct (Z.eq_dec m1 0) as [->|H0]; [simpl; lia|].
      assert (Hpos : 0 < m1) by lia.
      pose proof (Zdigits2_spec m1 Hpos) as [Hlo Hhi].
      assert (Zdigits2 m1 <= 53).
      { destruct (Z_le_gt_dec (Zdigits2 m1) 53); [assumption|].
        assert (2 ^ 53 <= 2 ^ (Zdigits2 m1 - 1)) by (apply Z.pow_le_mono_r; lia).
        lia. }
      lia. }
    unfold shr.
    destruct (fexp 53 1024 (Zdigits2 m1 + e1) - e1) as [|p|p]; try lia;
      eexists; split; reflexivity.
Qed.

Lemma frac_val_bounds (Q r d e : Z) :
  0 <= r < d ->
  (F2R Q e <= frac_val Q r d e < F2R (Q + 1) e)%R.
Proof.
  intros Hr. unfold frac_val, F2R. rewrite plus_IZR.
  pose proof (bpow_gt_0 e) as He.
  assert (Hd : (0 < IZR d)%R) by (apply IZR_lt; lia).
  assert (H0 : (0 <= IZR r / IZR d)%R).
  { apply Rmult_le_pos; [apply IZR_le; lia|]. left. now apply Rinv_0_lt_compat. }
  assert (H1 : (IZR r / IZR d < 1)%R).
  { apply Rmult_lt_reg_r with (IZR d); [assumption|].
    unfold Rdiv. rewrite Rmult_assoc, Rinv_l by lra. rewrite Rmult_1_r, Rmult_1_l.
    apply IZR_lt. lia. }
  split; nra.
Qed.

Lemma frac_half_le (r d : Z) :
  0 < d -> 2 * r <= d -> (IZR r / IZR d <= 1 / 2)%R.
Proof.
  intros Hd H. assert (Hd' : (0 < IZR d)%R) by (apply IZR_lt; lia).
  apply Rmult_le_reg_r with (IZR d); [assumption|].
  unfold Rdiv. rewrite Rmult_assoc, Rinv_l by lra.
  apply IZR_le in H. rewrite mult_IZR in H. lra.
Qed.

Lemma frac_half_ge (r d : Z) :
  0 < d -> d <= 2 * r -> (1 / 2 <= IZR r / IZR d)%R.
Proof.
  intros Hd H. assert (Hd' : (0 < IZR d)%R) by (apply IZR_lt; lia).
  apply Rmult_le_reg_r with (IZR d); [assumption|].
  unfold Rdiv. rewrite (Rmult_assoc (IZR r)), Rinv_l by lra.
  apply IZR_le in H. rewrite mult_IZR in H. lra.
Qed.

(** What [binary_round_aux] returns for the positive real
    [(mx + r / d) * 2^ex]. *)
Lemma bra_spec (mx ex r d : Z) :
  0 <= mx -> 0 <= r < d -> ex <= fexp 53 1024 (Zdigits2 mx + ex) ->
  let y := frac_val mx r d ex in
  match binary_round_aux 53 1024 false mx ex (loc_frac r d) with
  | S754_zero false => (y <= bpow (-1074) / 2)%R
  | S754_finite false m e =>
      bounded 53 1024 m e = true
      /\ (y - F2R (Zpos m) e <= bpow e / 2)%R
      /\ (F2R (Zpos m) e - y <= gapb (Zpos m) e / 2)%R
  | S754_infinity false => (bpow 1024 - bpow 970 <= y)%R
  | _ => False
  end.
Proof.
  intros Hmx Hr Hex y. unfold binary_round_aux.
  destruct (shr_fexp_trunc mx ex r d Hmx Hr Hex)
    as (mrs & Q1 & r1 & d1 & e1 & Es & Hm & Hl & Hr1 & Hy & HQ & He1 & Hnorm & _).
  rewrite Es, Hm, Hl. fold y in Hy.
  pose proof (rne_spec Q1 r1 d1 Hr1) as Hrne. cbv zeta in Hrne.
  set (m1 := round_nearest_even Q1 (loc_frac r1 d1)) in *.
  assert (Hm1 : 0 <= m1 <= 2 ^ 53) by lia.
  destruct (shr_fexp_renorm m1 e1 Hm1 He1) as (mrs2 & Es2 & Hm2).
  rewrite Es2, Hm2.
  pose proof (frac_val_bounds Q1 r1 d1 e1 Hr1) as Hb. rewrite <- Hy in Hb.
  pose proof (bpow_gt_0 e1) as Hbe.
  assert (Hd1 : 0 < d1) by lia.
  (* the distance between the rounded mantissa and y *)
  assert (Hdist : (y - F2R m1 e1 <= bpow e1 / 2)%R
                  /\ (F2R m1 e1 - y <= bpow e1 / 2)%R
                  /\ (m1 = Q1 -> F2R m1 e1 <= y)%R).
  { rewrite Hy. unfold frac_val, F2R.
    destruct Hrne as [[-> H2]|[-> H2]].
    - pose proof (frac_half_le r1 d1 Hd1 H2).
      assert (0 <= IZR r1 / IZR d1)%R.
      { apply Rmult_le_pos; [apply IZR_le; lia|]. left.
        apply Rinv_0_lt_compat, IZR_lt. lia. }
      repeat split; try intros _; nra.
    - pose proof (frac_half_ge r1 d1 Hd1 H2).
      pose proof (frac_val_bounds Q1 r1 d1 e1 Hr1) as Hb'.
      unfold frac_val, F2R in Hb'. rewrite plus_IZR in *.
      repeat split; try (intros; lia); nra. }
  destruct Hdist as (Hd_lo & Hd_hi & Hd_eq).
  destruct (Z.eqb_spec m1 (2 ^ 53)) as [E53|N53].
  - (* carry into the next binade *)
    change (2 ^ 52) with (Z.pos (2 ^ 52)).
    assert (HF : F2R m1 e1 = F2R (2 ^ 52) (e1 + 1)).
    { rewrite E53. unfold F2R. rewrite bpow_succ.
      change (2 ^ 53) with (2 * 2 ^ 52). rewrite mult_IZR. lra. }
    assert (HQ1 : Q1 = 2 ^ 53 - 1) by lia.
    destruct (Z.leb_spec (e1 + 1) (1024 - 53)) as [Hle|Hgt].
    + split; [|split].
      * unfold bounded, canonical_mantissa. rewrite fexp_eq.
        change (Z.pos (digits2_pos (2 ^ 52))) with 53.
        apply andb_true_iff. split; [apply Z.eqb_eq | apply Z.leb_le]; lia.
      * change (Z.pos (2 ^ 52)) with (2 ^ 52). rewrite <- HF.
        rewrite bpow_succ. lra.
      * change (Z.pos (2 ^ 52)) with (2 ^ 52). rewrite <- HF. unfold gapb.
        rewrite Z.eqb_refl.
        replace (-1074 <? e1 + 1) with true by (symmetry; apply Z.ltb_lt; lia).
        simpl andb. replace (e1 + 1 - 1) with e1 by lia. lra.
    + destruct Hb as [Hlo _]. rewrite HQ1 in Hlo. unfold F2R in Hlo.
      rewrite minus_IZR in Hlo.
      assert (Hrne' : d1 <= 2 * r1) by lia.
      pose proof (frac_half_ge r1 d1 Hd1 Hrne') as Hhalf.
      rewrite Hy. unfold frac_val. rewrite HQ1, minus_IZR.
      assert (H971 : (bpow 971 <= bpow e1)%R) by (apply bpow_le; lia).
      replace (bpow 1024) with (IZR (2 ^ 53) * bpow 971)%R
        by (rewrite <- (bpow_IZR 53), <- bpow_plus by lia; reflexivity).
      replace (bpow 970) with (bpow 971 / 2)%R
        by (rewrite <- bpow_pred; reflexivity).
      assert (0 < IZR (2 ^ 53))%R by (apply IZR_lt; reflexivity).
      nra.
  - destruct (Z.eq_dec m1 0) as [E0|N0].
    + rewrite E0. assert (HQ0 : Q1 = 0) by lia.
      assert (He : e1 = -1074).
      { destruct (Z.eq_dec e1 (-1074)); [assumption|].
        assert (2 ^ 52 <= Q1) by (apply Hnorm; lia). lia. }
      rewrite E0 in Hd_lo. unfold F2R in Hd_lo. rewrite He in Hd_lo.
      lra.
    + destruct m1 as [|p|p]; try lia.
      destruct (Z.leb_spec e1 (1024 - 53)) as [Hle|Hgt].
      * split; [|split]; [|exact Hd_lo|].
        -- unfold bounded, canonical_mantissa. rewrite fexp_eq.
           apply andb_true_iff. split; [apply Z.eqb_eq | apply Z.leb_le; lia].
           pose proof (digits2_pos_spec p) as [Hlo Hhi].
           assert (Z.pos (digits2_pos p) <= 53).
           { destruct (Z_le_gt_dec (Z.pos (digits2_pos p)) 53); [assumption|].
             assert (2 ^ 53 <= 2 ^ (Z.pos (digits2_pos p) - 1))
               by (apply Z.pow_le_mono_r; lia).
             lia. }
           destruct (Z.eq_dec e1 (-1074)) as [->|Hne]; [lia|].
           assert (2 ^ 52 <= Q1) by (apply Hnorm; lia).
           assert (53 <= Z.pos (digits2_pos p)).
           { destruct (Z_le_gt_dec 53 (Z.pos (digits2_pos p))); [assumption|].
             assert (2 ^ Z.pos (digits2_pos p) <= 2 ^ 52)
               by (apply Z.pow_le_mono_r; lia).
             lia. }
           lia.
        -- unfold gapb.
           destruct (Z.eqb_spec (Z.pos p) (2 ^ 52)) as [E52|N52];
             [|simpl andb; exact Hd_hi].
           destruct (Z.ltb_spec (-1074) e1) as [Hlt|Hge];
             [|simpl andb; exact Hd_hi].
           simpl andb.
           assert (2 ^ 52 <= Q1) by (apply Hnorm; lia).
           assert (Z.pos p = Q1) by lia.
           pose proof (Hd_eq H0). pose proof (bpow_gt_0 (e1 - 1)). lra.
      * destruct Hb as [Hlo _].
        assert (2 ^ 52 <= Q1) by (apply Hnorm; lia).
        assert (H972 : (bpow 972 <= bpow e1)%R) by (apply bpow_le; lia).
        replace (bpow 1024) with (IZR (2 ^ 52) * bpow 972)%R
          by (rewrite <- (bpow_IZR 52), <- bpow_plus by lia; reflexivity).
        pose proof (bpow_gt_0 970).
        assert (IZR (2 ^ 52) <= IZR Q1)%R by (apply IZR_le; assumption).
        assert (0 < IZR (2 ^ 52))%R by (apply IZR_lt; reflexivity).
        unfold F2R in Hlo. nra.
Qed.

(** *** The finite floats *)

Lemma bounded_spec (m : positive) (e : Z) :
  bounded 53 1024 m e = true <->
  -1074 <= e <= 971 /\ Z.pos m < 2 ^ 53 /\ (-1074 < e -> 2 ^ 52 <= Z.pos m).
Proof.
  unfold bounded, canonical_mantissa. rewrite fexp_eq, andb_true_iff, Z.eqb_eq, Z.leb_le.
  pose proof (digits2_pos_spec m) as [Hlo Hhi].
  set (dm := Z.pos (digits2_pos m)) in *.
  assert (Hd : 0 < dm) by (unfold dm; lia).
  split.
  - intros [Hc He].
    assert (dm <= 53) by lia.
    assert (2 ^ dm <= 2 ^ 53) by (apply Z.pow_le_mono_r; lia).
    repeat split; try lia.
    intros Hn. assert (dm = 53) by lia.
    replace (dm - 1) with 52 in Hlo by lia. exact Hlo.
  - intros (He & Hm & Hn).
    assert (dm <= 53).
    { destruct (Z_le_gt_dec dm 53); [assumption|].
      assert (2 ^ 53 <= 2 ^ (dm - 1)) by (apply Z.pow_le_mono_r; lia). lia. }
    split; [|lia].
    destruct (Z.eq_dec e (-1074)) as [->|Hne]; [lia|].
    assert (2 ^ 52 <= Z.pos m) by (apply Hn; lia).
    assert (53 <= dm).
    { destruct (Z_le_gt_dec 53 dm); [assumption|].
      assert (2 ^ dm <= 2 ^ 52) by (apply Z.pow_le_mono_r; lia). lia. }
    lia.
Qed.

Lemma F2R_gt_0 (m : positive) (e : Z) : (0 < F2R (Z.pos m) e)%R.
Proof.
  unfold F2R. apply Rmult_lt_0_compat; [apply IZR_lt; lia | apply bpow_gt_0].
Qed.

(** A float with a smaller exponent is smaller. *)
Lemma F2R_lt_exp (m1 m2 : positive) (e1 e2 : Z) :
  bounded 53 1024 m1 e1 = true -> bounded 53 1024 m2 e2 = true ->
  e1 < e2 -> (F2R (Z.pos m1) e1 + bpow e1 <= F2R (Z.pos m2) e2)%R.
Proof.
  intros H1 H2 He. apply bounded_spec in H1, H2.
  destruct H1 as (He1 & Hm1 & _). destruct H2 as (He2 & _ & Hn2).
  assert (Hm2 : 2 ^ 52 <= Z.pos m2) by (apply Hn2; lia).
  unfold F2R.
  assert (Hb : (2 * bpow e1 <= bpow e2)%R).
  { rewrite <- bpow_succ. apply bpow_le. lia. }
  pose proof (bpow_gt_0 e1).
  assert (IZR (Z.pos m1) + 1 <= IZR (2 ^ 53))%R.
  { rewrite <- plus_IZR. apply IZR_le. lia. }
  assert (IZR (2 ^ 52) <= IZR (Z.pos m2))%R by (apply IZR_le; assumption).
  change (2 ^ 53) with (2 * 2 ^ 52) in *. rewrite mult_IZR in *.
  assert (0 < IZR (2 ^ 52))%R by (apply IZR_lt; reflexivity).
  pose proof (bpow_gt_0 e2).
  apply Rle_trans with (2 * IZR (2 ^ 52) * bpow e1)%R; [nra|].
  apply Rle_trans with (IZR (2 ^ 52) * bpow e2)%R; nra.
Qed.

Lemma F2R_le_exp (m1 m2 : positive) (e1 e2 : Z) :
  bounded 53 1024 m1 e1 = true -> bounded 53 1024 m2 e2 = true ->
  (F2R (Z.pos m1) e1 <= F2R (Z.pos m2) e2)%R -> e1 <= e2.
Proof.
  intros H1 H2 Hle. destruct (Z_le_gt_dec e1 e2) as [|Hgt]; [assumption|].
  pose proof (F2R_lt_exp m2 m1 e2 e1 H2 H1 ltac:(lia)).
  pose proof (bpow_gt_0 e2). lra.
Qed.

Lemma F2R_lt_mant (m1 m2 e : Z) :
  (F2R m1 e < F2R m2 e)%R -> m1 < m2.
Proof.
  unfold F2R. intros H. pose proof (bpow_gt_0 e).
  apply lt_IZR. nra.
Qed.

Lemma F2R_eq_inv (m1 m2 : positive) (e1 e2 : Z) :
  bounded 53 1024 m1 e1 = true -> bounded 53 1024 m2 e2 = true ->
  F2R (Z.pos m1) e1 = F2R (Z.pos m2) e2 -> m1 = m2 /\ e1 = e2.
Proof.
  intros H1 H2 E.
  assert (e1 <= e2) by (apply (F2R_le_exp m1 m2); auto; lra).
  assert (e2 <= e1) by (apply (F2R_le_exp m2 m1); auto; lra).
  assert (e1 = e2) by lia. subst e2. split; [|reflexivity].
  unfold F2R in E. pose proof (bpow_gt_0 e1).
  assert (IZR (Z.pos m1) = IZR (Z.pos m2)) by nra.
  apply eq_IZR in H4. congruence.
Qed.

(** The gap above a float is its unit in the last place. *)
Lemma F2R_gap_above (m1 m2 : positive) (e1 e2 : Z) :
  bounded 53 1024 m1 e1 = true -> bounded 53 1024 m2 e2 = true ->
  (F2R (Z.pos m1) e1 < F2R (Z.pos m2) e2)%R ->
  (F2R (Z.pos m1) e1 + bpow e1 <= F2R (Z.pos m2) e2)%R.
Proof.
  intros H1 H2 Hlt.
  assert (He : e1 <= e2) by (apply (F2R_le_exp m1 m2); auto; lra).
  destruct (Z.eq_dec e1 e2) as [<-|Hne].
  - apply F2R_lt_mant in Hlt. unfold F2R.
    assert (IZR (Z.pos m1) + 1 <= IZR (Z.pos m2))%R.
    { rewrite <- plus_IZR. apply IZR_le. lia. }
    pose proof (bpow_gt_0 e1). nra.
  - apply F2R_lt_exp; auto. lia.
Qed.

Lemma gapb_pos (m e : Z) : (0 < gapb m e)%R.
Proof. unfold gapb. destruct (_ && _); apply bpow_gt_0. Qed.

Lemma gapb_le (m e : Z) : (gapb m e <= bpow e)%R.
Proof.
  unfold gapb. destruct (_ && _); [|lra].
  apply bpow_le. lia.
Qed.

(** The gap below a float. *)
Lemma F2R_gap_below (m1 m2 : positive) (e1 e2 : Z) :
  bounded 53 1024 m1 e1 = true -> bounded 53 1024 m2 e2 = true ->
  (F2R (Z.pos m1) e1 < F2R (Z.pos m2) e2)%R ->
  (F2R (Z.pos m1) e1 <= F2R (Z.pos m2) e2 - gapb (Z.pos m2) e2)%R.
Proof.
  intros H1 H2 Hlt.
  assert (He : e1 <= e2) by (apply (F2R_le_exp m1 m2); auto; lra).
  pose proof (gapb_le (Z.pos m2) e2) as Hg.
  destruct (Z.eq_dec e1 e2) as [<-|Hne].
  - apply F2R_lt_mant in Hlt. unfold F2R in *.
    assert (IZR (Z.pos m1) + 1 <= IZR (Z.pos m2))%R.
    { rewrite <- plus_IZR. apply IZR_le. lia. }
    pose proof (bpow_gt_0 e1). nra.
  - apply bounded_spec in H1, H2.
    destruct H1 as (He1 & Hm1 & _). destruct H2 as (He2 & _ & Hn2).
    assert (Hm2 : 2 ^ 52 <= Z.pos m2) by (apply Hn2; lia).
    assert (Hb : (bpow e1 <= bpow (e2 - 1))%R) by (apply bpow_le; lia).
    pose proof (bpow_pred e2) as Hp. pose proof (bpow_gt_0 e1).
    assert (Hm1' : (IZR (Z.pos m1) + 1 <= IZR (2 ^ 53))%R).
    { rewrite <- plus_IZR. apply IZR_le. lia. }
    change (2 ^ 53) with (2 * 2 ^ 52) in Hm1'. rewrite mult_IZR in Hm1'.
    assert (H52 : (0 < IZR (2 ^ 52))%R) by (apply IZR_lt; reflexivity).
    unfold gapb in *.
    destruct (Z.eqb_spec (Z.pos m2) (2 ^ 52)) as [E|N]; simpl andb in *.
    + replace (-1074 <? e2) with true in * by (symmetry; apply Z.ltb_lt; lia).
      rewrite E. unfold F2R. nra.
    + assert (IZR (2 ^ 52) + 1 <= IZR (Z.pos m2))%R.
      { rewrite <- plus_IZR. apply IZR_le. lia. }
      unfold F2R. nra.
Qed.

(** *** What a rounded result is *)

(** In range, the result is a finite positive float. *)
Lemma rounds_to_finite (y : R) (f : spec_float) :
  rounds_to y f ->
  (bpow (-1074) <= y)%R -> (y < bpow 1024 - bpow 970)%R ->
  exists m e,
    f = S754_finite false m e
    /\ bounded 53 1024 m e = true
    /\ (y - F2R (Zpos m) e <= bpow e / 2)%R
    /\ (F2R (Zpos m) e - y <= gapb (Zpos m) e / 2)%R.
Proof.
  intros Hr Hlo Hhi. pose proof (bpow_gt_0 (-1074)).
  destruct f as [[]|[]| |[] m e]; unfold rounds_to in Hr;
    try contradiction; try lra.
  exists m, e. tauto.
Qed.

Section Nearest.
Variables (y : R) (m : positive) (e : Z).
Hypothesis Hb : bounded 53 1024 m e = true.
Hypothesis Hlo : (y - F2R (Zpos m) e <= bpow e / 2)%R.
Hypothesis Hhi : (F2R (Zpos m) e - y <= gapb (Zpos m) e / 2)%R.

(** A float below [y] is below the result. *)
Lemma round_ge (mf : positive) (ef : Z) :
  bounded 53 1024 mf ef = true ->
  (F2R (Zpos mf) ef <= y)%R -> (F2R (Zpos mf) ef <= F2R (Zpos m) e)%R.
Proof.
  intros Hf Hle.
  destruct (Rle_or_lt (F2R (Zpos mf) ef) (F2R (Zpos m) e)) as [|Hlt]; [assumption|].
  pose proof (F2R_gap_above m mf e ef Hb Hf Hlt). pose proof (bpow_gt_0 e). lra.
Qed.

(** A float above [y] is above the result. *)
Lemma round_le (mf : positive) (ef : Z) :
  bounded 53 1024 mf ef = true ->
  (y <= F2R (Zpos mf) ef)%R -> (F2R (Zpos m) e <= F2R (Zpos mf) ef)%R.
Proof.
  intros Hf Hle.
  destruct (Rle_or_lt (F2R (Zpos m) e) (F2R (Zpos mf) ef)) as [|Hlt]; [assumption|].
  pose proof (F2R_gap_below mf m ef e Hf Hb Hlt).
  pose proof (gapb_pos (Zpos m) e). lra.
Qed.

(** The result is at least as near to [y] as any float below it. *)
Lemma round_mid_ge (mg : positive) (eg : Z) :
  bounded 53 1024 mg eg = true ->
  (F2R (Zpos mg) eg < F2R (Zpos m) e)%R ->
  ((F2R (Zpos mg) eg + F2R (Zpos m) e) / 2 <= y)%R.
Proof.
  intros Hg Hlt. pose proof (F2R_gap_below mg m eg e Hg Hb Hlt). lra.
Qed.

(** The result is at least as near to [y] as any float above it. *)
Lemma round_mid_le (mh : positive) (eh : Z) :
  bounded 53 1024 mh eh = true ->
  (F2R (Zpos m) e < F2R (Zpos mh) eh)%R ->
  (y <= (F2R (Zpos m) e + F2R (Zpos mh) eh) / 2)%R.
Proof.
  intros Hh Hlt. pose proof (F2R_gap_above m mh e eh Hb Hh Hlt). lra.
Qed.

(** A multiple of the unit of the result that is below [y] is below the
    result. *)
Lemma round_ge_multiple (k E : Z) :
  e <= E -> (F2R k E <= y)%R -> (F2R k E <= F2R (Zpos m) e)%R.
Proof.
  intros HE Hle.
  destruct (Rle_or_lt (F2R k E) (F2R (Zpos m) e)) as [|Hlt]; [assumption|].
  exfalso.
  assert (EF : F2R k E = F2R (k * 2 ^ (E - e)) e).
  { rewrite F2R_shift by lia. f_equal. lia. }
  rewrite EF in Hlt, Hle. apply F2R_lt_mant in Hlt as Hm.
  unfold F2R in *. pose proof (bpow_gt_0 e).
  assert (IZR (Zpos m) + 1 <= IZR (k * 2 ^ (E - e)))%R.
  { rewrite <- plus_IZR. apply IZR_le. lia. }
  nra.
Qed.

End Nearest.

(** *** The operations *)

Lemma bra_rounds_to (mx ex r d : Z) :
  0 <= mx -> 0 <= r < d -> ex <= fexp 53 1024 (Zdigits2 mx + ex) ->
  rounds_to (frac_val mx r d ex)
            (binary_round_aux 53 1024 false mx ex (loc_frac r d)).
Proof. intros. now apply bra_spec. Qed.

Lemma frac_val_exact (m e : Z) : frac_val m 0 1 e = F2R m e.
Proof. unfold frac_val, F2R. lra. Qed.

Lemma Pos_iter_xO (m d : positive) :
  Z.pos (Pos.iter xO m d) = Z.pos m * 2 ^ Z.pos d.
Proof.
  induction d as [|d IH] using Pos.peano_ind.
  - simpl. lia.
  - rewrite Pos.iter_succ, Pos2Z.inj_xO, IH, Pos2Z.inj_succ, Z.pow_succ_r by lia.
    lia.
Qed.

Lemma shl_align_spec (m : positive) (e e' : Z) :
  snd (shl_align m e e') = Z.min e e'
  /\ Z.pos (fst (shl_align m e e')) = Z.pos m * 2 ^ (e - Z.min e e').
Proof.
  unfold shl_align. destruct (e' - e) as [|p|p] eqn:E; simpl fst; simpl snd.
  - replace (Z.min e e') with e by lia. rewrite Z.sub_diag. simpl. lia.
  - replace (Z.min e e') with e by lia. rewrite Z.sub_diag. simpl. lia.
  - replace (Z.min e e') with e' by lia. split; [reflexivity|].
    rewrite Pos_iter_xO. f_equal. f_equal. lia.
Qed.

Lemma Zdigits2_shift (m k : Z) :
  0 < m -> 0 <= k -> Zdigits2 (m * 2 ^ k) = Zdigits2 m + k.
Proof.
  intros Hm Hk. pose proof (Zdigits2_spec m Hm) as [Hlo Hhi].
  pose proof (Zdigits2_pos m Hm).
  assert (0 < 2 ^ k) by (apply Z.pow_pos_nonneg; lia).
  apply Zdigits2_unique; [nia|].
  replace (Zdigits2 m + k - 1) with ((Zdigits2 m - 1) + k) by lia.
  rewrite !Z.pow_add_r by lia. split; nia.
Qed.

Lemma fexp_mono (a b : Z) :
  a <= b -> fexp 53 1024 a <= fexp 53 1024 b.
Proof. rewrite !fexp_eq. lia. Qed.

(** [binary_round] of a positive integer mantissa. *)
Lemma binary_round_spec (m : positive) (e : Z) :
  rounds_to (F2R (Z.pos m) e) (binary_round 53 1024 false m e).
Proof.
  unfold binary_round.
  pose proof (shl_align_spec m e (fexp 53 1024 (Z.pos (digits2_pos m) + e)))
    as [Hs Hf].
  destruct (shl_align m e (fexp 53 1024 (Z.pos (digits2_pos m) + e)))
    as [mz ez]. simpl fst in Hf. simpl snd in Hs.
  assert (EF : F2R (Z.pos m) e = frac_val (Z.pos mz) 0 1 ez).
  { rewrite frac_val_exact, Hf, F2R_shift by lia. f_equal. lia. }
  rewrite EF. change loc_Exact with (loc_frac 0 1).
  apply bra_rounds_to; try lia.
  rewrite Hf, Zdigits2_shift by lia.
  change (Zdigits2 (Z.pos m)) with (Z.pos (digits2_pos m)).
  replace (Z.pos (digits2_pos m) + (e - Z.min e (fexp 53 1024 (Z.pos (digits2_pos m) + e))) + ez)
    with (Z.pos (digits2_pos m) + e) by lia.
  lia.
Qed.

(** Addition of positive finite floats. *)
Lemma SFadd_spec (mx my : positive) (ex ey : Z) :
  rounds_to (F2R (Z.pos mx) ex + F2R (Z.pos my) ey)
            (SFadd 53 1024 (S754_finite false mx ex) (S754_finite false my ey)).
Proof.
  unfold SFadd, cond_Zopp.
  pose proof (shl_align_spec mx ex (Z.min ex ey)) as [_ Hx].
  pose proof (shl_align_spec my ey (Z.min ex ey)) as [_ Hy].
  set (ez := Z.min ex ey) in *.
  replace (Z.min ex ez) with ez in Hx by lia.
  replace (Z.min ey ez) with ez in Hy by lia.
  destruct (shl_align mx ex ez) as [mx' ex'].
  destruct (shl_align my ey ez) as [my' ey']. simpl fst in *.
  change (Z.pos mx' + Z.pos my') with (Z.pos (mx' + my')).
  unfold binary_normalize.
  replace (F2R (Z.pos mx) ex + F2R (Z.pos my) ey)%R
    with (F2R (Z.pos (mx' + my')) ez).
  - apply binary_round_spec.
  - rewrite Pos2Z.inj_add. unfold F2R at 1. rewrite plus_IZR, Rmult_plus_distr_r.
    fold (F2R (Z.pos mx') ez). fold (F2R (Z.pos my') ez).
    rewrite Hx, Hy, !F2R_shift by lia. f_equal; f_equal; lia.
Qed.

(** Multiplication of positive finite floats, the first with a full
    mantissa. *)
Lemma SFmul_spec (mx my : positive) (ex ey : Z) :
  2 ^ 52 <= Z.pos mx ->
  rounds_to (F2R (Z.pos mx) ex * F2R (Z.pos my) ey)
            (SFmul 53 1024 (S754_finite false mx ex) (S754_finite false my ey)).
Proof.
  intros Hmx. unfold SFmul. simpl xorb.
  replace (F2R (Z.pos mx) ex * F2R (Z.pos my) ey)%R
    with (frac_val (Z.pos (mx * my)) 0 1 (ex + ey)).
  - change loc_Exact with (loc_frac 0 1).
    apply bra_rounds_to; try lia.
    rewrite fexp_eq.
    assert (53 <= Zdigits2 (Z.pos (mx * my))).
    { assert (Hpos : 0 < Z.pos (mx * my)) by lia.
      pose proof (Zdigits2_spec _ Hpos) as [_ Hhi].
      destruct (Z_le_gt_dec 53 (Zdigits2 (Z.pos (mx * my)))); [assumption|].
      assert (2 ^ Zdigits2 (Z.pos (mx * my)) <= 2 ^ 52)
        by (apply Z.pow_le_mono_r; [lia | pose proof (Zdigits2_pos _ Hpos); lia]).
      rewrite Pos2Z.inj_mul in *. nia. }
    lia.
  - rewrite frac_val_exact, Pos2Z.inj_mul. unfold F2R.
    rewrite mult_IZR, bpow_plus. ring.
Qed.

Lemma new_location_spec (d r : Z) :
  0 <= r < d -> new_location d r = loc_frac r d.
Proof.
  intros Hr. unfold new_location, new_location_even, new_location_odd, loc_frac.
  destruct (Z.even d) eqn:Ev; [reflexivity|].
  destruct (Z.eqb_spec r 0); [reflexivity|]. f_equal.
  assert (Hodd : Z.odd d = true) by (rewrite <- Z.negb_even, Ev; reflexivity).
  apply Z.odd_spec in Hodd. destruct Hodd as [k Hk].
  destruct (Z.compare_spec (2 * r + 1) d); destruct (Z.compare_spec (2 * r) d);
    try reflexivity; lia.
Qed.

(** Division of positive finite floats. *)
Lemma SFdiv_spec (mx my : positive) (ex ey : Z) :
  rounds_to (F2R (Z.pos mx) ex / F2R (Z.pos my) ey)
            (SFdiv 53 1024 (S754_finite false mx ex) (S754_finite false my ey)).
Proof.
  unfold SFdiv, SFdiv_core_binary. simpl xorb.
  set (d1 := Zdigits2 (Z.pos mx)). set (d2 := Zdigits2 (Z.pos my)).
  set (e' := Z.min (fexp 53 1024 (d1 + ex - (d2 + ey))) (ex - ey)).
  set (s := ex - ey - e').
  assert (Hs : 0 <= s) by (unfold s, e'; lia).
  assert (Hm' : match s with
                | 0 => Z.pos mx
                | Z.pos _ => Z.shiftl (Z.pos mx) s
                | Z.neg _ => 0
                end = Z.pos mx * 2 ^ s).
  { destruct s as [|p|p]; [simpl; lia | apply Z.shiftl_mul_pow2; lia | lia]. }
  rewrite Hm'. clear Hm'.
  assert (H2s : 0 < 2 ^ s) by (apply Z.pow_pos_nonneg; lia).
  pose proof (Z_div_mod (Z.pos mx * 2 ^ s) (Z.pos my) ltac:(lia)) as Hdm.
  destruct (Z.div_eucl (Z.pos mx * 2 ^ s) (Z.pos my)) as [q r].
  destruct Hdm as [Hq Hr].
  rewrite new_location_spec by assumption.
  assert (Hq0 : 0 <= q) by nia.
  assert (Hd1 : 0 < d1) by (apply Zdigits2_pos; lia).
  assert (Hd2 : 0 < d2) by (apply Zdigits2_pos; lia).
  pose proof (Zdigits2_spec (Z.pos mx) ltac:(lia)) as [Hx1 Hx2]. fold d1 in Hx1, Hx2.
  pose proof (Zdigits2_spec (Z.pos my) ltac:(lia)) as [Hy1 Hy2]. fold d2 in Hy1, Hy2.
  replace (F2R (Z.pos mx) ex / F2R (Z.pos my) ey)%R with (frac_val q r (Z.pos my) e').
  - apply bra_rounds_to; try assumption.
    apply Z.le_trans with (fexp 53 1024 (d1 + ex - (d2 + ey)));
      [unfold e'; lia|].
    destruct (Z.eq_dec q 0) as [->|Hqn].
    + (* the quotient has no integer part: the exponent is the least one *)
      simpl Zdigits2. rewrite !fexp_eq.
      assert (Hlt : Z.pos mx * 2 ^ s < Z.pos my) by lia.
      assert (d1 + s <= d2).
      { destruct (Z_le_gt_dec (d1 + s) d2); [assumption|].
        assert (2 ^ d2 <= 2 ^ (d1 - 1 + s)) by (apply Z.pow_le_mono_r; lia).
        rewrite Z.pow_add_r in H by lia. nia. }
      unfold s, e' in *. rewrite fexp_eq in *. lia.
    + apply fexp_mono.
      assert (Hqpos : 0 < q) by lia.
      pose proof (Zdigits2_spec q Hqpos) as [_ Hq2].
      pose proof (Zdigits2_pos q Hqpos) as Hdq.
      destruct (Z_le_gt_dec (d1 + s - d2) (Zdigits2 q)) as [Hle|Hgt];
        [unfold s in *; lia|].
      exfalso.
      (* q < 2^(d1+s-d2-1), so mx * 2^s < my * 2^(d1+s-d2-1) <= 2^(d1+s-1) *)
      assert (Hqb : q + 1 <= 2 ^ (d1 + s - d2 - 1)).
      { assert (2 ^ Zdigits2 q <= 2 ^ (d1 + s - d2 - 1))
          by (apply Z.pow_le_mono_r; lia). lia. }
      assert (Hlt : Z.pos mx * 2 ^ s < Z.pos my * (q + 1)) by nia.
      assert (Hmy : Z.pos my * (q + 1) < 2 ^ d2 * 2 ^ (d1 + s - d2 - 1)).
      { apply Z.lt_le_trans with (2 ^ d2 * (q + 1)); [nia|].
        apply Z.mul_le_mono_nonneg_l; lia. }
      rewrite <- Z.pow_add_r in Hmy by lia.
      replace (d2 + (d1 + s - d2 - 1)) with (d1 - 1 + s) in Hmy by lia.
      rewrite Z.pow_add_r in Hmy by lia. nia.
  - unfold frac_val, F2R.
    assert (Hmy : (0 < IZR (Z.pos my))%R) by (apply IZR_lt; lia).
    pose proof (bpow_gt_0 ey) as Hbey.
    assert (Eb : bpow ex = (bpow e' * IZR (2 ^ s) * bpow ey)%R).
    { rewrite <- bpow_IZR, <- !bpow_plus by lia. f_equal. unfold s. lia. }
    rewrite Eb.
    apply (f_equal IZR) in Hq. rewrite plus_IZR, !mult_IZR in Hq.
    replace (IZR (Z.pos mx) * (bpow e' * IZR (2 ^ s) * bpow ey))%R
      with ((IZR (Z.pos my) * IZR q + IZR r) * bpow e' * bpow ey)%R
      by (rewrite <- Hq; ring).
    field. split; lra.
Qed.

(** *** Positive finite floats and their values *)

Lemma pf_inv (f : spec_float) :
  pf f -> exists m e, f = S754_finite false m e /\ bounded 53 1024 m e = true.
Proof. destruct f as [| | |[] m e]; simpl; try contradiction. eauto. Qed.

Lemma pf_B2R (f : spec_float) : pf f -> B2R f = F2R (fmant f) (fexpo f).
Proof. intros H. destruct (pf_inv f H) as (m & e & -> & _). reflexivity. Qed.

Lemma pf_bounds (f : spec_float) :
  pf f ->
  -1074 <= fexpo f <= 971 /\ 0 < fmant f < 2 ^ 53
  /\ (-1074 < fexpo f -> 2 ^ 52 <= fmant f).
Proof.
  intros H. destruct (pf_inv f H) as (m & e & -> & Hb).
  apply bounded_spec in Hb. simpl. intuition lia.
Qed.

Lemma pf_pos (f : spec_float) : pf f -> (0 < B2R f)%R.
Proof. intros H. destruct (pf_inv f H) as (m & e & -> & _). apply F2R_gt_0. Qed.

Lemma pf_make (m e : Z) :
  -1074 <= e <= 971 -> 0 < m < 2 ^ 53 -> (-1074 < e -> 2 ^ 52 <= m) ->
  pf (S754_finite false (Z.to_pos m) e)
  /\ B2R (S754_finite false (Z.to_pos m) e) = F2R m e.
Proof.
  intros He Hm Hn. simpl. rewrite Z2Pos.id by lia. split; [|reflexivity].
  apply bounded_spec. rewrite Z2Pos.id by lia. repeat split; try lia.
Qed.

Lemma pf_eq (f g : spec_float) : pf f -> pf g -> B2R f = B2R g -> f = g.
Proof.
  intros Hf Hg E.
  destruct (pf_inv f Hf) as (m1 & e1 & -> & H1).
  destruct (pf_inv g Hg) as (m2 & e2 & -> & H2).
  destruct (F2R_eq_inv m1 m2 e1 e2 H1 H2 E) as [-> ->]. reflexivity.
Qed.

Lemma pf_le_exp (f g : spec_float) :
  pf f -> pf g -> (B2R f <= B2R g)%R -> fexpo f <= fexpo g.
Proof.
  intros Hf Hg E.
  destruct (pf_inv f Hf) as (m1 & e1 & -> & H1).
  destruct (pf_inv g Hg) as (m2 & e2 & -> & H2).
  exact (F2R_le_exp m1 m2 e1 e2 H1 H2 E).
Qed.

Lemma pf_gap_above (f g : spec_float) :
  pf f -> pf g -> (B2R f < B2R g)%R -> (B2R f + ulp f <= B2R g)%R.
Proof.
  intros Hf Hg E.
  destruct (pf_inv f Hf) as (m1 & e1 & -> & H1).
  destruct (pf_inv g Hg) as (m2 & e2 & -> & H2).
  exact (F2R_gap_above m1 m2 e1 e2 H1 H2 E).
Qed.

Lemma pf_gap_below (f g : spec_float) :
  pf f -> pf g -> (B2R f < B2R g)%R -> (B2R f <= B2R g - gapbf g)%R.
Proof.
  intros Hf Hg E.
  destruct (pf_inv f Hf) as (m1 & e1 & -> & H1).
  destruct (pf_inv g Hg) as (m2 & e2 & -> & H2).
  exact (F2R_gap_below m1 m2 e1 e2 H1 H2 E).
Qed.

Lemma pf_min (f : spec_float) : pf f -> (bpow (-1074) <= B2R f)%R.
Proof.
  intros H. rewrite (pf_B2R f H). destruct (pf_bounds f H) as (He & Hm & _).
  unfold F2R. assert (1 <= IZR (fmant f))%R by (apply IZR_le; lia).
  assert (bpow (-1074) <= bpow (fexpo f))%R by (apply bpow_le; lia).
  pose proof (bpow_gt_0 (-1074)). nra.
Qed.

Lemma pf_max (f : spec_float) : pf f -> (B2R f <= bpow 1024 - bpow 971)%R.
Proof.
  intros H. rewrite (pf_B2R f H). destruct (pf_bounds f H) as (He & Hm & _).
  unfold F2R. assert (IZR (fmant f) <= IZR (2 ^ 53) - 1)%R.
  { rewrite <- minus_IZR. apply IZR_le. lia. }
  assert (bpow (fexpo f) <= bpow 971)%R by (apply bpow_le; lia).
  replace (bpow 1024) with (IZR (2 ^ 53) * bpow 971)%R
    by (rewrite <- (bpow_IZR 53), <- bpow_plus by lia; reflexivity).
  pose proof (bpow_gt_0 (fexpo f)). assert (0 < IZR (fmant f))%R by (apply IZR_lt; lia).
  nra.
Qed.

Lemma overflow_threshold : (bpow 1024 - bpow 971 < bpow 1024 - bpow 970)%R.
Proof. pose proof (bpow_lt 970 971 ltac:(lia)). lra. Qed.

(** *** Rounded results, in terms of values *)

Lemma rounds_to_pf (y : R) (f : spec_float) :
  rounds_to y f -> (bpow (-1074) <= y)%R -> (y < bpow 1024 - bpow 970)%R ->
  pf f.
Proof.
  intros Hr Hlo Hhi.
  destruct (rounds_to_finite y f Hr Hlo Hhi) as (m & e & -> & Hb & _).
  exact Hb.
Qed.

Section Rounded.
Variables (y : R) (f : spec_float).
Hypothesis Hr : rounds_to y f.
Hypothesis Hf : pf f.

Lemma rounded_ge (g : spec_float) :
  pf g -> (B2R g <= y)%R -> (B2R g <= B2R f)%R.
Proof.
  intros Hg Hle. destruct (pf_inv f Hf) as (m & e & -> & Hb).
  destruct (pf_inv g Hg) as (mg & eg & -> & Hbg).
  destruct Hr as (_ & Hlo & Hhi). now apply (round_ge y m e Hb Hlo).
Qed.

Lemma rounded_le (g : spec_float) :
  pf g -> (y <= B2R g)%R -> (B2R f <= B2R g)%R.
Proof.
  intros Hg Hle. destruct (pf_inv f Hf) as (m & e & -> & Hb).
  destruct (pf_inv g Hg) as (mg & eg & -> & Hbg).
  destruct Hr as (_ & Hlo & Hhi). now apply (round_le y m e Hb Hhi).
Qed.

Lemma rounded_exact (g : spec_float) : pf g -> y = B2R g -> f = g.
Proof.
  intros Hg E. apply pf_eq; auto.
  apply Rle_antisym; [apply rounded_le | apply rounded_ge]; auto; lra.
Qed.

Lemma rounded_mid_ge (g : spec_float) :
  pf g -> (B2R g < B2R f)%R -> ((B2R g + B2R f) / 2 <= y)%R.
Proof.
  intros Hg Hlt. destruct (pf_inv f Hf) as (m & e & -> & Hb).
  destruct (pf_inv g Hg) as (mg & eg & -> & Hbg).
  destruct Hr as (_ & Hlo & Hhi). now apply (round_mid_ge y m e Hb Hhi).
Qed.

Lemma rounded_mid_le (h : spec_float) :
  pf h -> (B2R f < B2R h)%R -> (y <= (B2R f + B2R h) / 2)%R.
Proof.
  intros Hh Hlt. destruct (pf_inv f Hf) as (m & e & -> & Hb).
  destruct (pf_inv h Hh) as (mh & eh & -> & Hbh).
  destruct Hr as (_ & Hlo & Hhi). now apply (round_mid_le y m e Hb Hlo).
Qed.

Lemma rounded_ge_multiple (k E : Z) :
  fexpo f <= E -> (F2R k E <= y)%R -> (F2R k E <= B2R f)%R.
Proof.
  intros HE Hle. destruct (pf_inv f Hf) as (m & e & -> & Hb).
  destruct Hr as (_ & Hlo & Hhi). now apply (round_ge_multiple y m e Hlo).
Qed.

End Rounded.

(** *** The operations on positive finite floats *)

Lemma div_rounds (x p : spec_float) :
  pf x -> pf p -> rounds_to (B2R x / B2R p) (SFdiv 53 1024 x p).
Proof.
  intros Hx Hp. destruct (pf_inv x Hx) as (mx & ex & -> & _).
  destruct (pf_inv p Hp) as (mp & ep & -> & _). apply SFdiv_spec.
Qed.

Lemma add_rounds (p q : spec_float) :
  pf p -> pf q -> rounds_to (B2R p + B2R q) (SFadd 53 1024 p q).
Proof.
  intros Hp Hq. destruct (pf_inv p Hp) as (mp & ep & -> & _).
  destruct (pf_inv q Hq) as (mq & eq & -> & _). apply SFadd_spec.
Qed.

Lemma half_rounds (s : spec_float) :
  pf s -> rounds_to (B2R s / 2) (SFmul 53 1024 d_half s).
Proof.
  intros Hs. destruct (pf_inv s Hs) as (ms & es & -> & _).
  replace (B2R (S754_finite false ms es) / 2)%R
    with (F2R (Z.pos 4503599627370496) (-53) * F2R (Z.pos ms) es)%R.
  - apply SFmul_spec. reflexivity.
  - simpl. unfold F2R at 1.
    replace (-53) with (-(53)) by reflexivity.
    change (Z.pos 4503599627370496) with (2 ^ 52).
    rewrite <- (bpow_IZR 52), <- bpow_plus by lia.
    replace (52 + -(53)) with (0 - 1) by lia. rewrite bpow_pred, bpow_0. lra.
Qed.

Lemma add_comm_pf (p q : spec_float) :
  pf p -> pf q -> SFadd 53 1024 p q = SFadd 53 1024 q p.
Proof.
  intros Hp Hq. destruct (pf_inv p Hp) as (mp & ep & -> & _).
  destruct (pf_inv q Hq) as (mq & eq & -> & _).
  unfold SFadd. rewrite (Z.min_comm eq ep), Z.add_comm. reflexivity.
Qed.

Lemma SFeqb_pf (f g : spec_float) :
  pf f -> pf g -> (SFeqb f g = true <-> f = g).
Proof.
  intros Hf Hg. destruct (pf_inv f Hf) as (m1 & e1 & -> & _).
  destruct (pf_inv g Hg) as (m2 & e2 & -> & _).
  unfold SFeqb, SFcompare.
  destruct (Z.compare_spec e1 e2) as [->|H|H].
  - change (Pos.compare_cont Eq m1 m2) with (Pos.compare m1 m2).
    destruct (Pos.compare_spec m1 m2) as [->|H|H]; split; intros E;
      try reflexivity; try discriminate; injection E as E; lia.
  - split; intros E; [discriminate | injection E as E1 E2; lia].
  - split; intros E; [discriminate | injection E as E1 E2; lia].
Qed.

(** *** One step of the iteration *)

Lemma dbl_pf (f : spec_float) :
  pf f -> -1074 < fexpo f <= 970 ->
  pf (dbl f) /\ B2R (dbl f) = (2 * B2R f)%R /\ fexpo (dbl f) = fexpo f + 1.
Proof.
  intros Hf He. destruct (pf_inv f Hf) as (m & e & -> & Hb).
  simpl in *. apply bounded_spec in Hb. split; [|split]; [| |reflexivity].
  - apply bounded_spec. intuition lia.
  - unfold F2R. rewrite bpow_succ. ring.
Qed.

Lemma hlf_pf (f : spec_float) :
  pf f -> -1074 < fexpo f ->
  pf (hlf f) /\ B2R (hlf f) = (B2R f / 2)%R.
Proof.
  intros Hf He. destruct (pf_inv f Hf) as (m & e & -> & Hb).
  simpl in *. apply bounded_spec in Hb. split.
  - apply bounded_spec. intuition lia.
  - unfold F2R. rewrite bpow_pred. field.
Qed.

Lemma pf_normal_ge (f g : spec_float) :
  pf f -> pf g -> -1074 < fexpo f -> (B2R f <= B2R g)%R -> -1074 < fexpo g.
Proof. intros Hf Hg He Hle. pose proof (pf_le_exp f g Hf Hg Hle). lia. Qed.

Lemma step_pf (x p g : spec_float) :
  pf x -> pf p -> -1074 < fexpo p -> pf g ->
  (bpow (-1074) <= B2R x / B2R p)%R ->
  (B2R x / B2R p <= B2R g)%R ->
  (B2R p + B2R g < bpow 1024 - bpow 970)%R ->
  step_ok x p.
Proof.
  intros Hx Hp Hn Hg Hlo Hhi Hsum.
  pose proof (div_rounds x p Hx Hp) as Hrq.
  pose proof (pf_pos p Hp) as Hp0. pose proof (pf_pos g Hg) as Hg0.
  assert (Hq : pf (SFdiv 53 1024 x p)).
  { apply (rounds_to_pf _ _ Hrq Hlo). lra. }
  pose proof (rounded_le _ _ Hrq Hq g Hg Hhi) as Hqg.
  pose proof (pf_pos _ Hq) as Hq0.
  pose proof (add_rounds p _ Hp Hq) as Hrs.
  pose proof (pf_min p Hp) as Hpmin.
  assert (Hs : pf (SFadd 53 1024 p (SFdiv 53 1024 x p))).
  { apply (rounds_to_pf _ _ Hrs); lra. }
  assert (Hsge : (B2R p <= B2R (SFadd 53 1024 p (SFdiv 53 1024 x p)))%R).
  { apply (rounded_ge _ _ Hrs Hs p Hp). lra. }
  pose proof (pf_normal_ge p _ Hp Hs Hn Hsge) as Hsn.
  destruct (hlf_pf _ Hs Hsn) as [Hh Hhv].
  pose proof (half_rounds _ Hs) as Hrn.
  assert (Hnpf : pf (newton x p)).
  { apply (rounds_to_pf _ _ Hrn).
    - rewrite <- Hhv. now apply pf_min.
    - rewrite <- Hhv. pose proof (pf_max _ Hh). pose proof overflow_threshold. lra. }
  constructor; try assumption.
  rewrite <- Hhv. f_equal.
  apply (rounded_exact _ _ Hrn Hnpf _ Hh). now symmetry.
Qed.

(** *** Inequalities on quotients *)

Lemma div_le (x p g : R) : (0 < p -> x <= g * p -> x / p <= g)%R.
Proof.
  intros Hp H. apply Rmult_le_reg_r with p; [assumption|].
  unfold Rdiv. rewrite Rmult_assoc, Rinv_l by lra. lra.
Qed.

Lemma le_div (x p g : R) : (0 < p -> g * p <= x -> g <= x / p)%R.
Proof.
  intros Hp H. apply Rmult_le_reg_r with p; [assumption|].
  unfold Rdiv. rewrite Rmult_assoc, Rinv_l by lra. lra.
Qed.

Lemma lt_div (x p g : R) : (0 < p -> g * p < x -> g < x / p)%R.
Proof.
  intros Hp H. apply Rmult_lt_reg_r with p; [assumption|].
  unfold Rdiv. rewrite Rmult_assoc, Rinv_l by lra. lra.
Qed.

Lemma div_le_inv (x p g : R) : (0 < p -> x / p <= g -> x <= g * p)%R.
Proof.
  intros Hp H. apply Rmult_le_compat_r with (r := p) in H; [|lra].
  unfold Rdiv in H. rewrite Rmult_assoc, Rinv_l in H by lra. lra.
Qed.

Lemma le_div_inv (x p g : R) : (0 < p -> g <= x / p -> g * p <= x)%R.
Proof.
  intros Hp H. apply Rmult_le_compat_r with (r := p) in H; [|lra].
  unfold Rdiv in H. rewrite Rmult_assoc, Rinv_l in H by lra. lra.
Qed.

(** *** The step above and below the root *)

Section Step.
Variables x p : spec_float.
Hypothesis Hx : pf x.
Hypothesis Hp : pf p.
Hypothesis Hn : -1074 < fexpo p <= 970.
Hypothesis Hok : step_ok x p.

Local Abbreviation X := (B2R x).
Local Abbreviation P := (B2R p).

(** At or above the root the step does not go up. *)
Lemma step_down : (X <= P * P)%R -> (B2R (newton x p) <= P)%R.
Proof.
  intros HH. pose proof (pf_pos p Hp) as Hp0.
  destruct (dbl_pf p Hp Hn) as (Hd & Hdv & _).
  assert (Hq : (B2R (SFdiv 53 1024 x p) <= P)%R).
  { apply (rounded_le _ _ (so_rq _ _ Hok) (so_q _ _ Hok) p Hp).
    apply div_le; assumption. }
  assert (Hs : (B2R (SFadd 53 1024 p (SFdiv 53 1024 x p)) <= 2 * P)%R).
  { rewrite <- Hdv.
    apply (rounded_le _ _ (so_rs _ _ Hok) (so_s _ _ Hok) _ Hd).
    rewrite Hdv. lra. }
  rewrite (so_half _ _ Hok). lra.
Qed.

(** At or below the root the step does not go down. *)
Lemma step_up : (P * P <= X)%R -> (P <= B2R (newton x p))%R.
Proof.
  intros HL. pose proof (pf_pos p Hp) as Hp0.
  destruct (dbl_pf p Hp Hn) as (Hd & Hdv & _).
  assert (Hq : (P <= B2R (SFdiv 53 1024 x p))%R).
  { apply (rounded_ge _ _ (so_rq _ _ Hok) (so_q _ _ Hok) p Hp).
    apply le_div; assumption. }
  assert (Hs : (2 * P <= B2R (SFadd 53 1024 p (SFdiv 53 1024 x p)))%R).
  { rewrite <- Hdv.
    apply (rounded_ge _ _ (so_rs _ _ Hok) (so_s _ _ Hok) _ Hd).
    rewrite Hdv. lra. }
  rewrite (so_half _ _ Hok). lra.
Qed.

(** From at or above the root, the step stays above every float below the
    root. *)
Lemma step_above_low (f : spec_float) :
  pf f -> -1074 < fexpo f ->
  (X <= P * P)%R -> (B2R f * B2R f < X)%R ->
  (B2R f <= B2R (newton x p))%R.
Proof.
  intros Hf Hfn HH HL.
  pose proof (pf_pos p Hp) as Hp0.
  pose proof (pf_pos f Hf) as Hf0. set (F := B2R f) in *.
  assert (HFP : (F < P)%R) by nra.
  assert (Hefp : fexpo f <= fexpo p) by (apply pf_le_exp; auto; fold F; lra).
  assert (Hq : (2 * F - P <= B2R (SFdiv 53 1024 x p))%R).
  { destruct (Rle_or_lt F (B2R (SFdiv 53 1024 x p))) as [|Hlt]; [lra|].
    assert (Heq : fexpo (SFdiv 53 1024 x p) <= fexpo f).
    { apply pf_le_exp; auto; [apply (so_q _ _ Hok) | fold F; lra]. }
    assert (EF : (2 * F - P)%R
                 = F2R (2 * fmant f - fmant p * 2 ^ (fexpo p - fexpo f)) (fexpo f)).
    { unfold F. rewrite (pf_B2R f Hf), (pf_B2R p Hp).
      replace (fexpo p) with (fexpo f + (fexpo p - fexpo f)) at 1 by lia.
      rewrite <- F2R_shift by lia. unfold F2R.
      rewrite minus_IZR, !mult_IZR. ring. }
    rewrite EF.
    apply (rounded_ge_multiple _ _ (so_rq _ _ Hok) (so_q _ _ Hok)); [assumption|].
    rewrite <- EF. apply le_div; [assumption|]. nra. }
  assert (Hfe : -1074 < fexpo f <= 970) by lia.
  destruct (dbl_pf f Hf Hfe) as (Hd & Hdv & _).
  assert (Hs : (2 * F <= B2R (SFadd 53 1024 p (SFdiv 53 1024 x p)))%R).
  { unfold F. rewrite <- Hdv.
    apply (rounded_ge _ _ (so_rs _ _ Hok) (so_s _ _ Hok) _ Hd).
    rewrite Hdv. fold F. lra. }
  rewrite (so_half _ _ Hok). lra.
Qed.

End Step.

(** *** The next float *)

Lemma succf_pf (f : spec_float) :
  pf f -> -1074 < fexpo f <= 970 ->
  pf (succf f)
  /\ B2R (succf f) = (B2R f + ulp f)%R
  /\ fexpo f <= fexpo (succf f) <= fexpo f + 1
  /\ gapbf (succf f) = ulp f
  /\ ((fmant f + 1 < 2 ^ 53 /\ ulp (succf f) = ulp f)
      \/ ulp (succf f) = (2 * ulp f)%R).
Proof.
  intros Hf He. destruct (pf_inv f Hf) as (m & e & -> & Hb).
  apply bounded_spec in Hb. destruct Hb as (Hbe & Hbm & Hbn).
  assert (Hm52 : 2 ^ 52 <= Z.pos m) by (simpl in He; apply Hbn; lia).
  simpl fexpo in He.
  destruct (Z.ltb_spec (Z.pos m + 1) (2 ^ 53)) as [Hlt|Hge].
  - assert (Es : succf (S754_finite false m e) = S754_finite false (m + 1) e).
    { unfold succf. now rewrite (proj2 (Z.ltb_lt _ _) Hlt). }
    rewrite Es. unfold ulp, gapbf. cbn [fexpo fmant B2R pf cond_Zopp].
    split; [|split; [|split; [|split]]].
    + apply bounded_spec. rewrite Pos2Z.inj_add. intuition lia.
    + unfold F2R. rewrite Pos2Z.inj_add, plus_IZR. ring.
    + lia.
    + unfold gapb. rewrite Pos2Z.inj_add.
      destruct (Z.eqb_spec (Z.pos m + 1) (2 ^ 52)); [lia | reflexivity].
    + left. split; [assumption | reflexivity].
  - assert (Em : Z.pos m = 2 ^ 53 - 1) by lia.
    assert (Es : succf (S754_finite false m e)
                 = S754_finite false 4503599627370496 (e + 1)).
    { unfold succf. now rewrite (proj2 (Z.ltb_ge _ _) Hge). }
    rewrite Es. unfold ulp, gapbf. cbn [fexpo fmant B2R pf cond_Zopp].
    split; [|split; [|split; [|split]]].
    + apply bounded_spec. change (Z.pos 4503599627370496) with (2 ^ 52).
      intuition lia.
    + unfold F2R. rewrite Em, bpow_succ, minus_IZR.
      change (Z.pos 4503599627370496) with (2 ^ 52).
      change (2 ^ 53) with (2 * 2 ^ 52). rewrite mult_IZR. ring.
    + lia.
    + unfold gapb. change (Z.pos 4503599627370496 =? 2 ^ 52) with true.
      replace (-1074 <? e + 1) with true by (symmetry; apply Z.ltb_lt; lia).
      cbn [andb]. f_equal. lia.
    + right. apply bpow_succ.
Qed.

Lemma succf_le (f g : spec_float) :
  pf f -> -1074 < fexpo f <= 970 -> pf g ->
  (B2R f < B2R g)%R -> (B2R (succf f) <= B2R g)%R.
Proof.
  intros Hf He Hg Hlt. destruct (succf_pf f Hf He) as (_ & -> & _).
  now apply pf_gap_above.
Qed.

(** A normal float holds at least 2^52 of its units. *)
Lemma pf_normal_big (f : spec_float) :
  pf f -> -1074 < fexpo f -> (IZR (2 ^ 52) * ulp f <= B2R f)%R.
Proof.
  intros Hf He. rewrite (pf_B2R f Hf). destruct (pf_bounds f Hf) as (_ & _ & Hn).
  unfold F2R, ulp. pose proof (bpow_gt_0 (fexpo f)).
  assert (IZR (2 ^ 52) <= IZR (fmant f))%R by (apply IZR_le; auto). nra.
Qed.

Lemma pf_lt_bpow (f : spec_float) :
  pf f -> (B2R f < bpow (fexpo f + 53))%R.
Proof.
  intros Hf. rewrite (pf_B2R f Hf). destruct (pf_bounds f Hf) as (_ & Hm & _).
  unfold F2R. rewrite Z.add_comm, bpow_plus, (bpow_IZR 53) by lia.
  pose proof (bpow_gt_0 (fexpo f)).
  assert (IZR (fmant f) < IZR (2 ^ 53))%R by (apply IZR_lt; lia). nra.
Qed.

(** *** The states of the iteration *)

Lemma d_low_low (x : spec_float) :
  pf x -> pf d_low /\ -1074 < fexpo d_low
          /\ (B2R d_low * B2R d_low < B2R x)%R.
Proof.
  intros Hx. split; [reflexivity|]. split; [simpl; lia|].
  pose proof (pf_min x Hx) as Hmin.
  apply Rlt_le_trans with (bpow (-1074)); [|assumption].
  simpl. unfold F2R. change (Z.pos 4503599627370496) with (2 ^ 52).
  rewrite <- (bpow_IZR 52), <- !bpow_plus by lia.
  apply bpow_lt. lia.
Qed.

Lemma above_low_normal (x p : spec_float) :
  pf x -> pf p -> above_low x p -> -1074 < fexpo p.
Proof.
  intros Hx Hp Hl. destruct (d_low_low x Hx) as (H1 & H2 & H3).
  pose proof (pf_le_exp d_low p H1 Hp (Hl d_low H1 H2 H3)). simpl in H. lia.
Qed.

(** A step from at or above the root. *)
Lemma high_step (x p : spec_float) :
  pf x -> state_ok x p -> (B2R x <= B2R p * B2R p)%R ->
  step_ok x p /\ state_ok x (newton x p)
  /\ (B2R (newton x p) <= B2R p)%R.
Proof.
  intros Hx [Hp He Hq Hl] HH.
  pose proof (pf_pos p Hp) as Hp0. pose proof (pf_pos x Hx) as Hx0.
  destruct (dbl_pf p Hp He) as (Hd & Hdv & _).
  assert (Hok : step_ok x p).
  { apply step_pf with (g := p); auto; try lia.
    - apply le_div; assumption.
    - apply div_le; assumption.
    - pose proof (pf_max _ Hd). pose proof overflow_threshold. lra. }
  pose proof (step_down x p Hp He Hok HH) as Hdown.
  split; [assumption|]. split; [|assumption].
  assert (Hlow : above_low x (newton x p)).
  { intros f Hf Hfn HL. now apply (step_above_low x p Hp He Hok f). }
  pose proof (so_n _ _ Hok) as Hnpf.
  constructor; auto.
  - split; [now apply (above_low_normal x)|].
    pose proof (pf_le_exp _ _ Hnpf Hp Hdown). lia.
  - pose proof (bpow_gt_0 (-1074)). nra.
Qed.

(** *** Just below the root *)

Lemma bpow_512_sq : (bpow 512 * bpow 512 = bpow 1024)%R.
Proof. rewrite <- bpow_plus. reflexivity. Qed.

Lemma low_state (x a : spec_float) :
  pf x -> state_ok x a -> (B2R a * B2R a < B2R x)%R -> low_facts x a.
Proof.
  intros Hx [Ha He Hq Hl] HL.
  pose proof (pf_pos a Ha) as Ha0. pose proof (pf_pos x Hx) as Hx0.
  pose proof (pf_normal_big a Ha ltac:(lia)) as Hbig.
  assert (Hu0 : (0 < ulp a)%R) by apply bpow_gt_0.
  assert (H52 : IZR (2 ^ 52) = 4503599627370496%R) by reflexivity.
  assert (He459 : fexpo a <= 459).
  { destruct (Z_le_gt_dec (fexpo a) 459) as [|Hgt]; [assumption|]. exfalso.
    assert (bpow 460 <= ulp a)%R by (apply bpow_le; lia).
    assert (bpow 512 <= B2R a)%R.
    { replace (bpow 512) with (IZR (2 ^ 52) * bpow 460)%R
        by (rewrite <- (bpow_IZR 52), <- bpow_plus by lia; reflexivity).
      pose proof (bpow_gt_0 460). nra. }
    pose proof (pf_max x Hx). pose proof bpow_512_sq.
    pose proof (bpow_gt_0 512). pose proof (bpow_gt_0 971). nra. }
  destruct (succf_pf a Ha ltac:(lia)) as (Hb & Hbv & Hbe & Hbg & Hbu).
  assert (Hhigh : (B2R x <= B2R (succf a) * B2R (succf a))%R).
  { destruct (Rle_or_lt (B2R x) (B2R (succf a) * B2R (succf a))) as [|Hlt];
      [assumption|].
    pose proof (Hl (succf a) Hb ltac:(lia) Hlt). lra. }
  assert (Ha512 : (B2R a < bpow 512)%R).
  { apply Rlt_le_trans with (bpow (fexpo a + 53)); [now apply pf_lt_bpow|].
    apply bpow_le. lia. }
  assert (Hthr : (4 * bpow 512 < bpow 1024 - bpow 970)%R).
  { replace (bpow 1024) with (bpow 514 * bpow 510)%R
      by (rewrite <- bpow_plus; reflexivity).
    replace (bpow 970) with (bpow 460 * bpow 510)%R
      by (rewrite <- bpow_plus; reflexivity).
    replace (bpow 512) with (bpow 2 * bpow 510)%R
      by (rewrite <- bpow_plus; reflexivity).
    assert (4 * bpow 2 + bpow 460 < bpow 514)%R.
    { assert (bpow 2 = 4)%R by (rewrite (bpow_IZR 2) by lia; reflexivity).
      pose proof (bpow_lt 460 513 ltac:(lia)).
      pose proof (bpow_le 5 513 ltac:(lia)).
      assert (bpow 5 = 32)%R by (rewrite (bpow_IZR 5) by lia; reflexivity).
      replace (bpow 514) with (2 * bpow 513)%R
        by (rewrite <- bpow_succ; reflexivity).
      lra. }
    pose proof (bpow_gt_0 510). nra. }
  destruct (dbl_pf a Ha ltac:(lia)) as (Hd & Hdv & _).
  destruct (d_low_low x Hx) as (Hl1 & Hl2 & Hl3).
  pose proof (Hl d_low Hl1 Hl2 Hl3) as Halow.
  assert (Elow : B2R d_low = bpow (-538)).
  { simpl. unfold F2R. change (Z.pos 4503599627370496) with (2 ^ 52).
    rewrite <- (bpow_IZR 52), <- bpow_plus by lia. reflexivity. }
  rewrite Elow in Halow.
  assert (Hlowb : (2 * bpow (-1074) <= bpow (-538))%R).
  { rewrite <- bpow_succ. apply bpow_le. lia. }
  pose proof (bpow_gt_0 (-1074)) as Hmin0.
  constructor; auto; try lia.
  - apply step_pf with (g := dbl a); auto; try lia.
    + apply le_div; [assumption|]. pose proof (pf_min a Ha). nra.
    + apply div_le; [assumption|]. rewrite Hdv.
      rewrite Hbv in Hhigh. nra.
    + rewrite Hdv. lra.
  - apply step_pf with (g := succf a); auto; try lia.
    + apply le_div; [rewrite Hbv; lra|]. rewrite Hbv. nra.
    + apply div_le; [rewrite Hbv; lra | assumption].
    + rewrite Hbv. nra.
Qed.

(** From just below the root the step goes up by one float at most. *)
Lemma low_step_le (x a : spec_float) :
  pf x -> state_ok x a -> (B2R a * B2R a < B2R x)%R ->
  (B2R (newton x a) <= B2R (succf a))%R.
Proof.
  intros Hx Hst HL. pose proof (low_state x a Hx Hst HL) as LF.
  destruct Hst as [Ha He Hq Hl].
  destruct LF as [He459 Hb Hbe Hbv Hbg Hbu Hhigh Hbig Hoka _].
  set (b := succf a) in *. set (A := B2R a) in *. set (B := B2R b) in *.
  set (u := ulp a) in *.
  assert (Hu0 : (0 < u)%R) by apply bpow_gt_0.
  assert (H52 : IZR (2 ^ 52) = 4503599627370496%R) by reflexivity.
  pose proof (pf_pos a Ha) as Ha0. fold A in Ha0.
  destruct (Rle_or_lt (B2R (newton x a)) B) as [|Hgt]; [assumption|]. exfalso.
  pose proof (pf_gap_above b _ Hb (so_n _ _ Hoka) Hgt) as Hna. fold B in Hna.
  assert (Hub : (u <= ulp b)%R) by (destruct Hbu as [[_ ->] | ->]; lra).
  rewrite (so_half _ _ Hoka) in Hna.
  set (S := B2R (SFadd 53 1024 a (SFdiv 53 1024 x a))) in *.
  set (Q := B2R (SFdiv 53 1024 x a)) in *.
  destruct (dbl_pf b Hb Hbe) as (Hd & Hdv & _). fold B in Hdv.
  assert (Hs : ((B2R (dbl b) + S) / 2 <= A + Q)%R).
  { apply (rounded_mid_ge _ _ (so_rs _ _ Hoka) (so_s _ _ Hoka) _ Hd).
    fold S. lra. }
  rewrite Hdv in Hs.
  destruct (succf_pf b Hb Hbe) as (Hc & Hcv & _). fold B in Hcv.
  assert (Hq' : ((B2R (succf b) + Q) / 2 <= B2R x / A)%R).
  { apply (rounded_mid_ge _ _ (so_rq _ _ Hoka) (so_q _ _ Hoka) _ Hc).
    fold Q. lra. }
  rewrite Hcv in Hq'. apply le_div_inv in Hq'; [|assumption].
  assert (HT : (B + 3 / 2 * u <= (B + ulp b + Q) / 2)%R) by lra.
  assert (H1 : ((B + 3 / 2 * u) * A <= B2R x)%R) by nra.
  assert (EA : A = (B - u)%R) by lra.
  rewrite EA in H1. nra.
Qed.

(** *** No float in the two narrow windows *)

Lemma pow2_divide_odd (n a o : Z) :
  0 <= n -> (2 ^ n | a * (2 * o + 1)) -> (2 ^ n | a).
Proof.
  intros Hn Hd. apply (Z.gauss (2 ^ n) (2 * o + 1) a).
  - now rewrite Z.mul_comm.
  - apply Z.coprime_pow_l; [assumption|].
    apply Z.coprime_Bezout. exists (- o), 1. lia.
Qed.

Lemma no_divide_small (n a : Z) : 0 < a < 2 ^ n -> ~ (2 ^ n | a).
Proof.
  intros Ha [c Hc]. assert (0 < c) by nia. nia.
Qed.

Lemma window_generic (m k : Z) :
  2 ^ 52 <= m -> m + 1 < 2 ^ 53 ->
  m * (2 * m + 3) <= k * 2 ^ 53 <= (m + 1) * (2 * m + 1) -> False.
Proof.
  intros Hm1 Hm2 [Hlo Hhi].
  assert (Hc : k * 2 ^ 53 = m * (2 * (m + 1) + 1)
               \/ k * 2 ^ 53 = (m + 1) * (2 * m + 1)) by lia.
  destruct Hc as [E|E].
  - apply (no_divide_small 53 m); [lia|].
    apply (pow2_divide_odd 53 m (m + 1)); [lia|]. exists k. lia.
  - apply (no_divide_small 53 (m + 1)); [lia|].
    apply (pow2_divide_odd 53 (m + 1) m); [lia|]. exists k. lia.
Qed.

Lemma window_pow2 (k : Z) :
  4 * (2 ^ 52 * 2 ^ 52) + 2 * 2 ^ 52 <= 4 * (k * 2 ^ 52)
  <= (2 ^ 52 + 1) * (4 * 2 ^ 52 - 1) -> False.
Proof. lia. Qed.

(** The input is a multiple of 2^52 squared units of a float below its
    root. *)
Lemma input_multiple (x a : spec_float) :
  pf x -> pf a -> -1074 < fexpo a -> (B2R a * B2R a < B2R x)%R ->
  exists k : Z, B2R x = (IZR k * IZR (2 ^ 52) * (ulp a * ulp a))%R.
Proof.
  intros Hx Ha He HL.
  pose proof (pf_normal_big a Ha He) as Hbig.
  pose proof (pf_lt_bpow x Hx) as Hxlt.
  assert (Hu0 : (0 < ulp a)%R) by apply bpow_gt_0.
  set (e := fexpo a) in *.
  assert (Hex : 2 * e + 52 <= fexpo x).
  { destruct (Z_le_gt_dec (2 * e + 52) (fexpo x)) as [|Hgt]; [assumption|].
    exfalso.
    assert (bpow (fexpo x + 53) <= bpow (2 * e + 104))%R by (apply bpow_le; lia).
    assert (bpow (2 * e + 104) = IZR (2 ^ 52) * ulp a * (IZR (2 ^ 52) * ulp a))%R.
    { unfold ulp. fold e. rewrite <- (bpow_IZR 52) by lia.
      replace (bpow 52 * bpow e * (bpow 52 * bpow e))%R
        with (bpow 52 * bpow 52 * (bpow e * bpow e))%R by ring.
      rewrite <- !bpow_plus. f_equal. lia. }
    assert (0 < IZR (2 ^ 52) * ulp a)%R.
    { apply Rmult_lt_0_compat; [apply IZR_lt; reflexivity | assumption]. }
    pose proof (pf_pos a Ha). nra. }
  exists (fmant x * 2 ^ (fexpo x - (2 * e + 52))).
  rewrite (pf_B2R x Hx).
  replace (fexpo x) with ((2 * e + 52) + (fexpo x - (2 * e + 52))) at 1 by lia.
  rewrite <- F2R_shift by lia. unfold F2R, ulp. fold e.
  rewrite <- (bpow_IZR 52) by lia.
  replace (bpow (2 * e + 52)) with (bpow 52 * (bpow e * bpow e))%R
    by (rewrite <- !bpow_plus; f_equal; lia).
  ring.
Qed.

Lemma window_generic_real (m k : Z) (u A B X : R) :
  2 ^ 52 <= m -> m + 1 < 2 ^ 53 ->
  (0 < u)%R -> A = (IZR m * u)%R -> B = (A + u)%R ->
  X = (IZR k * IZR (2 ^ 52) * (u * u))%R ->
  ((B + u / 2) * A <= X)%R -> (X <= (A + B) / 2 * B)%R -> False.
Proof.
  intros Hm1 Hm2 Hu EA EB EX Hlo Hhi.
  apply (window_generic m k Hm1 Hm2).
  assert (Huu : (0 < u * u)%R) by nra.
  split; apply le_IZR.
  - change (2 ^ 53) with (2 * 2 ^ 52).
    rewrite !mult_IZR, plus_IZR, !mult_IZR.
    apply Rmult_le_reg_r with (u * u)%R; [assumption|].
    subst A B X. nra.
  - change (2 ^ 53) with (2 * 2 ^ 52).
    rewrite !mult_IZR, !plus_IZR, !mult_IZR.
    apply Rmult_le_reg_r with (u * u)%R; [assumption|].
    subst A B X. nra.
Qed.

Lemma window_pow2_real (k : Z) (u A B X : R) :
  (0 < u)%R -> A = (IZR (2 ^ 52) * u)%R -> B = (A + u)%R ->
  X = (IZR k * IZR (2 ^ 52) * (u * u))%R ->
  ((A + B) / 2 * A <= X)%R -> (X <= (A - u / 4) * B)%R -> False.
Proof.
  intros Hu EA EB EX Hlo Hhi.
  apply (window_pow2 k).
  assert (Huu : (0 < u * u)%R) by nra.
  split; apply le_IZR.
  - rewrite !plus_IZR, !mult_IZR.
    apply Rmult_le_reg_r with (u * u)%R; [assumption|].
    subst A B X. nra.
  - rewrite !mult_IZR, plus_IZR, minus_IZR, !mult_IZR.
    apply Rmult_le_reg_r with (u * u)%R; [assumption|].
    subst A B X. nra.
Qed.

Lemma gapbf_cases (a : spec_float) :
  (fmant a = 2 ^ 52 /\ gapbf a = (ulp a / 2)%R) \/ gapbf a = ulp a.
Proof.
  unfold gapbf, gapb, ulp.
  destruct (Z.eqb_spec (fmant a) (2 ^ 52)) as [E|N]; simpl andb; [|now right].
  destruct (-1074 <? fexpo a); [|now right].
  left. split; [assumption | apply bpow_pred].
Qed.

(** When the step from just below the root goes up, the float it reaches
    is a fixed point of the step. *)
Lemma low_fixpoint (x a : spec_float) :
  pf x -> state_ok x a -> (B2R a * B2R a < B2R x)%R ->
  B2R (newton x a) = B2R (succf a) ->
  B2R (newton x (succf a)) = B2R (succf a).
Proof.
  intros Hx Hst HL Hna. pose proof (low_state x a Hx Hst HL) as LF.
  destruct Hst as [Ha He Hq Hl].
  destruct LF as [He459 Hb Hbe Hbv Hbg Hbu Hhigh Hbig Hoka Hokb].
  set (b := succf a) in *.
  assert (Hu0 : (0 < ulp a)%R) by apply bpow_gt_0.
  assert (H52 : IZR (2 ^ 52) = 4503599627370496%R) by reflexivity.
  pose proof (pf_pos a Ha) as Ha0. pose proof (pf_pos b Hb) as Hb0.
  pose proof (step_down x b Hb Hbe Hokb Hhigh) as Hdown.
  destruct (Rle_lt_or_eq_dec _ _ Hdown) as [Hlt|Heq]; [exfalso|assumption].
  (* the step from b comes down to a *)
  pose proof (pf_gap_below _ b (so_n _ _ Hokb) Hb Hlt) as Hnb1.
  rewrite Hbg in Hnb1.
  pose proof (step_above_low x b Hb Hbe Hokb a Ha ltac:(lia) Hhigh HL) as Hnb2.
  assert (Hnb : B2R (newton x b) = B2R a) by lra.
  rewrite (so_half _ _ Hokb) in Hnb. rewrite (so_half _ _ Hoka) in Hna.
  destruct (dbl_pf a Ha ltac:(lia)) as (Hda & Hdav & _).
  destruct (dbl_pf b Hb Hbe) as (Hdb & Hdbv & _).
  (* the quotients *)
  assert (HQa : (B2R b <= B2R (SFdiv 53 1024 x a))%R).
  { pose proof (rounded_mid_ge _ _ (so_rs _ _ Hoka) (so_s _ _ Hoka) _ Hda) as H.
    rewrite Hdav in H. lra. }
  assert (HQb : (B2R (SFdiv 53 1024 x b) <= B2R a)%R).
  { pose proof (rounded_mid_le _ _ (so_rs _ _ Hokb) (so_s _ _ Hokb) _ Hdb) as H.
    rewrite Hdbv in H. lra. }
  destruct (input_multiple x a Hx Ha ltac:(lia) HL) as [k Hk].
  pose proof (pf_B2R a Ha) as EA. unfold F2R in EA. fold (ulp a) in EA.
  destruct (pf_bounds a Ha) as (_ & _ & Hm52). specialize (Hm52 ltac:(lia)).
  set (A := B2R a) in *. set (B := B2R b) in *. set (u := ulp a) in *.
  set (X := B2R x) in *.
  set (Qa := B2R (SFdiv 53 1024 x a)) in *.
  set (Qb := B2R (SFdiv 53 1024 x b)) in *.
  destruct (Rle_lt_or_eq_dec _ _ HQa) as [HQa'|HQa'];
    destruct (Rle_lt_or_eq_dec _ _ HQb) as [HQb'|HQb'].
  - (* both quotients strictly beyond *)
    pose proof (rounded_mid_ge _ _ (so_rq _ _ Hoka) (so_q _ _ Hoka) b Hb HQa') as H1.
    pose proof (rounded_mid_le _ _ (so_rq _ _ Hokb) (so_q _ _ Hokb) a Ha HQb') as H2.
    apply le_div_inv in H1; [|assumption]. apply div_le_inv in H2; [|assumption].
    fold A B X Qa Qb in H1, H2. nra.
  - (* x / a rounds beyond b, x / b rounds to a *)
    pose proof (pf_gap_above b _ Hb (so_q _ _ Hoka) HQa') as Hg.
    pose proof (rounded_mid_ge _ _ (so_rq _ _ Hoka) (so_q _ _ Hoka) b Hb HQa') as H1.
    assert (HQb'' : (B2R (SFdiv 53 1024 x b) < B2R b)%R) by (fold Qb B; lra).
    pose proof (rounded_mid_le _ _ (so_rq _ _ Hokb) (so_q _ _ Hokb) b Hb HQb'') as H2.
    apply le_div_inv in H1; [|assumption]. apply div_le_inv in H2; [|assumption].
    fold A B X Qa Qb in H1, H2, Hg.
    destruct Hbu as [[Hm Hub]|Hub]; rewrite Hub in Hg; fold u in Hg.
    + apply (window_generic_real (fmant a) k u A B X); auto.
      * nra.
      * rewrite HQb' in H2. exact H2.
    + rewrite HQb' in H2. nra.
  - (* x / a rounds to b, x / b rounds below a *)
    pose proof (pf_gap_below _ a (so_q _ _ Hokb) Ha HQb') as Hg.
    assert (HQa'' : (B2R a < B2R (SFdiv 53 1024 x a))%R) by (fold Qa A; lra).
    pose proof (rounded_mid_ge _ _ (so_rq _ _ Hoka) (so_q _ _ Hoka) a Ha HQa'') as H1.
    pose proof (rounded_mid_le _ _ (so_rq _ _ Hokb) (so_q _ _ Hokb) a Ha HQb') as H2.
    apply le_div_inv in H1; [|assumption]. apply div_le_inv in H2; [|assumption].
    fold A B X Qa Qb in H1, H2, Hg. rewrite <- HQa' in H1.
    destruct (gapbf_cases a) as [[Em Hga]|Hga]; rewrite Hga in Hg; fold u in Hg.
    + apply (window_pow2_real k u A B X); auto.
      * rewrite EA, Em. reflexivity.
      * nra.
    + nra.
  - (* x / a rounds to b and x / b to a: the two sums are one *)
    assert (E1 : SFdiv 53 1024 x a = b).
    { apply pf_eq; [apply (so_q _ _ Hoka) | exact Hb | symmetry; exact HQa']. }
    assert (E2 : SFdiv 53 1024 x b = a).
    { apply pf_eq; [apply (so_q _ _ Hokb) | exact Ha | exact HQb']. }
    rewrite E1 in Hna. rewrite E2 in Hnb.
    rewrite (add_comm_pf b a Hb Ha) in Hnb. fold A B in Hna, Hnb. lra.
Qed.

(** *** The recursion returns *)

(** One call of the recursion. *)
Lemma sqrt_unchecked_step (fuel : nat) (x p : double) :
  audio_utils_sqrt_unchecked (S fuel) x p
  = if SFeqb (newton x p) p then Some (newton x p)
    else audio_utils_sqrt_unchecked fuel x (newton x p).
Proof. reflexivity. Qed.

Lemma terminates_step (x p : double) :
  (SFeqb (newton x p) p = false -> terminates x (newton x p)) ->
  terminates x p.
Proof.
  intros H. destruct (SFeqb (newton x p) p) eqn:E.
  - exists 1%nat, (newton x p). now rewrite sqrt_unchecked_step, E.
  - destruct (H eq_refl) as (fuel & y & Hy).
    exists (S fuel), y. now rewrite sqrt_unchecked_step, E.
Qed.

Lemma idx_lt (f g : spec_float) :
  pf f -> pf g -> (B2R f < B2R g)%R -> 0 <= idx f < idx g.
Proof.
  intros Hf Hg Hlt. unfold idx.
  destruct (pf_bounds f Hf) as (Hfe & Hfm & _).
  destruct (pf_bounds g Hg) as (Hge & Hgm & _).
  assert (Hle : fexpo f <= fexpo g) by (apply pf_le_exp; auto; lra).
  split; [nia|].
  destruct (Z.eq_dec (fexpo f) (fexpo g)) as [E|N].
  - rewrite (pf_B2R f Hf), (pf_B2R g Hg), E in Hlt.
    apply F2R_lt_mant in Hlt. rewrite E. lia.
  - nia.
Qed.

Lemma SFeqb_false_neq (f g : spec_float) :
  pf f -> pf g -> SFeqb f g = false -> B2R f <> B2R g.
Proof.
  intros Hf Hg E Hv. apply (pf_eq f g Hf Hg) in Hv.
  apply (SFeqb_pf f g Hf Hg) in Hv. congruence.
Qed.

(** From just below the root: at most two steps. *)
Lemma terminates_low (x a : spec_float) :
  pf x -> state_ok x a -> (B2R a * B2R a < B2R x)%R -> terminates x a.
Proof.
  intros Hx Hst HL. pose proof (low_state x a Hx Hst HL) as LF.
  pose proof (low_step_le x a Hx Hst HL) as Hle.
  pose proof (low_fixpoint x a Hx Hst HL) as Hfix.
  destruct Hst as [Ha He Hq Hl].
  destruct LF as [He459 Hb Hbe Hbv Hbg Hbu Hhigh Hbig Hoka Hokb].
  apply terminates_step. intros Hne.
  pose proof (SFeqb_false_neq _ _ (so_n _ _ Hoka) Ha Hne) as Hneq.
  assert (Hup : (B2R a <= B2R (newton x a))%R).
  { apply step_up; auto. lra. }
  assert (Hgt : (B2R a < B2R (newton x a))%R) by lra.
  pose proof (succf_le a _ Ha ltac:(lia) (so_n _ _ Hoka) Hgt) as Hge.
  assert (Eb : newton x a = succf a).
  { apply pf_eq; [apply (so_n _ _ Hoka) | exact Hb | lra]. }
  rewrite Eb. apply terminates_step. intros Hne'. exfalso.
  apply (SFeqb_false_neq _ _ (so_n _ _ Hokb) Hb Hne').
  apply Hfix. rewrite Eb. reflexivity.
Qed.

(** From any state that the iteration reaches. *)
Lemma terminates_state (x : spec_float) (n : nat) :
  pf x ->
  forall p, state_ok x p -> (Z.to_nat (idx p) < n)%nat -> terminates x p.
Proof.
  intros Hx. induction n as [|n IH]; intros p Hst Hn; [lia|].
  destruct (Rlt_or_le (B2R p * B2R p) (B2R x)) as [HL|HH].
  - now apply terminates_low.
  - destruct (high_step x p Hx Hst HH) as (Hok & Hst' & Hle).
    apply terminates_step. intros Hne.
    pose proof (SFeqb_false_neq _ _ (so_n _ _ Hok) (st_pf _ _ Hst) Hne) as Hneq.
    apply IH; [assumption|].
    assert (Hlt : (B2R (newton x p) < B2R p)%R) by lra.
    pose proof (idx_lt _ _ (so_n _ _ Hok) (st_pf _ _ Hst) Hlt). lia.
Qed.

Lemma sq_lt_exp (f : spec_float) :
  pf f -> -1074 < fexpo f -> (B2R f * B2R f < bpow 1024)%R -> fexpo f <= 459.
Proof.
  intros Hf He Hsq.
  destruct (Z_le_gt_dec (fexpo f) 459) as [|Hgt]; [assumption|]. exfalso.
  pose proof (pf_normal_big f Hf He) as Hbig.
  assert (bpow 460 <= ulp f)%R by (apply bpow_le; lia).
  assert (bpow 512 <= B2R f)%R.
  { replace (bpow 512) with (IZR (2 ^ 52) * bpow 460)%R
      by (rewrite <- (bpow_IZR 52), <- bpow_plus by lia; reflexivity).
    assert (0 < IZR (2 ^ 52))%R by (apply IZR_lt; reflexivity).
    pose proof (bpow_gt_0 460). nra. }
  pose proof bpow_512_sq. pose proof (bpow_gt_0 512). nra.
Qed.

(** The iteration from 1. *)
Theorem terminates_from_one (x : spec_float) : pf x -> terminates x d_one.
Proof.
  intros Hx.
  assert (H1 : pf d_one) by reflexivity.
  assert (E1 : B2R d_one = 1%R).
  { simpl. unfold F2R. change (Z.pos 4503599627370496) with (2 ^ 52).
    rewrite <- (bpow_IZR 52), <- bpow_plus by lia. reflexivity. }
  pose proof (pf_min x Hx) as Hmin. pose proof (pf_max x Hx) as Hmax.
  pose proof (pf_pos x Hx) as Hx0.
  destruct (Rle_or_lt (B2R x) 1) as [Hle|Hgt].
  - (* 1 is at or above the root *)
    apply (terminates_state x (S (Z.to_nat (idx d_one))) Hx); [|lia].
    constructor; auto.
    + simpl. lia.
    + rewrite E1. lra.
    + intros f Hf Hfn HL. rewrite E1. pose proof (pf_pos f Hf). nra.
  - (* 1 is below the root *)
    assert (H970 : (1 < bpow 970)%R).
    { rewrite <- bpow_0. apply bpow_lt. lia. }
    assert (H971 : bpow 971 = (2 * bpow 970)%R) by (rewrite <- bpow_succ; reflexivity).
    assert (Hok : step_ok x d_one).
    { apply step_pf with (g := x); auto.
      - simpl. lia.
      - rewrite E1. lra.
      - rewrite E1. lra.
      - rewrite E1. lra. }
    apply terminates_step. intros _.
    assert (EQ : SFdiv 53 1024 x d_one = x).
    { apply (rounded_exact _ _ (so_rq _ _ Hok) (so_q _ _ Hok) x Hx).
      rewrite E1. field. }
    pose proof (so_rs _ _ Hok) as Hrs. pose proof (so_s _ _ Hok) as Hs.
    pose proof (so_half _ _ Hok) as Hhalf. pose proof (so_n _ _ Hok) as Hn.
    rewrite EQ, E1 in *.
    set (Sv := B2R (SFadd 53 1024 d_one x)) in *.
    assert (Hlow : above_low x (newton x d_one)).
    { intros f Hf Hfn HL. rewrite Hhalf.
      assert (Hfe : fexpo f <= 459).
      { apply sq_lt_exp; auto. pose proof (bpow_gt_0 971). lra. }
      destruct (dbl_pf f Hf ltac:(lia)) as (Hd & Hdv & _).
      pose proof (rounded_ge _ _ Hrs Hs _ Hd) as H. rewrite Hdv in H.
      fold Sv in H. pose proof (pf_pos f Hf). nra. }
    pose proof (pf_max _ Hs) as HSmax. fold Sv in HSmax.
    assert (HN : (B2R (newton x d_one) < bpow 1023)%R).
    { rewrite Hhalf.
      replace (bpow 1024) with (2 * bpow 1023)%R in HSmax
        by (rewrite <- bpow_succ; reflexivity).
      pose proof (bpow_gt_0 971). lra. }
    apply (terminates_state x (S (Z.to_nat (idx (newton x d_one)))) Hx); [|lia].
    constructor; auto.
    + split; [now apply (above_low_normal x)|].
      destruct (Z_le_gt_dec (fexpo (newton x d_one)) 970) as [|Hbig]; [assumption|].
      exfalso.
      pose proof (pf_normal_big _ Hn ltac:(lia)) as Hb.
      assert (bpow 971 <= ulp (newton x d_one))%R by (apply bpow_le; lia).
      assert (bpow 1023 = IZR (2 ^ 52) * bpow 971)%R
        by (rewrite <- (bpow_IZR 52), <- bpow_plus by lia; reflexivity).
      assert (0 < IZR (2 ^ 52))%R by (apply IZR_lt; reflexivity).
      pose proof (bpow_gt_0 971). nra.
    + assert (bpow (-1074) * bpow 1023 <= 1)%R.
      { rewrite <- bpow_plus, <- bpow_0. apply bpow_le. lia. }
      pose proof (bpow_gt_0 (-1074)). pose proof (pf_pos _ Hn). nra.
Qed.

End Termination.

(** A result of the recursion is the outcome [next] of a step from some
    [prev] for which [next == prev] holds. *)
Lemma sqrt_unchecked_stops {D : Type} `{Arith D} (fuel : nat) :
  forall x prev y : D,
    audio_utils_sqrt_unchecked fuel x prev = Some y ->
    exists p : D, y = (half * (p + x / p))%A /\ (y =? p)%A = true.
Proof.
  induction fuel as [|n IH]; intros x prev y; simpl; [discriminate|].
  destruct (eqb _ prev) eqn:E.
  - intros [= <-]. exists prev. split; trivial.
  - apply IH.
Qed.

(** C9.  For every finite strictly positive [double] [x],
    [audio_utils_sqrt(x)] returns: the iteration
    [next = 0.5 * (prev + x / prev)] from [prev = 1], every operation rounded
    to nearest in binary64, reaches after finitely many calls a value [next]
    with [next == prev], and this value is the result.  ([fuel] calls are
    enough, and more calls allowed do not change the result.) *)
Theorem C9_sqrt_terminates (m : positive) (e : Z) :
  bounded prec emax m e = true ->
  exists (fuel : nat) (prev y : double),
    (forall k : nat,
        audio_utils_sqrt (fuel + k) (S754_finite false m e) = Some y)
    /\ y = (half * (prev + S754_finite false m e / prev))%A
    /\ (y =? prev)%A = true.
Proof.
  intros Hb.
  destruct (terminates_from_one (S754_finite false m e) Hb) as (fuel & y & Hy).
  destruct (sqrt_unchecked_stops _ _ _ Hy) as (p & Hp & Hs).
  exists fuel, p, y. split; [|split; assumption].
  intros k. apply (sqrt_unchecked_more_fuel (D := double) fuel _ _ k Hy).
Qed.

Lemma C9_witness :
  bounded prec emax 4503599627370496 (-51) = true
  /\ exists (fuel : nat) (prev y : double),
       (forall k : nat, audio_utils_sqrt (fuel + k) d_two = Some y)
       /\ y = (half * (prev + d_two / prev))%A
       /\ (y =? prev)%A = true.
Proof.
  split; [reflexivity|].
  apply (C9_sqrt_terminates 4503599627370496 (-51)). reflexivity.
Defined.
(** * Further properties *)

(** ** Not-a-Number in the operations of binary64 *)

Lemma SFadd_nan_r (x : double) : SFadd prec emax x S754_nan = S754_nan.
Proof. destruct x; reflexivity. Qed.

Lemma SFsub_nan_r (x : double) : SFsub prec emax x S754_nan = S754_nan.
Proof. destruct x; reflexivity. Qed.

Lemma SFmul_nan_r (x : double) : SFmul prec emax x S754_nan = S754_nan.
Proof. destruct x; reflexivity. Qed.

Lemma SFdiv_nan_r (x : double) : SFdiv prec emax x S754_nan = S754_nan.
Proof. destruct x; reflexivity. Qed.

Lemma SFeqb_nan_r (x : double) : SFeqb x S754_nan = false.
Proof. destruct x; reflexivity. Qed.

(** ** The unchecked square root outside its domain *)

(** From Not-a-Number every [next] is Not-a-Number, which is equal to
    nothing. *)
Lemma sqrt_unchecked_nan_prev (fuel : nat) (x : double) :
  audio_utils_sqrt_unchecked fuel x S754_nan = None.
Proof.
  induction fuel as [|n IH]; [reflexivity|].
  cbn [audio_utils_sqrt_unchecked half add div mul eqb double_Arith].
  rewrite SFdiv_nan_r. exact IH.
Qed.

Lemma sqrt_unchecked_nan_x (fuel : nat) (prev : double) :
  audio_utils_sqrt_unchecked fuel S754_nan prev = None.
Proof.
  destruct fuel as [|n]; [reflexivity|].
  cbn [audio_utils_sqrt_unchecked half add div mul eqb double_Arith].
  change (SFdiv prec emax S754_nan prev) with S754_nan.
  rewrite SFadd_nan_r. apply sqrt_unchecked_nan_prev.
Qed.

(** The calls that do not return can be skipped. *)
Lemma sqrt_unchecked_skip {D : Type} `{Arith D} (k : nat) :
  forall (x prev p : D) (n : nat),
    sqrt_unchecked_prev k x prev = Some p ->
    audio_utils_sqrt_unchecked (k + n) x prev
    = audio_utils_sqrt_unchecked n x p.
Proof.
  induction k as [|k IH]; intros x prev p n; simpl.
  - now intros [= ->].
  - destruct (eqb _ prev); [discriminate | apply IH].
Qed.

(** From 1 the iteration for zero halves [prev] down to zero, and the
    iteration for infinity goes to infinity; the next quotient is
    Not-a-Number. *)
Lemma sqrt_unchecked_zero_steps (s : bool) :
  sqrt_unchecked_prev 1076 (S754_zero s) d_one = Some S754_nan.
Proof. destruct s; vm_compute; reflexivity. Qed.

Lemma sqrt_unchecked_infinity_steps :
  sqrt_unchecked_prev 2 d_infinity d_one = Some S754_nan.
Proof. reflexivity. Qed.

Lemma sqrt_unchecked_none_later (k fuel : nat) (x prev : double) :
  audio_utils_sqrt_unchecked (k + fuel) x prev = None ->
  audio_utils_sqrt_unchecked fuel x prev = None.
Proof.
  intros Hk. destruct (audio_utils_sqrt_unchecked fuel x prev) as [y|] eqn:E;
    [|reflexivity].
  apply (sqrt_unchecked_more_fuel (D := double) fuel _ _ k) in E.
  rewrite Nat.add_comm in E. congruence.
Qed.

(** X1.  The recursion of [audio_utils_sqrt_unchecked] does not end, however
    many calls are allowed: when [x] or [prev] is Not-a-Number, and from
    [prev = 1] when [x] is a zero or positive infinity.  These are the inputs
    that [audio_utils_sqrt] returns without iterating. *)
Theorem sqrt_unchecked_never_returns (fuel : nat) (x prev : double) :
  is_nan x = true \/ is_nan prev = true
  \/ (prev = d_one /\ (x = S754_zero false \/ x = S754_zero true
                      \/ x = d_infinity)) ->
  audio_utils_sqrt_unchecked fuel x prev = None.
Proof.
  intros [Hx|[Hp|[-> Hx]]].
  - apply is_nan_true in Hx. subst x. apply sqrt_unchecked_nan_x.
  - apply is_nan_true in Hp. subst prev. apply sqrt_unchecked_nan_prev.
  - destruct Hx as [-> | [-> | ->]].
    + apply (sqrt_unchecked_none_later 1076).
      rewrite (sqrt_unchecked_skip (D := double) 1076 _ _ fuel (sqrt_unchecked_zero_steps false)).
      apply sqrt_unchecked_nan_prev.
    + apply (sqrt_unchecked_none_later 1076).
      rewrite (sqrt_unchecked_skip (D := double) 1076 _ _ fuel (sqrt_unchecked_zero_steps true)).
      apply sqrt_unchecked_nan_prev.
    + apply (sqrt_unchecked_none_later 2).
      rewrite (sqrt_unchecked_skip (D := double) 2 _ _ fuel sqrt_unchecked_infinity_steps).
      apply sqrt_unchecked_nan_prev.
Qed.

Lemma sqrt_unchecked_never_returns_witness :
  audio_utils_sqrt_unchecked 5 d_zero d_one = None.
Proof.
  apply sqrt_unchecked_never_returns. right. right. split; [reflexivity|].
  left. reflexivity.
Defined.

(** ** Infinite sums in the compensated sums *)

Lemma SFsub_infinity_twice (s y : double) (b : bool) :
  let c := SFsub prec emax (SFsub prec emax (S754_infinity b) s) y in
  c = S754_nan \/ c = S754_infinity b.
Proof.
  destruct s as [[]|[]| |[] ms es], y as [[]|[]| |[] my ey], b;
    first [left; reflexivity | right; reflexivity].
Qed.

Lemma SFsub_infinity_r (x c : double) (b : bool) :
  c = S754_nan \/ c = S754_infinity b ->
  SFadd prec emax (S754_infinity b) (SFsub prec emax x c) = S754_nan.
Proof.
  intros [->| ->]; [now rewrite SFsub_nan_r|].
  destruct x as [[]|[]| |[] mx ex], b; reflexivity.
Qed.

(** X2.  A [KahanSum] does not keep an infinite sum: when [operator+=] leaves an
    infinity in [mSum], it leaves Not-a-Number or that infinity in
    [mCorrection], and the next [operator+=], whatever its argument, leaves
    Not-a-Number in both. *)
Theorem KahanSum_infinity_then_nan (k : KahanSum double) (rhs x : double)
                                   (b : bool) :
  mSum (KahanSum_add k rhs) = S754_infinity b ->
  KahanSum_add (KahanSum_add k rhs) x = mkKahanSum S754_nan S754_nan.
Proof.
  destruct k as [s c]. unfold KahanSum_add.
  cbn [mSum mCorrection sub add double_Arith].
  set (y := SFsub prec emax rhs c). intros Et. rewrite Et.
  rewrite (SFsub_infinity_r x (SFsub_infinity_twice s y b)). reflexivity.
Qed.

Lemma KahanSum_infinity_then_nan_witness :
  KahanSum_add (KahanSum_add KahanSum_init d_infinity) d_one
  = mkKahanSum S754_nan S754_nan.
Proof.
  apply (KahanSum_infinity_then_nan KahanSum_init d_infinity d_one
                                    (b := false)).
  reflexivity.
Defined.

Lemma SFsub_infinity_add (s r : double) (b : bool) :
  let z := SFadd prec emax (SFsub prec emax s (S754_infinity b)) r in
  z = S754_nan \/ z = S754_infinity (negb b).
Proof.
  destruct s as [[]|[]| |[] ms es], r as [[]|[]| |[] mr er], b;
    first [left; reflexivity | right; reflexivity].
Qed.

Lemma SFadd_infinity_opposite (c z : double) (b : bool) :
  z = S754_nan \/ z = S754_infinity (negb b) ->
  SFadd prec emax (S754_infinity b) (SFadd prec emax c z) = S754_nan.
Proof.
  intros [->| ->]; [now rewrite SFadd_nan_r|].
  destruct c as [[]|[]| |[] mc ec], b; reflexivity.
Qed.

(** X3.  A [NeumaierSum] does not report an infinite sum: when [operator+=]
    leaves an infinity in [mSum], the value [mSum + mCorrection] is
    Not-a-Number. *)
Theorem NeumaierSum_infinity_is_nan (k : NeumaierSum double) (rhs : double)
                                    (b : bool) :
  nSum (NeumaierSum_add k rhs) = S754_infinity b ->
  NeumaierSum_value (NeumaierSum_add k rhs) = S754_nan.
Proof.
  destruct k as [s c]. unfold NeumaierSum_value, NeumaierSum_add.
  cbn [nSum nCorrection sub add double_Arith]. intros Et. rewrite Et.
  destruct (geb _ _); apply SFadd_infinity_opposite, SFsub_infinity_add.
Qed.

Lemma NeumaierSum_infinity_is_nan_witness :
  NeumaierSum_value (NeumaierSum_add NeumaierSum_init d_infinity) = S754_nan.
Proof.
  apply (NeumaierSum_infinity_is_nan NeumaierSum_init d_infinity (b := false)).
  reflexivity.
Defined.

(** ** A Not-a-Number sample in the mean and the variance *)

Lemma Statistics_add_nan_mean (v : double) (s : Statistics double) :
  v = S754_nan \/ mSum (mMean s) = S754_nan ->
  mSum (mMean (Statistics_add v s)) = S754_nan
  /\ mM2 (Statistics_add v s) = S754_nan.
Proof.
  intros Hv.
  assert (Hd : SFsub prec emax v (mSum (mMean s)) = S754_nan).
  { destruct Hv as [->| ->]; [reflexivity | apply SFsub_nan_r]. }
  unfold Statistics_add, KahanSum_add, KahanSum_value.
  cbn [mSum mCorrection mMean mM2 sub add mul div double_Arith].
  rewrite Hd. cbn [SFdiv SFsub SFmul]. rewrite !SFadd_nan_r. now split.
Qed.

Lemma run_nan_mean (t : list (call double)) :
  forall s : Statistics double,
    no_reset t = true ->
    mSum (mMean s) = S754_nan -> mM2 s = S754_nan ->
    mSum (mMean (run t s)) = S754_nan /\ mM2 (run t s) = S754_nan.
Proof.
  induction t as [|[v|a|] t IH]; intros s Hnr Hm H2; simpl in *;
    [now split | | | discriminate].
  - destruct (Statistics_add_nan_mean (v := v) s (or_intror Hm))
      as [Hm' H2'].
    now apply IH.
  - now apply IH.
Qed.

(** X4.  After [add] of a Not-a-Number, and until the next [reset()], the mean
    is Not-a-Number, and so are the two variances once they are defined;
    whatever the state before, the later samples and the alphas. *)
Theorem nan_sample_poisons (t1 t2 : list (call double))
                           (s0 : Statistics double) :
  no_reset t2 = true ->
  let s := run (t1 ++ Add S754_nan :: t2) s0 in
  getMean s = S754_nan
  /\ ((mN s <? 1)%Z = false -> getPopVariance s = S754_nan)
  /\ ((mN s <? 2)%Z = false -> getVariance s = S754_nan).
Proof.
  intros Hnr s. subst s.
  replace (run (t1 ++ Add S754_nan :: t2) s0)
    with (run t2 (Statistics_add (D := double) S754_nan (run t1 s0)))
    by (unfold run; now rewrite fold_left_app).
  destruct (Statistics_add_nan_mean (v := S754_nan) (run t1 s0)
                                    (or_introl eq_refl)) as [Hm H2].
  destruct (run_nan_mean t2 _ Hnr Hm H2) as [Hm' H2'].
  split; [exact Hm'|].
  unfold getPopVariance, getVariance.
  split; intros ->; rewrite H2'; reflexivity.
Qed.

Lemma nan_sample_poisons_witness :
  let s := run ([Add d_one] ++ Add S754_nan :: [Add d_two])
               (Statistics_new d_one) in
  getMean s = S754_nan
  /\ ((mN s <? 1)%Z = false -> getPopVariance s = S754_nan)
  /\ ((mN s <? 2)%Z = false -> getVariance s = S754_nan).
Proof.
  exact (nan_sample_poisons [Add d_one] [Add d_two] (Statistics_new d_one)
                            eq_refl).
Defined.

(** The reference engine computes from the stored samples. *)
Lemma getMean_loop_nan (data alist : list double) :
  forall alpha_i, getMean_loop data alist S754_nan alpha_i = S754_nan.
Proof.
  revert alist. induction data as [|x data IH]; intros [|a alist] alpha_i;
    try reflexivity.
  cbn [getMean_loop add double_Arith]. change (SFadd prec emax S754_nan _)
    with S754_nan. apply IH.
Qed.

Lemma getMean_loop_nan_sample (data alist : list double) :
  forall wsum alpha_i,
    length alist = length data -> In S754_nan data ->
    getMean_loop data alist wsum alpha_i = S754_nan.
Proof.
  revert alist. induction data as [|x data IH]; intros [|a alist] wsum alpha_i;
    simpl; try discriminate; try contradiction.
  intros [= Hl] [->|Hin].
  - rewrite SFmul_nan_r, SFadd_nan_r. apply getMean_loop_nan.
  - now apply IH.
Qed.

Lemma getUnweightedVariance_loop_nan (data alist : list double) :
  forall alpha_i,
    getUnweightedVariance_loop S754_nan data alist S754_nan alpha_i
    = S754_nan.
Proof.
  revert alist. induction data as [|x data IH]; intros [|a alist] alpha_i;
    try reflexivity.
  cbn [getUnweightedVariance_loop add double_Arith].
  change (SFadd prec emax S754_nan _) with S754_nan. apply IH.
Qed.

Lemma Reference_run_lengths (t : list (call double)) :
  forall r : ReferenceStatistics double,
    length (mAlphaList r) = length (mData r) ->
    length (mAlphaList (Reference_run t r))
    = length (mData (Reference_run t r)).
Proof.
  induction t as [|[v|a|] t IH]; intros r Hl; simpl; [assumption| | |];
    apply IH; simpl; auto.
  unfold Reference_add.
  destruct (if (Reference_getN r =? 0)%Z then _ else _) as [mn mx].
  simpl. now f_equal.
Qed.

Lemma Reference_run_keeps (t : list (call double)) (x : double) :
  forall r : ReferenceStatistics double,
    no_reset t = true -> In x (mData r) -> In x (mData (Reference_run t r)).
Proof.
  induction t as [|[v|a|] t IH]; intros r Hnr Hin; simpl in *;
    [assumption | | | discriminate]; apply IH; auto.
  unfold Reference_add.
  destruct (if (Reference_getN r =? 0)%Z then _ else _) as [mn mx].
  simpl. now right.
Qed.

(** X5.  Once a Not-a-Number sample is stored in the reference engine, that is
    added since the last [reset()], the mean and the two variances are
    Not-a-Number. *)
Theorem Reference_nan_sample_poisons (t1 t2 : list (call double))
                                     (alpha : double) :
  no_reset t2 = true ->
  let r := Reference_run (t1 ++ Add S754_nan :: t2) (Reference_new alpha) in
  Reference_getMean r = S754_nan
  /\ Reference_getPopVariance r = S754_nan
  /\ Reference_getVariance r = S754_nan.
Proof.
  intros Hnr r.
  assert (Hl : length (mAlphaList r) = length (mData r)).
  { apply Reference_run_lengths. reflexivity. }
  assert (Hin : In S754_nan (mData r)).
  { unfold r, Reference_run. rewrite fold_left_app. simpl.
    apply (Reference_run_keeps t2 S754_nan); [assumption|].
    unfold Reference_add.
    destruct (if (Reference_getN _ =? 0)%Z then _ else _) as [mn mx].
    simpl. now left. }
  assert (Hm : Reference_getMean r = S754_nan).
  { unfold Reference_getMean. now rewrite getMean_loop_nan_sample. }
  assert (Hu : getUnweightedVariance r = S754_nan).
  { unfold getUnweightedVariance. rewrite Hm.
    destruct (mData r) as [|x data]; [contradiction|].
    destruct (mAlphaList r) as [|a alist]; [discriminate|].
    cbn [getUnweightedVariance_loop sub add mul double_Arith].
    rewrite SFsub_nan_r, SFmul_nan_r, SFadd_nan_r.
    apply getUnweightedVariance_loop_nan. }
  unfold Reference_getPopVariance, Reference_getVariance. rewrite Hu.
  repeat split; assumption.
Qed.

Lemma Reference_nan_sample_poisons_witness :
  let r := Reference_run ([Add d_one] ++ Add S754_nan :: [Add d_two])
                         (Reference_new d_one) in
  Reference_getMean r = S754_nan
  /\ Reference_getPopVariance r = S754_nan
  /\ Reference_getVariance r = S754_nan.
Proof.
  exact (Reference_nan_sample_poisons [Add d_one] [Add d_two] d_one eq_refl).
Defined.

(** ** The reductions [audio_utils_max] and [audio_utils_min] *)

(** X6.  [audio_utils_max] of binary64 values: negative infinity when no element
    is a number (so for no element at all), otherwise a greatest of the
    elements that are numbers; Not-a-Number is never the result.  Likewise
    [audio_utils_min], with positive infinity. *)
Theorem audio_utils_max_min_spec (l : list double) :
  is_nan (audio_utils_max l) = false
  /\ is_nan (audio_utils_min l) = false
  /\ (numbers l = [] ->
      audio_utils_max l = S754_infinity true
      /\ audio_utils_min l = S754_infinity false)
  /\ (numbers l <> [] ->
      is_max_of (audio_utils_max l) (numbers l)
      /\ is_min_of (audio_utils_min l) (numbers l)).
Proof.
  unfold audio_utils_max, audio_utils_min.
  rewrite (fold_min_numbers l), (fold_max_numbers l).
  pose proof (numbers_not_nan l) as Hnum.
  assert (Hp : is_nan (@mPositiveInfinity double _) = false) by reflexivity.
  assert (Hm : is_nan (@mNegativeInfinity double _) = false) by reflexivity.
  destruct (fold_min_spec Hnum _ Hp) as (Hmin_nan & Hmin_or & _ & Hmin_all).
  destruct (fold_max_spec Hnum _ Hm) as (Hmax_nan & Hmax_or & _ & Hmax_all).
  clear Hp Hm.
  split; [assumption|]. split; [assumption|]. split.
  - intros ->. split; reflexivity.
  - intros Hne. destruct (numbers l) as [|x nl] eqn:En; [congruence|].
    split; (split; [|assumption]).
    + destruct Hmax_or as [E|Hin]; [|assumption].
      rewrite E in Hmax_all |- *. inversion Hmax_all; subst.
      left. now apply SFleb_ninf.
    + destruct Hmin_or as [E|Hin]; [|assumption].
      rewrite E in Hmin_all |- *. inversion Hmin_all; subst.
      left. now apply SFleb_pinf.
Qed.

(** ** The result of the square root *)

Section Accuracy.
Local Open Scope Z_scope.
Local Unset Implicit Arguments.

(** What rounding to nearest says of a finite positive result. *)
Lemma rounded_err (y : R) (f : double) :
  rounds_to y f -> pf f ->
  (y - B2R f <= ulp f / 2)%R /\ (B2R f - y <= gapbf f / 2)%R.
Proof.
  intros Hr Hf. destruct (pf_inv f Hf) as (m & e & -> & _).
  unfold rounds_to in Hr. destruct Hr as (_ & H1 & H2).
  split; assumption.
Qed.

(** Every step keeps the state. *)
Lemma state_step (x p : double) :
  pf x -> state_ok x p -> state_ok x (newton x p).
Proof.
  intros Hx Hst.
  destruct (Rlt_or_le (B2R p * B2R p) (B2R x)) as [HL|HH];
    [|apply (high_step x p Hx Hst HH)].
  pose proof (low_state x p Hx Hst HL) as LF.
  pose proof (low_step_le x p Hx Hst HL) as Hle.
  pose proof Hst as [Ha He Hq Hl].
  destruct LF as [He459 Hb Hbe Hbv Hbg Hbu Hhigh Hbig Hoka Hokb].
  assert (Hup : (B2R p <= B2R (newton x p))%R).
  { apply step_up; auto. lra. }
  destruct (Req_dec (B2R (newton x p)) (B2R p)) as [E|N].
  - rewrite (pf_eq _ _ (so_n _ _ Hoka) Ha E). exact Hst.
  - assert (Hgt : (B2R p < B2R (newton x p))%R) by lra.
    pose proof (succf_le p _ Ha ltac:(lia) (so_n _ _ Hoka) Hgt) as Hge.
    assert (Eb : newton x p = succf p).
    { apply pf_eq; [apply (so_n _ _ Hoka) | exact Hb | lra]. }
    rewrite Eb. constructor; [exact Hb | exact Hbe | |].
    + rewrite Hbv. pose proof (pf_pos p Ha) as Hp0.
      assert (Hu : (bpow (-1073) <= ulp p)%R) by (apply bpow_le; lia).
      assert (H52 : (1 <= IZR (2 ^ 52))%R) by (apply IZR_le; lia).
      assert (H1073 : bpow (-1073) = (2 * bpow (-1074))%R)
        by (rewrite <- bpow_succ; reflexivity).
      pose proof (bpow_gt_0 (-1074)). nra.
    + intros f Hf Hfn HLf. rewrite Hbv.
      pose proof (Hl f Hf Hfn HLf). pose proof (bpow_gt_0 (fexpo p)).
      unfold ulp. lra.
Qed.

(** The state after the first step, or before it. *)
Lemma first_state (x : double) :
  pf x ->
  ((B2R x <= 1)%R /\ state_ok x d_one)
  \/ ((1 < B2R x)%R /\ state_ok x (newton x d_one)).
Proof.
  intros Hx.
  assert (H1 : pf d_one) by reflexivity.
  assert (E1 : B2R d_one = 1%R).
  { simpl. unfold F2R. change (Z.pos 4503599627370496) with (2 ^ 52).
    rewrite <- (bpow_IZR 52), <- bpow_plus by lia. reflexivity. }
  pose proof (pf_min x Hx) as Hmin. pose proof (pf_max x Hx) as Hmax.
  pose proof (pf_pos x Hx) as Hx0.
  destruct (Rle_or_lt (B2R x) 1) as [Hle|Hgt]; [left|right];
    (split; [assumption|]).
  - constructor; auto.
    + simpl. lia.
    + rewrite E1. lra.
    + intros f Hf Hfn HL. rewrite E1. pose proof (pf_pos f Hf). nra.
  - assert (H970 : (1 < bpow 970)%R).
    { rewrite <- bpow_0. apply bpow_lt. lia. }
    assert (H971 : bpow 971 = (2 * bpow 970)%R)
      by (rewrite <- bpow_succ; reflexivity).
    assert (Hok : step_ok x d_one).
    { apply step_pf with (g := x); auto.
      - simpl. lia.
      - rewrite E1. lra.
      - rewrite E1. lra.
      - rewrite E1. lra. }
    assert (EQ : SFdiv 53 1024 x d_one = x).
    { apply (rounded_exact _ _ (so_rq _ _ Hok) (so_q _ _ Hok) x Hx).
      rewrite E1. field. }
    pose proof (so_rs _ _ Hok) as Hrs. pose proof (so_s _ _ Hok) as Hs.
    pose proof (so_half _ _ Hok) as Hhalf. pose proof (so_n _ _ Hok) as Hn.
    rewrite EQ, E1 in *.
    set (Sv := B2R (SFadd 53 1024 d_one x)) in *.
    assert (Hlow : above_low x (newton x d_one)).
    { intros f Hf Hfn HL. rewrite Hhalf.
      assert (Hfe : fexpo f <= 459).
      { apply sq_lt_exp; auto. pose proof (bpow_gt_0 971). lra. }
      destruct (dbl_pf f Hf ltac:(lia)) as (Hd & Hdv & _).
      pose proof (rounded_ge _ _ Hrs Hs _ Hd) as H. rewrite Hdv in H.
      fold Sv in H. pose proof (pf_pos f Hf). nra. }
    pose proof (pf_max _ Hs) as HSmax. fold Sv in HSmax.
    assert (HN : (B2R (newton x d_one) < bpow 1023)%R).
    { rewrite Hhalf.
      replace (bpow 1024) with (2 * bpow 1023)%R in HSmax
        by (rewrite <- bpow_succ; reflexivity).
      pose proof (bpow_gt_0 971). lra. }
    constructor; auto.
    + split; [now apply (above_low_normal x)|].
      destruct (Z_le_gt_dec (fexpo (newton x d_one)) 970) as [|Hbig];
        [assumption|].
      exfalso.
      pose proof (pf_normal_big _ Hn ltac:(lia)) as Hb.
      assert (bpow 971 <= ulp (newton x d_one))%R by (apply bpow_le; lia).
      assert (bpow 1023 = IZR (2 ^ 52) * bpow 971)%R
        by (rewrite <- (bpow_IZR 52), <- bpow_plus by lia; reflexivity).
      assert (0 < IZR (2 ^ 52))%R by (apply IZR_lt; reflexivity).
      pose proof (bpow_gt_0 971). nra.
    + assert (bpow (-1074) * bpow 1023 <= 1)%R.
      { rewrite <- bpow_plus, <- bpow_0. apply bpow_le. lia. }
      pose proof (bpow_gt_0 (-1074)). pose proof (pf_pos _ Hn). nra.
Qed.

(** What the recursion returns from a state is a state that a step does
    not change. *)
Lemma sqrt_unchecked_state (x : double) (fuel : nat) :
  pf x ->
  forall p y : double,
    state_ok x p -> audio_utils_sqrt_unchecked fuel x p = Some y ->
    state_ok x y /\ newton x y = y.
Proof.
  intros Hx. induction fuel as [|n IH]; intros p y Hst; [discriminate|].
  rewrite sqrt_unchecked_step.
  pose proof (state_step x p Hx Hst) as Hst'.
  destruct (SFeqb (newton x p) p) eqn:E.
  - intros [= <-].
    apply (SFeqb_pf _ _ (st_pf _ _ Hst') (st_pf _ _ Hst)) in E.
    rewrite E. split; assumption.
  - apply IH. assumption.
Qed.

Lemma sqrt_state (x : double) (fuel : nat) (y : double) :
  pf x -> audio_utils_sqrt fuel x = Some y ->
  state_ok x y /\ newton x y = y.
Proof.
  intros Hx. destruct (pf_inv x Hx) as (m & e & Ex & _). subst x.
  change (audio_utils_sqrt fuel (S754_finite false m e))
    with (audio_utils_sqrt_unchecked fuel (S754_finite false m e) d_one).
  set (x := S754_finite false m e) in *.
  destruct (first_state x Hx) as [[_ Hst]|[_ Hst]].
  - apply sqrt_unchecked_state; assumption.
  - destruct fuel as [|n]; [discriminate|]. rewrite sqrt_unchecked_step.
    destruct (SFeqb (newton x d_one) d_one) eqn:E.
    + intros [= <-].
      apply (SFeqb_pf _ _ (st_pf _ _ Hst) (eq_refl : pf d_one)) in E.
      rewrite E in Hst |- *. split; assumption.
    + apply sqrt_unchecked_state; assumption.
Qed.

(** A state that a step does not change is within one unit in the last place
    of the root. *)
Lemma fixpoint_near_root (x y : double) :
  pf x -> state_ok x y -> newton x y = y ->
  (0 <= B2R y - ulp y)%R
  /\ ((B2R y - ulp y) * (B2R y - ulp y) <= B2R x)%R
  /\ (B2R x <= (B2R y + ulp y) * (B2R y + ulp y))%R.
Proof.
  intros Hx Hst Hfix. pose proof Hst as [Hy He Hq Hl].
  pose proof (pf_pos y Hy) as Hy0. pose proof (pf_pos x Hx) as Hx0.
  pose proof (pf_normal_big y Hy ltac:(lia)) as Hbig.
  assert (Hu0 : (0 < ulp y)%R) by apply bpow_gt_0.
  assert (H52 : (2 <= IZR (2 ^ 52))%R) by (apply IZR_le; lia).
  split; [nra|].
  destruct (Rlt_or_le (B2R y * B2R y) (B2R x)) as [HL|HH].
  - (* below the root: the next float is at or above it *)
    pose proof (low_state x y Hx Hst HL) as LF.
    rewrite <- (lf_bv _ _ LF). split; [nra | apply (lf_high _ _ LF)].
  - (* at or above the root *)
    destruct (high_step x y Hx Hst HH) as (Hok & _ & _).
    split; [|nra].
    pose proof (so_half _ _ Hok) as Hhalf. rewrite Hfix in Hhalf.
    set (q := SFdiv 53 1024 x y) in *.
    set (s := SFadd 53 1024 y q) in *.
    pose proof (so_q _ _ Hok) as Hqpf. pose proof (so_s _ _ Hok) as Hspf.
    fold q in Hqpf. fold q s in Hspf.
    destruct (dbl_pf y Hy He) as (Hd & Hdv & Hde).
    assert (Es : s = dbl y) by (apply pf_eq; auto; lra).
    (* the quotient is at least the float before y *)
    destruct (rounded_err _ _ (so_rs _ _ Hok) Hspf) as [_ Hs2].
    fold q s in Hs2.
    assert (Hgs : (gapbf s <= 2 * ulp y)%R).
    { rewrite Es. unfold gapbf, ulp. rewrite Hde, <- bpow_succ.
      apply gapb_le. }
    assert (HQ : (B2R y - ulp y <= B2R q)%R) by lra.
    (* and it is near x / y *)
    destruct (rounded_err _ _ (so_rq _ _ Hok) Hqpf) as [_ Hq2].
    fold q in Hq2.
    assert (HQy : (B2R q <= B2R y)%R).
    { apply (rounded_le _ _ (so_rq _ _ Hok) Hqpf y Hy).
      apply div_le; assumption. }
    assert (Hgq : (gapbf q <= ulp y)%R).
    { apply Rle_trans with (ulp q); [apply gapb_le|].
      apply bpow_le. apply pf_le_exp; assumption. }
    assert (Hxy : (B2R y - 3 / 2 * ulp y <= B2R x / B2R y)%R) by lra.
    apply le_div_inv in Hxy; [|assumption]. nra.
Qed.

(** X7.  For every finite strictly positive [x], what [audio_utils_sqrt(x)]
    returns is a normal positive number [y] within one unit in its last place
    of the square root of [x]: [x] lies between the squares of [y - ulp y]
    and [y + ulp y]. *)
Theorem sqrt_within_one_ulp (m : positive) (e : Z) (fuel : nat) (y : double) :
  bounded prec emax m e = true ->
  audio_utils_sqrt fuel (S754_finite false m e) = Some y ->
  pf y /\ -1074 < fexpo y
  /\ ((B2R y - ulp y) ^ 2 <= B2R (S754_finite false m e)
      <= (B2R y + ulp y) ^ 2)%R
  /\ (Rabs (B2R y - sqrt (B2R (S754_finite false m e))) <= ulp y)%R.
Proof.
  intros Hb Hy. set (x := S754_finite false m e) in *.
  assert (Hx : pf x) by exact Hb.
  destruct (sqrt_state x fuel y Hx Hy) as [Hst Hfix].
  destruct (fixpoint_near_root x y Hx Hst Hfix) as (H0 & Hlo & Hhi).
  pose proof (st_exp _ _ Hst) as He.
  assert (Hu0 : (0 < ulp y)%R) by apply bpow_gt_0.
  split; [apply (st_pf _ _ Hst)|]. split; [lia|]. split.
  { assert (P2 : forall r : R, (r ^ 2 = r * r)%R) by (intros r; ring).
    rewrite !P2. split; assumption. }
  assert (H1 : (B2R y - ulp y <= sqrt (B2R x))%R).
  { rewrite <- (sqrt_square (B2R y - ulp y)) by assumption.
    apply sqrt_le_1_alt. assumption. }
  assert (H2 : (sqrt (B2R x) <= B2R y + ulp y)%R).
  { rewrite <- (sqrt_square (B2R y + ulp y)) by lra.
    apply sqrt_le_1_alt. assumption. }
  apply Rabs_le. lra.
Qed.

Lemma sqrt_within_one_ulp_witness :
  pf d_two /\ -1074 < fexpo d_two
  /\ ((B2R d_two - ulp d_two) ^ 2
      <= B2R (S754_finite false 4503599627370496 (-50))
      <= (B2R d_two + ulp d_two) ^ 2)%R
  /\ (Rabs (B2R d_two - sqrt (B2R (S754_finite false 4503599627370496 (-50))))
      <= ulp d_two)%R.
Proof.
  exact (sqrt_within_one_ulp 4503599627370496 (-50) 7 d_two eq_refl eq_refl).
Defined.


(** The gap below the double of a normal float. *)
Lemma gapbf_dbl (f : double) :
  pf f -> -1074 < fexpo f -> gapbf (dbl f) = (2 * gapbf f)%R.
Proof.
  intros Hf He. destruct (pf_inv f Hf) as (m & e & -> & _).
  unfold gapbf, gapb. cbn [dbl fmant fexpo] in *.
  replace (-1074 <? e + 1) with true by (symmetry; apply Z.ltb_lt; lia).
  replace (-1074 <? e) with true by (symmetry; apply Z.ltb_lt; lia).
  destruct (_ && _).
  - replace (e + 1 - 1) with (e - 1 + 1) by lia. apply bpow_succ.
  - apply bpow_succ.
Qed.

(** A state that a step does not change is the root, when the root is a
    float. *)
Lemma fixpoint_of_square (x p y : double) :
  pf x -> pf p -> B2R x = (B2R p * B2R p)%R ->
  state_ok x y -> newton x y = y -> y = p.
Proof.
  intros Hx Hp Hsq Hst Hfix. pose proof Hst as [Hy He Hq Hl].
  pose proof (pf_pos y Hy) as Hy0. pose proof (pf_pos p Hp) as Hp0.
  pose proof (pf_normal_big y Hy ltac:(lia)) as Hbig.
  assert (Hu0 : (0 < ulp y)%R) by apply bpow_gt_0.
  assert (H52 : (4 <= IZR (2 ^ 52))%R) by (apply IZR_le; lia).
  destruct (dbl_pf y Hy He) as (Hd & Hdv & Hde).
  assert (Hstep : step_ok x y).
  { destruct (Rlt_or_le (B2R y * B2R y) (B2R x)) as [HL|HH].
    - apply (lf_oka _ _ (low_state x y Hx Hst HL)).
    - apply (high_step x y Hx Hst HH). }
  pose proof (so_half _ _ Hstep) as Hhalf. rewrite Hfix in Hhalf.
  set (q := SFdiv 53 1024 x y) in *.
  set (s := SFadd 53 1024 y q) in *.
  pose proof (so_q _ _ Hstep) as Hqpf. pose proof (so_s _ _ Hstep) as Hspf.
  fold q in Hqpf. fold q s in Hspf.
  assert (Es : s = dbl y) by (apply pf_eq; auto; lra).
  destruct (rounded_err _ _ (so_rs _ _ Hstep) Hspf) as [Hs1 Hs2].
  destruct (rounded_err _ _ (so_rq _ _ Hstep) Hqpf) as [Hq1 Hq2].
  fold q in Hq1, Hq2. fold q s in Hs1, Hs2.
  assert (Eus : ulp s = (2 * ulp y)%R).
  { rewrite Es. unfold ulp. rewrite Hde. apply bpow_succ. }
  assert (Egs : gapbf s = (2 * gapbf y)%R).
  { rewrite Es. apply gapbf_dbl; [assumption | lia]. }
  apply pf_eq; [assumption | assumption |].
  destruct (Rtotal_order (B2R y) (B2R p)) as [Hlt|[Heq|Hgt]];
    [exfalso | assumption | exfalso].
  - (* y below the root: the quotient would be the root, too far from
       x / y *)
    pose proof (pf_gap_above y p Hy Hp Hlt) as Hgap.
    assert (HQ : (B2R p <= B2R q)%R).
    { apply (rounded_ge _ _ (so_rq _ _ Hstep) Hqpf p Hp).
      apply le_div; [assumption|]. rewrite Hsq. nra. }
    assert (EQ : B2R q = (B2R y + ulp y)%R) by lra.
    assert (EP : B2R p = (B2R y + ulp y)%R) by lra.
    destruct (succf_pf y Hy He) as (Hb & Hbv & Hbe & _).
    assert (Eq : q = succf y) by (apply pf_eq; auto; lra).
    assert (Huq : (ulp q <= 2 * ulp y)%R).
    { rewrite Eq. unfold ulp. rewrite <- bpow_succ. apply bpow_le. lia. }
    assert (Hxy : (B2R x / B2R y <= B2R y + 2 * ulp y)%R) by lra.
    apply div_le_inv in Hxy; [|assumption]. rewrite Hsq, EP in Hxy. nra.
  - (* y above the root: the quotient would be the root, too far from
       x / y *)
    pose proof (pf_gap_below p y Hp Hy Hgt) as Hgap.
    pose proof (pf_gap_above p y Hp Hy Hgt) as Hgap'.
    assert (Hg0 : (0 < gapbf y)%R) by apply gapb_pos.
    assert (Hgy : (gapbf y <= ulp y)%R) by apply gapb_le.
    assert (HQ : (B2R q <= B2R p)%R).
    { apply (rounded_le _ _ (so_rq _ _ Hstep) Hqpf p Hp).
      apply div_le; [assumption|]. rewrite Hsq. nra. }
    assert (EQ : B2R q = B2R p) by lra.
    assert (EP : B2R p = (B2R y - gapbf y)%R) by lra.
    assert (Eq : q = p) by (apply pf_eq; auto).
    assert (Hgq : (gapbf q <= gapbf y)%R).
    { rewrite Eq. apply Rle_trans with (ulp p); [apply gapb_le | lra]. }
    assert (Hxy : (B2R p - gapbf y / 2 <= B2R x / B2R y)%R) by lra.
    apply le_div_inv in Hxy; [|assumption]. rewrite Hsq in Hxy. nra.
Qed.

(** X8.  The square root of a square: when [x] is exactly the square of a
    finite positive [p], [audio_utils_sqrt(x)] returns [p]. *)
Theorem sqrt_of_square (p x : double) :
  pf p -> pf x -> B2R x = (B2R p * B2R p)%R ->
  exists fuel : nat, forall k : nat, audio_utils_sqrt (fuel + k) x = Some p.
Proof.
  intros Hp Hx Hsq.
  destruct (terminates_from_one x Hx) as (fuel & y & Hy).
  exists fuel. intros k.
  assert (Hs : audio_utils_sqrt (fuel + k) x = Some y).
  { destruct (pf_inv x Hx) as (m & e & -> & _).
    apply (sqrt_unchecked_more_fuel (D := double) fuel _ _ k Hy). }
  destruct (sqrt_state x _ y Hx Hs) as [Hst Hfix].
  rewrite Hs. f_equal. apply (fixpoint_of_square x p y); assumption.
Qed.

Lemma sqrt_of_square_witness :
  exists fuel : nat, forall k : nat,
    audio_utils_sqrt (fuel + k) d_four = Some d_two.
Proof.
  apply (sqrt_of_square d_two d_four); [reflexivity | reflexivity |].
  simpl. unfold F2R. change (Z.pos 4503599627370496) with (2 ^ 52).
  rewrite <- (bpow_IZR 52), <- !bpow_plus by lia. reflexivity.
Defined.

End Accuracy.

(** ** Minimum, mean and maximum in exact arithmetic *)

Lemma Qc_ltb_lt (a b : Qc) : Qc_ltb a b = true <-> a < b.
Proof.
  unfold Qc_ltb, Qclt, Qccompare. rewrite Qlt_alt.
  destruct (this a ?= this b)%Q; split; congruence.
Qed.

Lemma Qc_ltb_ge (a b : Qc) : Qc_ltb a b = false <-> b <= a.
Proof.
  split; intros H.
  - apply Qcnot_lt_le. intros Hlt. apply Qc_ltb_lt in Hlt. congruence.
  - destruct (Qc_ltb a b) eqn:E; [|reflexivity].
    apply Qc_ltb_lt in E. now apply Qcle_not_lt in H.
Qed.

Lemma extremes_add (h : list (Qc * Qc)) (a v : Qc) (s : Statistics exact)
                   (r : ReferenceStatistics exact) :
  extremes h s r -> stores h r ->
  extremes ((v, a) :: h) (Statistics_add (Fin v) s) (Reference_add (Fin v) r).
Proof.
  intros He [Hd _]. unfold Reference_add, Reference_getN. rewrite Hd.
  unfold hdata. rewrite length_map.
  destruct h as [|p h]; cbn [extremes] in *.
  - destruct He as [Hmin Hmax]. exists v, v.
    cbn [Statistics_add mMin mMax rMin rMax length Z.of_nat Z.eqb].
    rewrite Hmin, Hmax. cbn. repeat split; auto using Qcle_refl.
  - destruct He as (lo & hi & Hmin & Hrmin & Hmax & Hrmax & Hlo & Hhi & Hall).
    assert (Hlohi : lo <= hi).
    { rewrite Forall_forall in Hall. apply List.in_map_iff in Hlo.
      destruct Hlo as (q & <- & Hq). apply (Hall q Hq). }
    replace (Z.of_nat (length (p :: h)) =? 0)%Z with false by reflexivity.
    cbn [Statistics_add mMin mMax]. rewrite Hmin, Hmax, Hrmin, Hrmax.
    unfold std_max, std_min. cbn [ltb exact_Arith x_ltb].
    destruct (Qc_ltb hi v) eqn:E1.
    + apply Qc_ltb_lt in E1.
      assert (E2 : Qc_ltb v lo = false).
      { apply Qc_ltb_ge. apply Qcle_trans with hi; [assumption|].
        now apply Qclt_le_weak. }
      rewrite E2. exists lo, v. cbn [rMin rMax map fst].
      repeat split; auto.
      * now right.
      * now left.
      * constructor.
        -- cbn [fst]. split; [|apply Qcle_refl].
           apply Qcle_trans with hi; [assumption | now apply Qclt_le_weak].
        -- eapply Forall_impl; [|exact Hall]. intros q [H1 H2]. split; auto.
           apply Qcle_trans with hi; [assumption | now apply Qclt_le_weak].
    + apply Qc_ltb_ge in E1. destruct (Qc_ltb v lo) eqn:E2.
      * apply Qc_ltb_lt in E2. exists v, hi. cbn [rMin rMax map fst].
        repeat split; auto.
        -- now left.
        -- now right.
        -- constructor.
           ++ cbn [fst]. split; [apply Qcle_refl | assumption].
           ++ eapply Forall_impl; [|exact Hall]. intros q [H1 H2].
              split; auto.
              apply Qcle_trans with lo; [now apply Qclt_le_weak | assumption].
      * apply Qc_ltb_ge in E2. exists lo, hi. cbn [rMin rMax map fst].
        repeat split; auto; now right.
Qed.

Lemma run_extremes (t : list qcall) :
  forall (a : Qc) (h : list (Qc * Qc)) (s : Statistics exact)
         (r : ReferenceStatistics exact),
    extremes h s r -> stores h r -> rAlpha r = Fin a ->
    extremes (history a h t) (run (calls t) s) (Reference_run (calls t) r).
Proof.
  induction t as [|[v|a'|] t IH]; intros a h s r He Hs Ha; simpl.
  - assumption.
  - apply IH.
    + now apply extremes_add.
    + apply (Reference_run_stores [QAdd v] Hs Ha).
    + unfold Reference_add.
      destruct (if (Reference_getN r =? 0)%Z then _ else _) as [mn mx].
      exact Ha.
  - apply IH; [| exact Hs | reflexivity].
    destruct h; exact He.
  - apply IH; [split; reflexivity | split; reflexivity | exact Ha].
Qed.

Lemma hS_bounds (lo hi : Qc) (h : list (Qc * Qc)) :
  Forall (fun p => 0 <= snd p) h ->
  Forall (fun p => lo <= fst p /\ fst p <= hi) h ->
  lo * hW h <= hS h /\ hS h <= hi * hW h.
Proof.
  intros Ha Hb. induction h as [|[x a] h IH]; simpl.
  - split; qc2q; lra.
  - inversion Ha as [|? ? Ha1 Ha2]; inversion Hb as [|? ? [Hb1 Hb2] Hb3]; subst.
    destruct (IH Ha2 Hb3) as [IH1 IH2]. simpl in *.
    split; qc2q; nra.
Qed.

(** X9.  Once a sample has been added, the minimum and the maximum are samples
    added since the last reset, every such sample lies between them, and so
    does the mean when no alpha was negative. *)
Theorem mean_between_min_max (a : Qc) (t : list qcall) :
  Forall (fun a' => 0 <= a') (alphas_in_effect a t) ->
  (1 <= adds_since_reset a t)%nat ->
  let s := run (calls t) (Statistics_new (Fin a)) in
  exists lo m hi : Qc,
    getMin s = Fin lo /\ getMean s = Fin m /\ getMax s = Fin hi
    /\ lo <= m /\ m <= hi
    /\ In lo (map fst (history a [] t)) /\ In hi (map fst (history a [] t))
    /\ Forall (fun p => lo <= fst p /\ fst p <= hi) (history a [] t).
Proof.
  intros Hal Hn s. unfold adds_since_reset in Hn.
  destruct (run_repr t (repr_new a) eq_refl Hal) as [m [Hr _]].
  fold s in Hr.
  assert (He : extremes (history a [] t) s
                        (Reference_run (calls t) (Reference_new (Fin a)))).
  { apply run_extremes; [split; reflexivity | split; reflexivity
                        | reflexivity]. }
  set (h := history a [] t) in *.
  destruct h as [|p h'] eqn:Eh; [simpl in Hn; lia|]. rewrite <- Eh in *.
  assert (Hne : h <> []) by (rewrite Eh; discriminate).
  rewrite Eh in He. cbn [extremes] in He. rewrite <- Eh in He.
  destruct He as (lo & hi & Hmin & _ & Hmax & _ & Hlo & Hhi & Hall).
  exists lo, m, hi. unfold getMin, getMean, getMax.
  rewrite Hmin, Hmax, (repr_mean Hr).
  destruct (hS_bounds (repr_alphas Hr) Hall) as [H1 H2].
  pose proof (hW_ge_1 (repr_alphas Hr) Hne) as Hw.
  pose proof (repr_mean_eq Hr) as Hm. rewrite <- Hm in H1, H2.
  repeat split; auto.
  - clear - H1 Hw. qc2q. nra.
  - clear - H2 Hw. qc2q. nra.
Qed.

Lemma mean_between_min_max_witness :
  let s := run (calls [QAdd 1; QAdd 0]) (Statistics_new (Fin 1)) in
  exists lo m hi : Qc,
    getMin s = Fin lo /\ getMean s = Fin m /\ getMax s = Fin hi
    /\ lo <= m /\ m <= hi
    /\ In lo (map fst (history 1 [] [QAdd 1; QAdd 0]))
    /\ In hi (map fst (history 1 [] [QAdd 1; QAdd 0]))
    /\ Forall (fun p => lo <= fst p /\ fst p <= hi)
              (history 1 [] [QAdd 1; QAdd 0]).
Proof.
  apply (mean_between_min_max 1 [QAdd 1; QAdd 0]).
  - repeat constructor; discriminate.
  - unfold adds_since_reset. simpl. lia.
Defined.

(** ** Both engines, whatever the calls *)

(** X10.  In exact arithmetic, after any calls of [add], [setAlpha] and [reset]
    with no negative alpha, and fewer than 2^63 samples since the last
    reset, the two engines agree: on the count and the weight always, on the
    mean, the population variance, the minimum and the maximum once a sample
    was added, on the variance once two were. *)
Theorem engines_agree_on_every_query (a : Qc) (t : list qcall) :
  Forall (fun a' => 0 <= a') (alphas_in_effect a t) ->
  (Z.of_nat (adds_since_reset a t) < 2 ^ 63)%Z ->
  let s := run (calls t) (Statistics_new (Fin a)) in
  let r := Reference_run (calls t) (Reference_new (Fin a)) in
  getN s = Reference_getN r
  /\ getWeight s = Reference_getWeight r
  /\ ((1 <= adds_since_reset a t)%nat ->
      getMean s = Reference_getMean r
      /\ getPopVariance s = Reference_getPopVariance r
      /\ getMin s = Reference_getMin r
      /\ getMax s = Reference_getMax r)
  /\ ((2 <= adds_since_reset a t)%nat ->
      getVariance s = Reference_getVariance r).
Proof.
  intros Hal Hlt s r.
  destruct (engines_agree a t Hal) as [Hmean Hvar]. fold s r in Hmean, Hvar.
  unfold adds_since_reset in *.
  destruct (run_repr t (repr_new a) eq_refl Hal) as [m [Hr _]].
  fold s in Hr.
  assert (Hs : stores (history a [] t) r).
  { apply Reference_run_stores; [now split | reflexivity]. }
  assert (He : extremes (history a [] t) s r).
  { apply run_extremes; [split; reflexivity | split; reflexivity
                        | reflexivity]. }
  set (h := history a [] t) in *.
  assert (Hn : getN s = Z.of_nat (length h)).
  { unfold getN. rewrite (repr_n Hr). apply int64_wrap_small. lia. }
  split; [|split; [|split]].
  - rewrite Hn. unfold Reference_getN. destruct Hs as [-> _].
    unfold hdata. now rewrite length_map.
  - unfold getWeight. now rewrite (repr_weight Hr), (Reference_getWeight_exact Hs).
  - intros Hlen.
    assert (Hne : h <> []) by (destruct h; [simpl in Hlen; lia | discriminate]).
    pose proof (hW_neq0 (repr_alphas Hr) Hne) as Hw.
    split; [auto|]. split; [|].
    + unfold getPopVariance, Reference_getPopVariance.
      unfold getN in Hn. rewrite Hn.
      replace (Z.of_nat (length h) <? 1)%Z with false
        by (symmetry; apply Z.ltb_ge; lia).
      rewrite (getUnweightedVariance_exact Hs Hw),
              (Reference_getWeight_exact Hs), (repr_m2 Hr), (repr_weight Hr).
      replace (hS h / hW h) with m; [reflexivity|].
      rewrite <- (repr_mean_eq Hr). field. assumption.
    + destruct h as [|p h']; [congruence|]. cbn [extremes] in He.
      destruct He as (lo & hi & Hmin & Hrmin & Hmax & Hrmax & _).
      unfold getMin, getMax, Reference_getMin, Reference_getMax.
      split; congruence.
  - intros Hlen. apply Hvar. lia.
Qed.

Lemma engines_agree_on_every_query_witness :
  let s := run (calls [QAdd 1; QSetAlpha 0; QAdd 0]) (Statistics_new (Fin 1)) in
  let r := Reference_run (calls [QAdd 1; QSetAlpha 0; QAdd 0])
                         (Reference_new (Fin 1)) in
  getN s = Reference_getN r
  /\ getWeight s = Reference_getWeight r
  /\ ((1 <= adds_since_reset 1 [QAdd 1; QSetAlpha 0; QAdd 0])%nat ->
      getMean s = Reference_getMean r
      /\ getPopVariance s = Reference_getPopVariance r
      /\ getMin s = Reference_getMin r
      /\ getMax s = Reference_getMax r)
  /\ ((2 <= adds_since_reset 1 [QAdd 1; QSetAlpha 0; QAdd 0])%nat ->
      getVariance s = Reference_getVariance r).
Proof.
  apply (engines_agree_on_every_query 1 [QAdd 1; QSetAlpha 0; QAdd 0]).
  - repeat constructor; discriminate.
  - unfold adds_since_reset. simpl. lia.
Defined.

(** ** The reductions that sum, in exact arithmetic *)

Lemma KahanSum_add_exact (s x : Qc) :
  KahanSum_add (mkKahanSum (Fin s) (Fin 0)) (Fin x)
  = mkKahanSum (Fin (s + x)) (Fin 0).
Proof. unfold KahanSum_add. simpl. f_equal; f_equal; ring. Qed.

Lemma NeumaierSum_add_exact (s x : Qc) :
  NeumaierSum_add (mkNeumaierSum (Fin s) (Fin 0)) (Fin x)
  = mkNeumaierSum (Fin (s + x)) (Fin 0).
Proof.
  unfold NeumaierSum_add. cbn [nSum nCorrection].
  destruct (geb _ _); simpl; f_equal; f_equal; ring.
Qed.

Lemma fold_KahanSum_exact (f : Qc -> Qc) (l : list Qc) :
  forall s : Qc,
    fold_left (fun sum v => KahanSum_add sum (Fin (f v))) l
              (mkKahanSum (Fin s) (Fin 0))
    = mkKahanSum (Fin (s + fold_right (fun v acc => f v + acc) 0 l)) (Fin 0).
Proof.
  induction l as [|v l IH]; intros s; simpl.
  - f_equal. f_equal. ring.
  - rewrite KahanSum_add_exact, IH. f_equal. f_equal. ring.
Qed.

Lemma fold_NeumaierSum_exact (f : Qc -> Qc) (l : list Qc) :
  forall s : Qc,
    fold_left (fun sum v => NeumaierSum_add sum (Fin (f v))) l
              (mkNeumaierSum (Fin s) (Fin 0))
    = mkNeumaierSum (Fin (s + fold_right (fun v acc => f v + acc) 0 l))
                    (Fin 0).
Proof.
  induction l as [|v l IH]; intros s; simpl.
  - f_equal. f_equal. ring.
  - rewrite NeumaierSum_add_exact, IH. f_equal. f_equal. ring.
Qed.

Lemma fold_plain_exact (f : Qc -> Qc) (l : list Qc) :
  forall s : Qc,
    fold_left (fun sum v => lift2 Qcplus sum (Fin (f v))) l (Fin s)
    = Fin (s + fold_right (fun v acc => f v + acc) 0 l).
Proof.
  induction l as [|v l IH]; intros s; simpl.
  - f_equal. ring.
  - rewrite IH. f_equal. ring.
Qed.

Lemma fold_left_map {A B C : Type} (g : A -> C -> A) (h : B -> C)
                    (l : list B) :
  forall a0, fold_left g (map h l) a0 = fold_left (fun a b => g a (h b)) l a0.
Proof. induction l as [|b l IH]; intros a0; simpl; [reflexivity | apply IH]. Qed.

Lemma KahanSum_sum_exact (l : list Qc) :
  audio_utils_sum (KahanSum exact) (map Fin l)
  = mkKahanSum (Fin (fold_right (fun v acc => v + acc) 0 l)) (Fin 0).
Proof.
  unfold audio_utils_sum. rewrite fold_left_map.
  cbn [sum_add sum_init KahanSum_Summation].
  change (@KahanSum_init exact _) with (mkKahanSum (Fin 0) (Fin 0)).
  rewrite (fold_KahanSum_exact (fun v => v)). f_equal. f_equal.
  apply Qcplus_0_l.
Qed.

Lemma KahanSum_sumSqDiff_exact (l : list Qc) (x : Qc) :
  audio_utils_sumSqDiff (KahanSum exact) (map Fin l) (Fin x)
  = mkKahanSum
      (Fin (fold_right (fun v acc => (v - x) * (v - x) + acc) 0 l)) (Fin 0).
Proof.
  unfold audio_utils_sumSqDiff. rewrite fold_left_map.
  cbn [sum_add sum_init KahanSum_Summation sub mul exact_Arith lift2].
  change (@KahanSum_init exact _) with (mkKahanSum (Fin 0) (Fin 0)).
  rewrite (fold_KahanSum_exact (fun v => (v - x) * (v - x))).
  f_equal. f_equal. apply Qcplus_0_l.
Qed.

(** X11.  In exact arithmetic the three summation types give the sum:
    [audio_utils_sum] the sum of the elements, [audio_utils_sumSqDiff] the
    sum of the squares of their differences to [x]; the correction of a
    [KahanSum] and of a [NeumaierSum] stays zero. *)
Theorem sums_exact (l : list Qc) (x : Qc) :
  let total := fold_right (fun v acc => v + acc) 0 l in
  let sq := fold_right (fun v acc => (v - x) * (v - x) + acc) 0 l in
  audio_utils_sum (KahanSum exact) (map Fin l)
  = mkKahanSum (Fin total) (Fin 0)
  /\ audio_utils_sum (NeumaierSum exact) (map Fin l)
     = mkNeumaierSum (Fin total) (Fin 0)
  /\ audio_utils_sum (Sm := plain_Summation) exact (map Fin l) = Fin total
  /\ audio_utils_sumSqDiff (KahanSum exact) (map Fin l) (Fin x)
     = mkKahanSum (Fin sq) (Fin 0)
  /\ audio_utils_sumSqDiff (NeumaierSum exact) (map Fin l) (Fin x)
     = mkNeumaierSum (Fin sq) (Fin 0)
  /\ audio_utils_sumSqDiff (Sm := plain_Summation) exact (map Fin l) (Fin x)
     = Fin sq
  /\ audio_utils_sum_array (KahanSum exact) (map Fin l) = Fin total
  /\ audio_utils_sum_array (NeumaierSum exact) (map Fin l) = Fin total
  /\ audio_utils_sumSqDiff_array (KahanSum exact) (map Fin l) (Fin x) = Fin sq
  /\ audio_utils_sumSqDiff_array (NeumaierSum exact) (map Fin l) (Fin x)
     = Fin sq.
Proof.
  intros total sq.
  pose proof (KahanSum_sum_exact l) as K1. fold total in K1.
  assert (N1 : audio_utils_sum (NeumaierSum exact) (map Fin l)
               = mkNeumaierSum (Fin total) (Fin 0)).
  { unfold audio_utils_sum. rewrite fold_left_map.
    cbn [sum_add sum_init NeumaierSum_Summation].
    change (@NeumaierSum_init exact _) with (mkNeumaierSum (Fin 0) (Fin 0)).
    rewrite (fold_NeumaierSum_exact (fun v => v)). f_equal. f_equal.
    apply Qcplus_0_l. }
  assert (P1 : audio_utils_sum (Sm := plain_Summation) exact (map Fin l)
               = Fin total).
  { unfold audio_utils_sum. rewrite fold_left_map.
    cbn [sum_add sum_init plain_Summation add zero exact_Arith].
    rewrite (fold_plain_exact (fun v => v)). f_equal. apply Qcplus_0_l. }
  pose proof (KahanSum_sumSqDiff_exact l x) as K2. fold sq in K2.
  assert (N2 : audio_utils_sumSqDiff (NeumaierSum exact) (map Fin l) (Fin x)
               = mkNeumaierSum (Fin sq) (Fin 0)).
  { unfold audio_utils_sumSqDiff. rewrite fold_left_map.
    cbn [sum_add sum_init NeumaierSum_Summation sub mul exact_Arith lift2].
    change (@NeumaierSum_init exact _) with (mkNeumaierSum (Fin 0) (Fin 0)).
    rewrite (fold_NeumaierSum_exact (fun v => (v - x) * (v - x))).
    f_equal. f_equal. apply Qcplus_0_l. }
  assert (P2 : audio_utils_sumSqDiff (Sm := plain_Summation) exact
                                     (map Fin l) (Fin x) = Fin sq).
  { unfold audio_utils_sumSqDiff. rewrite fold_left_map.
    cbn [sum_add sum_init plain_Summation add sub mul zero exact_Arith lift2].
    rewrite (fold_plain_exact (fun v => (v - x) * (v - x))).
    f_equal. apply Qcplus_0_l. }
  unfold audio_utils_sum_array, audio_utils_sumSqDiff_array.
  rewrite K1, N1, K2, N2.
  repeat split; try assumption; cbn; f_equal; apply Qcplus_0_r.
Qed.

(** ** The documented sums *)

Lemma hW_app (a : Qc) (h1 h2 : list (Qc * Qc)) :
  Forall (fun p => snd p = a) h1 ->
  hW (h1 ++ h2) = hW h1 + a ^ length h1 * hW h2.
Proof.
  induction 1 as [|[x b] h1 Hb _ IH]; simpl in *.
  - ring.
  - subst b. rewrite IH. ring.
Qed.

Lemma hS_app (a : Qc) (h1 h2 : list (Qc * Qc)) :
  Forall (fun p => snd p = a) h1 ->
  hS (h1 ++ h2) = hS h1 + a ^ length h1 * hS h2.
Proof.
  induction 1 as [|[x b] h1 Hb _ IH]; simpl in *.
  - ring.
  - subst b. rewrite IH. ring.
Qed.

Lemma hU_app (a m : Qc) (h1 h2 : list (Qc * Qc)) :
  Forall (fun p => snd p = a) h1 ->
  hU m (h1 ++ h2) = hU m h1 + a ^ length h1 * hU m h2.
Proof.
  induction 1 as [|[x b] h1 Hb _ IH]; simpl in *.
  - ring.
  - subst b. rewrite IH. ring.
Qed.

Lemma constant_history (a : Qc) (l : list Qc) :
  Forall (fun p => snd p = a) (rev (map (fun v => (v, a)) l))
  /\ length (rev (map (fun v => (v, a)) l)) = length l.
Proof.
  split.
  - apply Forall_rev, Forall_map, Forall_forall. reflexivity.
  - now rewrite length_rev, length_map.
Qed.

Lemma history_sums (a m : Qc) (l : list Qc) :
  let h := history a [] (map QAdd l) in
  hW h = weighted_sum a (fun _ => 1) l
  /\ hS h = weighted_sum a (fun x => x) l
  /\ hU m h = weighted_sum a (fun x => (x - m) * (x - m)) l.
Proof.
  intros h. unfold h. rewrite history_QAdd, app_nil_r. clear h.
  induction l as [|x l (IH1 & IH2 & IH3)]; simpl;
    [repeat split; reflexivity|].
  destruct (constant_history a l) as [Hc Hl].
  rewrite (hW_app _ Hc), (hS_app _ Hc), (hU_app m _ Hc), Hl, IH1, IH2, IH3.
  simpl. repeat split; ring.
Qed.

(** X12.  The formulas of the documentation.  After the samples of [l], added
    under one alpha that is not negative: the weight is
    [sum alpha^(n-i)], the mean is [1/weight * sum alpha^(n-i) x_i], and the
    (population) variance is [1/weight * sum alpha^(n-i) (x_i - mean)^2]. *)
Theorem documented_sums (a : Qc) (l : list Qc) :
  0 <= a -> l <> [] -> (Z.of_nat (length l) < 2 ^ 63)%Z ->
  let s := feed (map Fin l) (Statistics_new (Fin a)) in
  let weight := weighted_sum a (fun _ => 1) l in
  let mean := weighted_sum a (fun x => x) l / weight in
  let var := weighted_sum a (fun x => (x - mean) * (x - mean)) l / weight in
  1 <= weight
  /\ getWeight s = Fin weight
  /\ getMean s = Fin mean
  /\ getPopVariance s = Fin var.
Proof.
  intros Ha Hne Hlen s weight mean var. unfold s, feed.
  rewrite <- calls_QAdd.
  assert (Hal : Forall (fun a' => 0 <= a') (alphas_in_effect a (map QAdd l))).
  { rewrite alphas_in_effect_QAdd. now apply Forall_const. }
  destruct (run_repr (map QAdd l) (repr_new a) eq_refl Hal) as [m [Hr _]].
  set (h := history a [] (map QAdd l)) in *.
  assert (Hh : length h = length l) by apply history_QAdd_length.
  assert (Hhne : h <> []).
  { intros E. rewrite E in Hh. destruct l; [congruence | discriminate]. }
  pose proof (hW_ge_1 (repr_alphas Hr) Hhne) as Hw1.
  pose proof (hW_neq0 (repr_alphas Hr) Hhne) as Hw0.
  destruct (history_sums a m l) as (EW & ES & _). fold h in EW, ES.
  assert (Em : m = mean).
  { unfold mean, weight. rewrite <- EW, <- ES, <- (repr_mean_eq Hr).
    field. assumption. }
  destruct (history_sums a mean l) as (_ & _ & EU). fold h in EU.
  split; [unfold weight; now rewrite <- EW|].
  split; [unfold getWeight, weight; now rewrite (repr_weight Hr), EW|].
  split; [unfold getMean; rewrite (repr_mean Hr); simpl; now f_equal|].
  unfold getPopVariance. rewrite (repr_n Hr), Hh, int64_wrap_small by lia.
  replace (Z.of_nat (length l) <? 1)%Z with false
    by (symmetry; apply Z.ltb_ge; destruct l; [congruence | simpl; lia]).
  rewrite (repr_m2 Hr), (repr_weight Hr).
  change (x_div (Fin (hU m h)) (Fin (hW h)) = Fin var).
  rewrite x_div_fin by assumption. unfold var, weight.
  now rewrite Em, EU, EW.
Qed.

Lemma documented_sums_witness :
  let l := [1; 0] in
  let a := Q2Qc (1 # 2) in
  let s := feed (map Fin l) (Statistics_new (Fin a)) in
  let weight := weighted_sum a (fun _ => 1) l in
  let mean := weighted_sum a (fun x => x) l / weight in
  let var := weighted_sum a (fun x => (x - mean) * (x - mean)) l / weight in
  1 <= weight
  /\ getWeight s = Fin weight
  /\ getMean s = Fin mean
  /\ getPopVariance s = Fin var.
Proof.
  apply (documented_sums (a := Q2Qc (1 # 2)) (l := [1; 0])).
  - discriminate.
  - discriminate.
  - simpl. lia.
Defined.

(** ** The constructor from an array *)

Lemma Statistics_of_array_feed {D : Type} `{Arith D} (a : list D) (alpha : D) :
  Statistics_of_array a alpha = feed a (Statistics_new alpha).
Proof.
  unfold Statistics_of_array, feed, run. now rewrite fold_left_map.
Qed.

(** X13.  [Statistics(a, alpha)] is the engine after [add] of each element of
    [a] in turn: its maximum and its minimum are [audio_utils_max(a)] and
    [audio_utils_min(a)], and its count is the length of [a]. *)
Theorem Statistics_of_array_spec {D : Type} `{Arith D} (a : list D)
                                 (alpha : D) :
  Statistics_of_array a alpha = run (map (@Add D) a) (Statistics_new alpha)
  /\ getMax (Statistics_of_array a alpha) = audio_utils_max a
  /\ getMin (Statistics_of_array a alpha) = audio_utils_min a
  /\ getN (Statistics_of_array a alpha) = int64_wrap (Z.of_nat (length a)).
Proof.
  rewrite Statistics_of_array_feed. unfold getMax, getMin, getN.
  rewrite feed_mMax, feed_mMin. repeat split.
  destruct a as [|v a]; [reflexivity|].
  rewrite feed_mN. cbn [Statistics_new mN length]. f_equal. lia.
Qed.

(** ** The rectangular window *)

Lemma Qc_of_nat_succ (k : nat) :
  Q2Qc (inject_Z (Z.of_nat (S k))) = 1 + Q2Qc (inject_Z (Z.of_nat k)).
Proof.
  apply Qc_is_canon. rewrite this_plus, this_1. unfold Q2Qc. cbn [this].
  rewrite !Qred_correct, Nat2Z.inj_succ. unfold Z.succ.
  rewrite inject_Z_plus. change (inject_Z 1) with 1%Q. ring.
Qed.

Lemma weighted_sum_one (f : Qc -> Qc) (l : list Qc) :
  weighted_sum 1 f l = fold_right (fun v acc => f v + acc) 0 l.
Proof.
  induction l as [|x l IH]; simpl; [reflexivity|].
  rewrite IH, Qcpower_1. ring.
Qed.

Lemma weighted_sum_count (l : list Qc) :
  weighted_sum 1 (fun _ => 1) l = Q2Qc (inject_Z (Z.of_nat (length l))).
Proof.
  induction l as [|x l IH]; [reflexivity|].
  cbn [weighted_sum length]. rewrite IH, Qc_of_nat_succ, Qcpower_1. ring.
Qed.

(** X14.  With alpha equal to 1, the default of the constructors, and [n]
    samples: the weight is [n], the mean is [audio_utils_sum / n], the
    population variance is [audio_utils_sumSqDiff / n] and the variance is
    [audio_utils_sumSqDiff / (n - 1)], the differences being those to the
    mean. *)
Theorem rectangular_window (l : list Qc) :
  l <> [] -> (Z.of_nat (length l) < 2 ^ 63)%Z ->
  let s := Statistics_of_array (map Fin l) one in
  let n := Fin (Q2Qc (inject_Z (Z.of_nat (length l)))) in
  let sq := audio_utils_sumSqDiff_array (KahanSum exact) (map Fin l)
                                        (getMean s) in
  getWeight s = n
  /\ getMean s = (audio_utils_sum_array (KahanSum exact) (map Fin l) / n)%A
  /\ getPopVariance s = (sq / n)%A
  /\ ((2 <= length l)%nat -> getVariance s = (sq / (n - one))%A).
Proof.
  intros Hne Hlen s n sq. subst sq s.
  rewrite Statistics_of_array_feed.
  set (s := feed (map Fin l) (Statistics_new one)).
  set (sq := audio_utils_sumSqDiff_array (KahanSum exact) (map Fin l)
                                         (getMean s)).
  assert (Hal : Forall (fun a' => 0 <= a') (alphas_in_effect 1 (map QAdd l))).
  { rewrite alphas_in_effect_QAdd. apply Forall_const. discriminate. }
  destruct (run_repr (map QAdd l) (repr_new 1) eq_refl Hal) as [m [Hr _]].
  rewrite calls_QAdd in Hr. fold (feed (map Fin l) (Statistics_new (Fin 1))) in Hr.
  change (Statistics_new (Fin 1)) with (@Statistics_new exact _ one) in Hr.
  fold s in Hr.
  set (h := history 1 [] (map QAdd l)) in *.
  assert (Hh : length h = length l) by apply history_QAdd_length.
  assert (Hhne : h <> []).
  { intros E. rewrite E in Hh. destruct l; [congruence | discriminate]. }
  pose proof (hW_neq0 (repr_alphas Hr) Hhne) as Hw0.
  destruct (history_sums 1 m l) as (EW & ES & EU). fold h in EW, ES, EU.
  rewrite weighted_sum_count in EW. rewrite weighted_sum_one in ES, EU.
  set (k := Q2Qc (inject_Z (Z.of_nat (length l)))) in *.
  pose proof (repr_mean_eq Hr) as Hm. rewrite EW in Hm, Hw0.
  assert (Emean : getMean s = Fin m).
  { unfold getMean. rewrite (repr_mean Hr). reflexivity. }
  assert (Esq : sq = Fin (hU m h)).
  { unfold sq, audio_utils_sumSqDiff_array. rewrite Emean.
    rewrite KahanSum_sumSqDiff_exact. cbn. now rewrite EU. }
  assert (EW2 : hW2 h = k).
  { pose proof (hW2_constant_alpha (history_QAdd_alpha 1 l)) as E.
    fold h in E. rewrite EW in E.
    replace (hW2 h) with (hW2 h * (1 + 1) / (1 + 1)) by (field; discriminate).
    rewrite E. field. discriminate. }
  split; [unfold getWeight, n; now rewrite (repr_weight Hr), EW|].
  split.
  { rewrite Emean. unfold audio_utils_sum_array.
    rewrite KahanSum_sum_exact. cbn [sum_value KahanSum_Summation
                                     KahanSum_value mSum].
    unfold n. change (Fin m = x_div (Fin (fold_right (fun v acc => v + acc) 0 l))
                                   (Fin k)).
    rewrite x_div_fin by assumption. f_equal.
    rewrite <- ES, <- Hm. field. assumption. }
  split.
  { unfold getPopVariance. rewrite (repr_n Hr), Hh, int64_wrap_small by lia.
    replace (Z.of_nat (length l) <? 1)%Z with false
      by (symmetry; apply Z.ltb_ge; destruct l; [congruence | simpl; lia]).
    rewrite Esq, (repr_m2 Hr), (repr_weight Hr), EW. reflexivity. }
  intros H2. unfold getVariance, getSampleWeight.
  rewrite (repr_n Hr), Hh, int64_wrap_small by lia.
  replace (Z.of_nat (length l) <? 2)%Z with false
    by (symmetry; apply Z.ltb_ge; lia).
  rewrite Esq, (repr_m2 Hr), (repr_weight Hr), (repr_weight2 Hr), EW2, EW.
  unfold n. f_equal.
  change (lift2 Qcminus (Fin k) (x_div (Fin k) (Fin k)) = Fin (k - 1)).
  rewrite x_div_fin by assumption. cbn [lift2].
  f_equal. field. assumption.
Qed.

Lemma rectangular_window_witness :
  let l := [1; 0] in
  let s := Statistics_of_array (map Fin l) one in
  let n := Fin (Q2Qc (inject_Z (Z.of_nat (length l)))) in
  let sq := audio_utils_sumSqDiff_array (KahanSum exact) (map Fin l)
                                        (getMean s) in
  getWeight s = n
  /\ getMean s = (audio_utils_sum_array (KahanSum exact) (map Fin l) / n)%A
  /\ getPopVariance s = (sq / n)%A
  /\ ((2 <= length l)%nat -> getVariance s = (sq / (n - one))%A).
Proof.
  apply (rectangular_window (l := [1; 0])).
  - discriminate.
  - simpl. lia.
Defined.

(** ** Minimum and maximum of the two engines in binary64 *)

Lemma SFleb_not_ltb (a b : double) : SFleb a b = true -> SFltb b a = false.
Proof.
  unfold SFleb, SFltb. rewrite (SFcompare_antisym a b).
  destruct (SFcompare a b) as [[]|]; simpl; congruence.
Qed.

Lemma SFltb_leb (a b : double) : SFltb a b = true -> SFleb a b = true.
Proof. unfold SFleb, SFltb. destruct (SFcompare a b) as [[]|]; congruence. Qed.

Lemma SFltb_not_nan (a b : double) :
  SFltb a b = true -> is_nan a = false /\ is_nan b = false.
Proof.
  destruct a as [[]|[]| |[] ma ea], b as [[]|[]| |[] mb eb];
    try discriminate; split; reflexivity.
Qed.

(** The first sample. *)
Lemma first_sample_extremes (alpha v : double) :
  is_nan v = false ->
  mMin (Statistics_add v (Statistics_new alpha)) = v
  /\ mMax (Statistics_add v (Statistics_new alpha)) = v.
Proof.
  intros Hv. cbn [Statistics_add Statistics_new mMin mMax].
  unfold std_min, std_max. cbn [ltb double_Arith].
  split.
  - destruct (SFltb v _) eqn:E; [reflexivity|].
    apply SFltb_false_leb in E; [|assumption|reflexivity].
    symmetry. now apply SFleb_pinf.
  - destruct (SFltb _ v) eqn:E; [reflexivity|].
    apply SFltb_false_leb in E; [|reflexivity|assumption].
    symmetry. now apply SFleb_ninf.
Qed.

Lemma run_extremes_agree (t : list (call double)) :
  forall (s : Statistics double) (r : ReferenceStatistics double),
    no_reset t = true ->
    mData r <> [] ->
    mMin s = rMin r -> mMax s = rMax r ->
    SFleb (mMin s) (mMax s) = true ->
    mMin (run t s) = rMin (Reference_run t r)
    /\ mMax (run t s) = rMax (Reference_run t r).
Proof.
  induction t as [|[x|a|] t IH]; intros s r Hnr Hne Hmin Hmax Hle;
    simpl in Hnr |- *; [now split | | | discriminate].
  - assert (H0 : (Reference_getN r =? 0)%Z = false).
    { unfold Reference_getN. destruct (mData r); [congruence | reflexivity]. }
    assert (Hstep :
      mMin (Statistics_add x s) = rMin (Reference_add x r)
      /\ mMax (Statistics_add x s) = rMax (Reference_add x r)
      /\ SFleb (mMin (Statistics_add x s)) (mMax (Statistics_add x s)) = true).
    { unfold Reference_add. rewrite H0.
      cbn [Statistics_add mMin mMax]. unfold std_min, std_max.
      cbn [ltb double_Arith]. rewrite <- Hmin, <- Hmax.
      destruct (SFltb (mMax s) x) eqn:E1.
      - pose proof (SFleb_ltb_trans _ _ _ Hle E1) as Hx.
        rewrite (SFleb_not_ltb _ _ Hx). cbn [rMin rMax]. auto.
      - destruct (SFltb x (mMin s)) eqn:E2; cbn [rMin rMax].
        + repeat split. apply (SFltb_leb_trans _ _ _ E2 Hle).
        + auto. }
    destruct Hstep as (Hmin' & Hmax' & Hle').
    apply IH; auto.
    unfold Reference_add. rewrite H0.
    destruct (if (x >? rMax r)%A then _ else _) as [mn mx]. discriminate.
  - apply IH; auto.
Qed.

(** X15.  When the first sample since construction is a number, the two engines
    report the same minimum and the same maximum, whatever the later samples
    (Not-a-Number or not) and alphas; the engines differ only when the first
    sample is Not-a-Number, which the reference engine keeps. *)
Theorem engines_min_max_agree (alpha v : double) (t : list (call double)) :
  is_nan v = false -> no_reset t = true ->
  let s := run (Add v :: t) (Statistics_new alpha) in
  let r := Reference_run (Add v :: t) (Reference_new alpha) in
  getMin s = Reference_getMin r /\ getMax s = Reference_getMax r.
Proof.
  intros Hv Hnr s r. unfold s, r, getMin, getMax, Reference_getMin,
    Reference_getMax.
  cbn [run Reference_run fold_left exec Reference_exec].
  fold (run t (Statistics_add v (Statistics_new alpha))).
  fold (Reference_run t (Reference_add v (Reference_new alpha))).
  destruct (first_sample_extremes alpha v Hv) as [Hmin Hmax].
  apply run_extremes_agree.
  - assumption.
  - discriminate.
  - rewrite Hmin. reflexivity.
  - rewrite Hmax. reflexivity.
  - rewrite Hmin, Hmax. now apply SFleb_refl.
Qed.

Lemma engines_min_max_agree_witness :
  let t := [Add S754_nan; SetAlpha d_half; Add d_two] in
  let s := run (Add d_one :: t) (Statistics_new d_one) in
  let r := Reference_run (Add d_one :: t) (Reference_new d_one) in
  getMin s = Reference_getMin r /\ getMax s = Reference_getMax r.
Proof.
  exact (engines_min_max_agree d_one d_one
           [Add S754_nan; SetAlpha d_half; Add d_two] eq_refl eq_refl).
Defined.

(** ** Alpha zero *)

Lemma weight_after_alpha_zero (sa : bool) (w : double) :
  is_finite w = true ->
  SFadd prec emax d_one (SFmul prec emax (S754_zero sa) w) = d_one.
Proof.
  destruct w as [[]|[]| |[] m e], sa; try discriminate; reflexivity.
Qed.

Lemma weight2_after_alpha_zero (sa : bool) (w2 : double) :
  is_finite w2 = true ->
  SFadd prec emax d_one
    (SFmul prec emax (SFmul prec emax (S754_zero sa) (S754_zero sa)) w2)
  = d_one.
Proof.
  destruct w2 as [[]|[]| |[] m e], sa; try discriminate; reflexivity.
Qed.

Lemma SFdiv_zero_not_finite (x : double) :
  is_finite (SFdiv prec emax x (S754_zero false)) = false.
Proof. destruct x as [[]|[]| |[] m e]; reflexivity. Qed.

(** X16.  With alpha zero the variance is a division by zero.  After an [add]
    under alpha zero, from finite weights: the weight is 1, the divisor
    [getSampleWeight()] of the variance is zero, and [getVariance()], once
    two samples are counted, is an infinity or Not-a-Number. *)
Theorem alpha_zero_no_variance (s : Statistics double) (v : double)
                               (sa : bool) :
  mAlpha s = S754_zero sa ->
  is_finite (mWeight s) = true -> is_finite (mWeight2 s) = true ->
  let s' := Statistics_add v s in
  getWeight s' = d_one
  /\ getSampleWeight s' = S754_zero false
  /\ ((mN s' <? 2)%Z = false -> is_finite (getVariance s') = false).
Proof.
  intros Ha Hw Hw2 s'.
  assert (E1 : mWeight s' = d_one).
  { unfold s'. cbn [Statistics_add mWeight add mul one double_Arith].
    rewrite Ha. now apply weight_after_alpha_zero. }
  assert (E2 : mWeight2 s' = d_one).
  { unfold s'. cbn [Statistics_add mWeight2 add mul one double_Arith].
    rewrite Ha. now apply weight2_after_alpha_zero. }
  assert (E3 : getSampleWeight s' = S754_zero false).
  { unfold getSampleWeight. rewrite E1, E2. reflexivity. }
  split; [exact E1|]. split; [exact E3|].
  intros Hn. unfold getVariance. rewrite Hn, E3.
  apply SFdiv_zero_not_finite.
Qed.

Lemma alpha_zero_no_variance_witness :
  let s' := Statistics_add d_one (Statistics_new d_zero) in
  getWeight s' = d_one
  /\ getSampleWeight s' = S754_zero false
  /\ ((mN s' <? 2)%Z = false -> is_finite (getVariance s') = false).
Proof.
  exact (alpha_zero_no_variance (Statistics_new d_zero) d_one (sa := false)
                                eq_refl eq_refl eq_refl).
Defined.

(** ** The first sample in binary64 *)

Section FirstSample.
Local Open Scope Z_scope.
Local Unset Implicit Arguments.

Lemma B2R_d_one : B2R d_one = 1%R.
Proof.
  simpl. unfold F2R. change (Z.pos 4503599627370496) with (2 ^ 52).
  rewrite <- (bpow_IZR 52), <- bpow_plus by lia. reflexivity.
Qed.

(** A division by one is exact. *)
Lemma SFdiv_one_pf (x : double) : pf x -> SFdiv prec emax x d_one = x.
Proof.
  intros Hx. assert (H1 : pf d_one) by reflexivity.
  pose proof (div_rounds x d_one Hx H1) as Hr.
  rewrite B2R_d_one in Hr.
  replace (B2R x / 1)%R with (B2R x) in Hr by field.
  pose proof (pf_min x Hx). pose proof (pf_max x Hx).
  pose proof overflow_threshold.
  assert (Hq : pf (SFdiv 53 1024 x d_one))
    by (apply (rounds_to_pf _ _ Hr); lra).
  apply (rounded_exact _ _ Hr Hq x Hx). reflexivity.
Qed.

(** The sign of a rounded result is the sign that is given. *)
Lemma binary_round_aux_sign (m e : Z) (l : location) :
  binary_round_aux prec emax true m e l
  = SFopp (binary_round_aux prec emax false m e l).
Proof.
  unfold binary_round_aux.
  destruct (shr_fexp prec emax m e l) as [mrs' e'].
  destruct (shr_fexp prec emax _ e' loc_Exact) as [mrs'' e''].
  destruct (shr_m mrs''); [reflexivity | | reflexivity].
  destruct (e'' <=? emax - prec); reflexivity.
Qed.

Lemma SFdiv_one (s : bool) (m : positive) (e : Z) :
  bounded prec emax m e = true ->
  SFdiv prec emax (S754_finite s m e) d_one = S754_finite s m e.
Proof.
  intros Hb. pose proof (SFdiv_one_pf (S754_finite false m e) Hb) as E.
  destruct s; [|exact E].
  unfold SFdiv, d_one in E |- *.
  destruct (SFdiv_core_binary prec emax (Z.pos m) e _ _) as [[mz ez] lz].
  cbn [xorb] in E |- *. rewrite binary_round_aux_sign, E. reflexivity.
Qed.

Lemma SFsub_diag (s : bool) (m : positive) (e : Z) :
  SFsub prec emax (S754_finite s m e) (S754_finite s m e) = S754_zero false.
Proof.
  unfold SFsub. rewrite Z.min_id. unfold shl_align.
  rewrite ?Z.sub_diag. cbn [fst]. rewrite ?Z.sub_diag. reflexivity.
Qed.

(** The state left by the first [add]: weight 1, the sample as the mean
    with a zero correction, and a zero [mM2]. *)
Lemma first_add_state (alpha : double) (s : bool) (m : positive) (e : Z) :
  is_finite alpha = true -> bounded prec emax m e = true ->
  let v : double := S754_finite s m e in
  let st := Statistics_add v (Statistics_new alpha) in
  mWeight st = d_one
  /\ mMean st = mkKahanSum v (S754_zero false)
  /\ exists z : bool, mM2 st = S754_zero z.
Proof.
  intros Ha Hb v st.
  assert (Ew : (one + alpha * zero)%A = d_one).
  { destruct alpha as [[]|[]| |[] ma ea]; try discriminate; reflexivity. }
  assert (Hk : KahanSum_add KahanSum_init ((v - zero) / (one + alpha * zero))%A
               = mkKahanSum v (S754_zero false)).
  { rewrite Ew.
    change (v - zero)%A with v.
    change (v / d_one)%A with (SFdiv prec emax v d_one).
    unfold v at 1. rewrite (SFdiv_one s m e Hb). fold v.
    unfold KahanSum_add.
    cbn [KahanSum_init mSum mCorrection sub add zero double_Arith d_zero].
    change (SFsub prec emax v (S754_zero false)) with v.
    change (SFadd prec emax (S754_zero false) v) with v.
    f_equal. unfold v. apply SFsub_diag. }
  split; [exact Ew|]. split; [exact Hk|].
  change (mM2 st)
    with (alpha * zero
          + (v - zero)
            * (v - KahanSum_value
                     (KahanSum_add KahanSum_init
                                   ((v - zero) / (one + alpha * zero)))))%A.
  rewrite Hk. cbn [KahanSum_value mSum sub add mul zero double_Arith d_zero].
  change (SFsub prec emax v (S754_zero false)) with v.
  unfold v. rewrite SFsub_diag.
  destruct alpha as [[]|[]| |[] ma ea], s; try discriminate;
    eexists; reflexivity.
Qed.

(** X17.  After the first sample [v], finite and not zero, added under a finite
    alpha: the count is 1, the weight is 1, the mean, the minimum and the
    maximum are [v] itself, without any rounding, and the variances are
    zero. *)
Theorem first_sample_binary64 (alpha : double) (s : bool) (m : positive)
                              (e : Z) :
  is_finite alpha = true -> bounded prec emax m e = true ->
  let v : double := S754_finite s m e in
  let st := Statistics_add v (Statistics_new alpha) in
  getN st = 1
  /\ getWeight st = d_one
  /\ getMean st = v
  /\ getMin st = v /\ getMax st = v
  /\ getVariance st = S754_zero false
  /\ (exists z : bool, getPopVariance st = S754_zero z).
Proof.
  intros Ha Hb v st.
  destruct (first_add_state alpha s m e Ha Hb) as (Hw & Hmean & Hm2).
  fold v in Hw, Hmean, Hm2. fold st in Hw, Hmean, Hm2.
  destruct (first_sample_extremes alpha v eq_refl) as [Hmin Hmax].
  split; [reflexivity|]. split; [exact Hw|].
  split; [unfold getMean; now rewrite Hmean|].
  split; [exact Hmin|]. split; [exact Hmax|].
  split; [reflexivity|].
  destruct Hm2 as [z Hz]. unfold getPopVariance.
  replace (mN st <? 1) with false by reflexivity.
  rewrite Hz, Hw. exists z. destruct z; reflexivity.
Qed.

Lemma first_sample_binary64_witness :
  let v : double := S754_finite true 4503599627370496 (-51) in
  let st := Statistics_add v (Statistics_new d_half) in
  getN st = 1
  /\ getWeight st = d_one
  /\ getMean st = v
  /\ getMin st = v /\ getMax st = v
  /\ getVariance st = S754_zero false
  /\ (exists z : bool, getPopVariance st = S754_zero z).
Proof.
  exact (first_sample_binary64 d_half true 4503599627370496 (-51)
                               eq_refl eq_refl).
Defined.

End FirstSample.

(** ** The weight under one alpha *)

Lemma weighted_sum_geometric (a : Qc) (l : list Qc) :
  weighted_sum a (fun _ => 1) l * (1 - a) = 1 - a ^ length l.
Proof.
  induction l as [|x l IH]; simpl; [ring|].
  replace ((a ^ length l * 1 + weighted_sum a (fun _ => 1) l) * (1 - a))
    with (a ^ length l * (1 - a) + weighted_sum a (fun _ => 1) l * (1 - a))
    by ring.
  rewrite IH. ring.
Qed.

Lemma Qcpower_le_1 (a : Qc) (n : nat) : 0 <= a -> a <= 1 -> a ^ n <= 1.
Proof.
  intros H0 H1. induction n as [|n IH]; simpl; [apply Qcle_refl|].
  assert (Hn : 0 <= a ^ n) by now apply Qcpower_pos.
  clear - H0 H1 IH Hn. qc2q. nra.
Qed.

(** X18.  After [n] samples added under one alpha, not negative, the weight [w]
    is the geometric sum: [w * (1 - alpha) = 1 - alpha^n].  So with alpha
    below 1 the weight is at most [1 / (1 - alpha)], however many samples
    are added. *)
Theorem weight_geometric (a : Qc) (l : list Qc) :
  0 <= a ->
  let s := feed (map Fin l) (Statistics_new (Fin a)) in
  exists w : Qc,
    getWeight s = Fin w
    /\ w * (1 - a) = 1 - a ^ length l
    /\ (a < 1 -> 0 <= w /\ w <= 1 / (1 - a)).
Proof.
  intros Ha s. unfold s, feed. rewrite <- calls_QAdd.
  assert (Hal : Forall (fun a' => 0 <= a') (alphas_in_effect a (map QAdd l))).
  { rewrite alphas_in_effect_QAdd. now apply Forall_const. }
  destruct (run_repr (map QAdd l) (repr_new a) eq_refl Hal) as [m [Hr _]].
  destruct (history_sums a m l) as (EW & _ & _).
  exists (hW (history a [] (map QAdd l))).
  split; [exact (repr_weight Hr)|].
  split; [rewrite EW; apply weighted_sum_geometric|].
  intros Ha1. pose proof (hW_nonneg (repr_alphas Hr)) as Hw0.
  split; [assumption|].
  set (w := hW (history a [] (map QAdd l))) in *.
  pose proof (weighted_sum_geometric a l) as E. rewrite <- EW in E. fold w in E.
  assert (Hp : 0 <= a ^ length l) by now apply Qcpower_pos.
  assert (Hd : 0 < 1 - a) by (clear - Ha1; qc2q; lra).
  assert (Hd0 : 1 - a <> 0) by now apply Qc_pos_neq0.
  assert (Hle : w * (1 - a) <= 1).
  { rewrite E. clear - Hp. qc2q. lra. }
  apply Qcmult_lt_0_le_reg_r with (1 - a); [assumption|].
  replace (1 / (1 - a) * (1 - a)) with 1 by (field; assumption).
  exact Hle.
Qed.

Lemma weight_geometric_witness :
  let a := Q2Qc (1 # 2) in
  let l := [1; 0] in
  let s := feed (map Fin l) (Statistics_new (Fin a)) in
  exists w : Qc,
    getWeight s = Fin w
    /\ w * (1 - a) = 1 - a ^ length l
    /\ (a < 1 -> 0 <= w /\ w <= 1 / (1 - a)).
Proof.
  apply (weight_geometric (a := Q2Qc (1 # 2)) [1; 0]). discriminate.
Defined.

(** ** The compensated sums keep the rounding error *)

Section ErrorFree.
Local Open Scope Z_scope.
Local Unset Implicit Arguments.

(** A multiple [z * 2^E] with less than 53 digits is a float. *)
Lemma pf_of_F2R (n : nat) :
  forall z E : Z,
    0 < z < 2 ^ 53 -> -1074 <= E <= 971 -> E + 1074 <= Z.of_nat n ->
    exists g : double, pf g /\ B2R g = F2R z E.
Proof.
  induction n as [|n IH]; intros z E Hz HE Hn.
  - exists (S754_finite false (Z.to_pos z) E). apply pf_make; lia.
  - destruct (Z_lt_le_dec z (2 ^ 52)) as [Hlt|Hge].
    + destruct (Z.eq_dec E (-1074)) as [->|Hne].
      * exists (S754_finite false (Z.to_pos z) (-1074)). apply pf_make; lia.
      * destruct (IH (z * 2 ^ 1) (E - 1)) as (g & Hg & Hv); try lia.
        exists g. split; [assumption|]. rewrite Hv, F2R_shift by lia.
        f_equal. lia.
    + exists (S754_finite false (Z.to_pos z) E). apply pf_make; lia.
Qed.

Lemma binary_round_sign (m : positive) (e : Z) :
  binary_round 53 1024 true m e = SFopp (binary_round 53 1024 false m e).
Proof.
  unfold binary_round. destruct (shl_align m e _) as [mz ez].
  apply binary_round_aux_sign.
Qed.

(** The difference of two positive floats, when it has less than 53 digits
    at the smaller exponent, is computed exactly. *)
Lemma SFsub_aligned (ma mb : positive) (ea eb : Z) :
  exists z : Z,
    SFsub 53 1024 (S754_finite false ma ea) (S754_finite false mb eb)
    = binary_normalize 53 1024 z (Z.min ea eb) false
    /\ SFsub 53 1024 (S754_finite false mb eb) (S754_finite false ma ea)
       = binary_normalize 53 1024 (- z) (Z.min ea eb) false
    /\ F2R z (Z.min ea eb) = (F2R (Z.pos ma) ea - F2R (Z.pos mb) eb)%R.
Proof.
  unfold SFsub, cond_Zopp. rewrite (Z.min_comm eb ea).
  pose proof (shl_align_spec ma ea (Z.min ea eb)) as [_ Ha].
  pose proof (shl_align_spec mb eb (Z.min ea eb)) as [_ Hb].
  set (ez := Z.min ea eb) in *.
  replace (Z.min ea ez) with ez in Ha by lia.
  replace (Z.min eb ez) with ez in Hb by lia.
  destruct (shl_align ma ea ez) as [ma' ea'].
  destruct (shl_align mb eb ez) as [mb' eb']. simpl fst in *.
  exists (Z.pos ma' - Z.pos mb'). split; [reflexivity|]. split.
  - f_equal. lia.
  - unfold F2R at 1. rewrite minus_IZR, Rmult_minus_distr_r.
    fold (F2R (Z.pos ma') ez). fold (F2R (Z.pos mb') ez).
    rewrite Ha, Hb, !F2R_shift by lia. f_equal; f_equal; lia.
Qed.

(** Multiples of a power of two. *)
Lemma multiple_of_pf (f : double) (E : Z) :
  pf f -> E <= fexpo f -> multiple_of E (B2R f).
Proof.
  intros Hf HE. exists (fmant f * 2 ^ (fexpo f - E)).
  rewrite (pf_B2R f Hf), F2R_shift by lia. f_equal. lia.
Qed.

Lemma multiple_of_minus (E : Z) (x y : R) :
  multiple_of E x -> multiple_of E y -> multiple_of E (x - y).
Proof.
  intros [j ->] [k ->]. exists (j - k). unfold F2R. rewrite minus_IZR. ring.
Qed.

Lemma multiple_of_plus (E : Z) (x y : R) :
  multiple_of E x -> multiple_of E y -> multiple_of E (x + y).
Proof.
  intros [j ->] [k ->]. exists (j + k). unfold F2R. rewrite plus_IZR. ring.
Qed.

Lemma multiple_of_opp (E : Z) (x : R) :
  multiple_of E x -> multiple_of E (- x).
Proof.
  intros [j ->]. exists (- j). unfold F2R. rewrite opp_IZR. ring.
Qed.

Lemma multiple_of_le (E E' : Z) (x : R) :
  E' <= E -> multiple_of E x -> multiple_of E' x.
Proof.
  intros HE [j ->]. exists (j * 2 ^ (E - E')).
  rewrite F2R_shift by lia. f_equal. lia.
Qed.

(** A positive multiple of [2^E] below [2^(53 + E)] is a float. *)
Lemma multiple_of_float (E : Z) (x : R) :
  multiple_of E x -> -1074 <= E <= 971 ->
  (0 < x < bpow (53 + E))%R ->
  exists g : double, pf g /\ B2R g = x.
Proof.
  intros [j ->] HE [H0 H1].
  assert (Hj0 : 0 < j).
  { apply (F2R_lt_mant 0 j E). unfold F2R at 1. rewrite Rmult_0_l.
    exact H0. }
  assert (Hj1 : j < 2 ^ 53).
  { apply (F2R_lt_mant j (2 ^ 53) E).
    unfold F2R at 2. rewrite <- bpow_IZR, <- bpow_plus by lia. exact H1. }
  apply (pf_of_F2R (Z.to_nat (E + 1074))); lia.
Qed.

(** The difference of two positive floats is not rounded when it is a
    float. *)
Lemma SFsub_pf_pos (a b : double) :
  pf a -> pf b -> (B2R b < B2R a)%R ->
  (exists g : double, pf g /\ B2R g = (B2R a - B2R b)%R) ->
  pf (SFsub 53 1024 a b)
  /\ B2R (SFsub 53 1024 a b) = (B2R a - B2R b)%R.
Proof.
  intros Ha Hb Hlt (g & Hg & Hv).
  destruct (pf_inv a Ha) as (ma & ea & -> & Ba).
  destruct (pf_inv b Hb) as (mb & eb & -> & Bb).
  cbn [B2R cond_Zopp] in *.
  destruct (SFsub_aligned ma mb ea eb) as (z & E1 & _ & Ez).
  rewrite E1, <- Ez. rewrite <- Ez in Hv.
  assert (Hz0 : 0 < z).
  { apply (F2R_lt_mant 0 z (Z.min ea eb)). unfold F2R at 1.
    rewrite Rmult_0_l, Ez. lra. }
  destruct z as [|p|p]; try lia.
  cbn [binary_normalize].
  pose proof (binary_round_spec p (Z.min ea eb)) as Hr. rewrite <- Hv in Hr.
  pose proof (pf_min g Hg). pose proof (pf_max g Hg).
  pose proof overflow_threshold.
  assert (Hf : pf (binary_round 53 1024 false p (Z.min ea eb)))
    by (apply (rounds_to_pf _ _ Hr); lra).
  rewrite (rounded_exact _ _ Hr Hf g Hg eq_refl). split; assumption.
Qed.

Lemma SFsub_pf_swap (a b : double) :
  pf a -> pf b -> (B2R a < B2R b)%R ->
  SFsub 53 1024 a b = SFopp (SFsub 53 1024 b a).
Proof.
  intros Ha Hb Hlt.
  destruct (pf_inv a Ha) as (ma & ea & -> & Ba).
  destruct (pf_inv b Hb) as (mb & eb & -> & Bb).
  cbn [B2R cond_Zopp] in *.
  destruct (SFsub_aligned ma mb ea eb) as (z & E1 & E2 & Ez).
  rewrite E1, E2.
  assert (Hz0 : z < 0).
  { apply (F2R_lt_mant z 0 (Z.min ea eb)). unfold F2R at 2.
    rewrite Rmult_0_l, Ez. lra. }
  destruct z as [|p|p]; try lia.
  cbn [Z.opp binary_normalize]. apply binary_round_sign.
Qed.

Lemma B2R_opp (f : double) : B2R (SFopp f) = (- B2R f)%R.
Proof.
  destruct f as [[]|[]| |[] m e]; cbn [SFopp B2R negb cond_Zopp]; try lra;
    unfold F2R; rewrite ?opp_IZR; cbn [Z.opp]; try lra;
    change (Z.neg m) with (- Z.pos m); rewrite opp_IZR; lra.
Qed.

Lemma SFsub_pf_same (a : double) : pf a -> SFsub 53 1024 a a = S754_zero false.
Proof.
  intros Ha. destruct (pf_inv a Ha) as (ma & ea & -> & _). apply SFsub_diag.
Qed.

(** The three cases of a difference that is a float: what is computed is
    zero, a positive float or the opposite of one, and its value is the
    difference. *)
Lemma SFsub_pf_exact (a b : double) :
  pf a -> pf b ->
  (B2R a <> B2R b ->
   exists g : double, pf g /\ B2R g = Rabs (B2R a - B2R b)) ->
  (SFsub 53 1024 a b = S754_zero false
   \/ pf (SFsub 53 1024 a b)
   \/ exists d : double, pf d /\ SFsub 53 1024 a b = SFopp d)
  /\ B2R (SFsub 53 1024 a b) = (B2R a - B2R b)%R.
Proof.
  intros Ha Hb Hrep.
  destruct (Rtotal_order (B2R a) (B2R b)) as [Hlt|[Heq|Hgt]].
  - destruct (Hrep ltac:(lra)) as (g & Hg & Hv).
    rewrite Rabs_left in Hv by lra.
    rewrite (SFsub_pf_swap a b Ha Hb Hlt), B2R_opp.
    destruct (SFsub_pf_pos b a Hb Ha Hlt) as [Hp Hw].
    { exists g. split; [assumption | lra]. }
    rewrite Hw. split; [|lra].
    right. right. exists (SFsub 53 1024 b a). split; [assumption|reflexivity].
  - rewrite (pf_eq a b Ha Hb Heq), SFsub_pf_same by assumption.
    split; [now left | simpl; lra].
  - destruct (Hrep ltac:(lra)) as (g & Hg & Hv).
    rewrite Rabs_right in Hv by lra.
    destruct (SFsub_pf_pos a b Ha Hb Hgt) as [Hp Hw].
    { exists g. split; assumption. }
    split; [now right; left | assumption].
Qed.

(** An addition of positive floats that does not overflow. *)
Lemma add_finite_pf (a b : double) :
  pf a -> pf b -> is_finite (SFadd 53 1024 a b) = true ->
  pf (SFadd 53 1024 a b).
Proof.
  intros Ha Hb Hfin. pose proof (add_rounds a b Ha Hb) as Hr.
  pose proof (pf_min a Ha). pose proof (pf_pos b Hb).
  pose proof (bpow_gt_0 (-1074)).
  destruct (SFadd 53 1024 a b) as [[]|[]| |[] m e]; try discriminate;
    unfold rounds_to in Hr; try contradiction; [lra|].
  exact (proj1 Hr).
Qed.

(** The order of positive floats is that of their values. *)
Lemma SFltb_pf (a b : double) :
  pf a -> pf b -> (SFltb a b = true <-> (B2R a < B2R b)%R).
Proof.
  intros Ha Hb.
  destruct (pf_inv a Ha) as (ma & ea & -> & Ba).
  destruct (pf_inv b Hb) as (mb & eb & -> & Bb).
  cbn [B2R cond_Zopp]. unfold SFltb, SFcompare.
  destruct (Z.compare_spec ea eb) as [->|H|H].
  - change (Pos.compare_cont Eq ma mb) with (Pos.compare ma mb).
    pose proof (bpow_gt_0 eb). unfold F2R.
    destruct (Pos.compare_spec ma mb) as [->|Hm|Hm].
    + split; [discriminate | lra].
    + split; [intros _|reflexivity].
      assert (IZR (Z.pos ma) < IZR (Z.pos mb))%R by (apply IZR_lt; lia). nra.
    + split; [discriminate|]. intros Hlt.
      assert (IZR (Z.pos mb) < IZR (Z.pos ma))%R by (apply IZR_lt; lia). nra.
  - pose proof (F2R_lt_exp ma mb ea eb Ba Bb H). pose proof (bpow_gt_0 ea).
    split; [intros _; lra | reflexivity].
  - pose proof (F2R_lt_exp mb ma eb ea Bb Ba H). pose proof (bpow_gt_0 eb).
    split; [discriminate | lra].
Qed.

Lemma geb_pf (a b : double) :
  pf a -> pf b ->
  (geb (const_abs a) (const_abs b) = true <-> (B2R b <= B2R a)%R).
Proof.
  intros Ha Hb.
  assert (Ea : const_abs a = a).
  { destruct (pf_inv a Ha) as (ma & ea & -> & _). reflexivity. }
  assert (Eb : const_abs b = b).
  { destruct (pf_inv b Hb) as (mb & eb & -> & _). reflexivity. }
  rewrite Ea, Eb. unfold geb. cbn [ltb eqb double_Arith].
  pose proof (SFltb_pf b a Hb Ha) as Hlt.
  pose proof (SFeqb_pf a b Ha Hb) as Heq.
  destruct (SFltb b a); [split; [intros _; apply Rlt_le; now apply Hlt | reflexivity]|].
  destruct (SFeqb a b); cbn [orb].
  - split; [intros _|reflexivity].
    rewrite (proj1 Heq eq_refl). apply Rle_refl.
  - split; [discriminate|]. intros [Hl|He].
    + apply Hlt in Hl. discriminate.
    + symmetry in He. apply (pf_eq a b Ha Hb) in He. apply Heq in He.
      discriminate.
Qed.

(** The sum of a negative and a positive float is a difference. *)
Lemma SFadd_opp_pf (d r : double) :
  pf d -> pf r -> SFadd 53 1024 (SFopp d) r = SFsub 53 1024 r d.
Proof.
  intros Hd Hr.
  destruct (pf_inv d Hd) as (md & ed & -> & _).
  destruct (pf_inv r Hr) as (mr & er & -> & _).
  unfold SFopp, SFadd, SFsub, cond_Zopp. cbn [negb].
  rewrite (Z.min_comm er ed). f_equal; lia.
Qed.

Lemma three_forms_finite (f : double) :
  f = S754_zero false \/ pf f \/ (exists d : double, pf d /\ f = SFopp d) ->
  is_finite f = true.
Proof.
  intros [->|[Hf|(d & Hd & ->)]]; [reflexivity | |].
  - destruct (pf_inv f Hf) as (m & e & -> & _). reflexivity.
  - destruct (pf_inv d Hd) as (m & e & -> & _). reflexivity.
Qed.

(** The sum [t] of two positive floats [a >= b], and its rounding error. *)
Lemma two_sum_error (a b : double) :
  pf a -> pf b -> (B2R b <= B2R a)%R -> pf (SFadd 53 1024 a b) ->
  (B2R a <= B2R (SFadd 53 1024 a b))%R
  /\ (B2R a <> B2R (SFadd 53 1024 a b) ->
      exists g : double,
        pf g /\ B2R g = (B2R (SFadd 53 1024 a b) - B2R a)%R)
  /\ ((B2R a + B2R b)%R <> B2R (SFadd 53 1024 a b) ->
      exists g : double,
        pf g
        /\ B2R g = Rabs (B2R a + B2R b - B2R (SFadd 53 1024 a b)))
  /\ (Rabs (B2R a + B2R b - B2R (SFadd 53 1024 a b)) <= B2R b)%R.
Proof.
  intros Ha Hb Hle Ht. set (t := SFadd 53 1024 a b) in *.
  pose proof (add_rounds a b Ha Hb) as Hr. fold t in Hr.
  pose proof (pf_pos a Ha) as Ha0. pose proof (pf_pos b Hb) as Hb0.
  destruct (pf_bounds a Ha) as (Hea & Hma & _).
  destruct (pf_bounds b Hb) as (Heb & Hmb & _).
  assert (HTA : (B2R a <= B2R t)%R).
  { apply (rounded_ge _ _ Hr Ht a Ha). lra. }
  assert (Het : fexpo a <= fexpo t) by (apply pf_le_exp; assumption).
  assert (Hba : fexpo b <= fexpo a) by (apply pf_le_exp; assumption).
  (* t is at most twice a *)
  assert (HT2 : (B2R t <= 2 * B2R a)%R).
  { destruct (Z_le_gt_dec (fexpo a) 970) as [He|He].
    - destruct (multiple_of_float (fexpo a + 1) (2 * B2R a)) as (g & Hg & Hv).
      + exists (fmant a). rewrite (pf_B2R a Ha). unfold F2R.
        rewrite bpow_succ. ring.
      + lia.
      + split; [lra|]. pose proof (pf_lt_bpow a Ha) as H.
        replace (53 + (fexpo a + 1)) with (fexpo a + 53 + 1) by lia.
        rewrite bpow_succ. lra.
      + rewrite <- Hv. apply (rounded_le _ _ Hr Ht g Hg). rewrite Hv. lra.
    - pose proof (pf_max t Ht) as Hmax.
      pose proof (pf_normal_big a Ha ltac:(lia)) as Hbig.
      assert (fexpo a = 971) by lia.
      assert (E1024 : bpow 1024 = (IZR (2 ^ 52) * (2 * bpow 971))%R).
      { rewrite <- bpow_succ, <- (bpow_IZR 52), <- bpow_plus by lia.
        reflexivity. }
      unfold ulp in Hbig. replace (fexpo a) with 971 in Hbig by lia.
      pose proof (bpow_gt_0 971). lra. }
  (* t is nearer to a + b than a is *)
  assert (Herr : (Rabs (B2R a + B2R b - B2R t) <= B2R b)%R).
  { apply Rabs_le. split; [|lra].
    destruct (Req_dec (B2R a) (B2R t)) as [E|N]; [lra|].
    pose proof (rounded_mid_ge _ _ Hr Ht a Ha ltac:(lra)). lra. }
  split; [assumption|]. split; [|split; [|assumption]].
  - intros Hne.
    apply (multiple_of_float (fexpo a)); [|lia|].
    + apply multiple_of_minus; apply multiple_of_pf; auto; lia.
    + pose proof (pf_lt_bpow a Ha) as H.
      replace (53 + fexpo a) with (fexpo a + 53) by lia. lra.
  - intros Hne.
    apply (multiple_of_float (fexpo b)); [|lia|].
    + assert (M : multiple_of (fexpo b) (B2R a + B2R b - B2R t)).
      { apply multiple_of_minus; [apply multiple_of_plus|];
          apply multiple_of_pf; auto; lia. }
      unfold Rabs. destruct (Rcase_abs _); [now apply multiple_of_opp | exact M].
    + pose proof (pf_lt_bpow b Hb) as H.
      replace (53 + fexpo b) with (fexpo b + 53) by lia.
      split; [apply Rabs_pos_lt; lra | lra].
Qed.

(** The error as [KahanSum] computes it: [(t - a) - b]. *)
Lemma kahan_error (a b : double) :
  pf a -> pf b -> (B2R b <= B2R a)%R -> pf (SFadd 53 1024 a b) ->
  let t := SFadd 53 1024 a b in
  let c := SFsub 53 1024 (SFsub 53 1024 t a) b in
  is_finite c = true /\ (B2R t - B2R c = B2R a + B2R b)%R.
Proof.
  intros Ha Hb Hle Ht t c. unfold c. fold t in Ht.
  destruct (two_sum_error a b Ha Hb Hle Ht) as (HTA & Hrep1 & Hrep2 & Herr).
  fold t in HTA, Hrep1, Hrep2, Herr.
  pose proof (pf_pos b Hb) as Hb0.
  destruct (SFsub_pf_exact t a Ht Ha) as [Hform Hd].
  { intros Hne. rewrite Rabs_right by lra. apply Hrep1. auto. }
  set (d := SFsub 53 1024 t a) in *.
  destruct Hform as [E|[Hdpf|(d' & Hd' & E)]].
  - (* t = a *)
    rewrite E in Hd |- *. simpl in Hd.
    destruct (pf_inv b Hb) as (mb & eb & Eb & _). rewrite Eb in *.
    cbn [SFsub B2R negb cond_Zopp is_finite]. split; [reflexivity|].
    unfold F2R in *. change (Z.neg mb) with (- Z.pos mb). rewrite opp_IZR.
    cbn [B2R cond_Zopp] in *. unfold F2R in *. lra.
  - destruct (SFsub_pf_exact d b Hdpf Hb) as [Hform' Hc].
    { intros Hne. rewrite Hd.
      replace (B2R t - B2R a - B2R b)%R with (- (B2R a + B2R b - B2R t))%R
        by ring.
      rewrite Rabs_Ropp. apply Hrep2. rewrite Hd in Hne. lra. }
    split; [now apply three_forms_finite|]. rewrite Hc, Hd. ring.
  - exfalso. rewrite E, B2R_opp in Hd. pose proof (pf_pos d' Hd'). lra.
Qed.

(** The error as [NeumaierSum] computes it: [(a - t) + b]. *)
Lemma neumaier_error (a b : double) :
  pf a -> pf b -> (B2R b <= B2R a)%R -> pf (SFadd 53 1024 a b) ->
  let t := SFadd 53 1024 a b in
  let err := SFadd 53 1024 (SFsub 53 1024 a t) b in
  is_finite err = true /\ (B2R t + B2R err = B2R a + B2R b)%R.
Proof.
  intros Ha Hb Hle Ht t err. unfold err. fold t in Ht.
  destruct (two_sum_error a b Ha Hb Hle Ht) as (HTA & Hrep1 & Hrep2 & Herr).
  fold t in HTA, Hrep1, Hrep2, Herr.
  pose proof (pf_pos b Hb) as Hb0.
  destruct (SFsub_pf_exact a t Ha Ht) as [Hform Hu].
  { intros Hne. rewrite Rabs_left1 by lra.
    replace (- (B2R a - B2R t))%R with (B2R t - B2R a)%R by ring.
    apply Hrep1. auto. }
  set (u := SFsub 53 1024 a t) in *.
  destruct Hform as [E|[Hupf|(d & Hdpf & E)]].
  - (* t = a *)
    rewrite E in Hu |- *. simpl in Hu.
    destruct (pf_inv b Hb) as (mb & eb & Eb & _). rewrite Eb in *.
    cbn [SFadd is_finite]. split; [reflexivity | lra].
  - exfalso. pose proof (pf_pos u Hupf). lra.
  - rewrite E, B2R_opp in Hu. rewrite E, (SFadd_opp_pf d b Hdpf Hb).
    destruct (SFsub_pf_exact b d Hb Hdpf) as [Hform' Hc].
    { intros Hne.
      replace (B2R b - B2R d)%R with (B2R a + B2R b - B2R t)%R by lra.
      apply Hrep2. lra. }
    split; [now apply three_forms_finite|]. rewrite Hc. lra.
Qed.

(** X19.  In [KahanSum::operator+=], when [mSum] and the addend [y] (the
    argument less the correction) are positive, [y] is not above [mSum], and
    the new sum does not overflow: the new correction is exactly the rounding
    error of the new sum, that is, [mSum - mCorrection] after the call is the
    exact value of [mSum + y] before it. *)
Theorem KahanSum_add_error_free (k : KahanSum double) (rhs : double) :
  let y := (rhs - mCorrection k)%A in
  let k' := KahanSum_add k rhs in
  pf (mSum k) -> pf y -> (B2R y <= B2R (mSum k))%R ->
  is_finite (mSum k') = true ->
  pf (mSum k') /\ is_finite (mCorrection k') = true
  /\ (B2R (mSum k') - B2R (mCorrection k') = B2R (mSum k) + B2R y)%R.
Proof.
  intros y k' Hs Hy Hle Hfin.
  assert (Ht : pf (SFadd 53 1024 (mSum k) y)) by now apply add_finite_pf.
  destruct (kahan_error (mSum k) y Hs Hy Hle Ht) as [Hc Hv].
  split; [exact Ht|]. split; [exact Hc | exact Hv].
Qed.

Lemma KahanSum_add_error_free_witness :
  let k : KahanSum double := mkKahanSum d_one d_zero in
  let rhs : double := S754_finite false 4503599627370496 (-105) in
  let y := (rhs - mCorrection k)%A in
  let k' := KahanSum_add k rhs in
  pf (mSum k') /\ is_finite (mCorrection k') = true
  /\ (B2R (mSum k') - B2R (mCorrection k') = B2R (mSum k) + B2R y)%R.
Proof.
  apply (KahanSum_add_error_free (mkKahanSum d_one d_zero)
           (S754_finite false 4503599627370496 (-105))).
  - reflexivity.
  - reflexivity.
  - cbn [mSum mCorrection sub double_Arith SFsub d_zero].
    rewrite B2R_d_one. simpl. unfold F2R.
    change (Z.pos 4503599627370496) with (2 ^ 52).
    rewrite <- (bpow_IZR 52), <- bpow_plus, <- bpow_0 by lia.
    apply bpow_le. lia.
  - reflexivity.
Defined.

(** X20.  In [NeumaierSum::operator+=], when [mSum] and the argument are
    positive and the new sum does not overflow: what is added to the
    correction is exactly the rounding error of the new sum, whichever of the
    two is the larger; so from a zero correction, [mSum + mCorrection] after
    the call is the exact value of [mSum + rhs] before it. *)
Theorem NeumaierSum_add_error_free (k : NeumaierSum double) (rhs : double) :
  let k' := NeumaierSum_add k rhs in
  pf (nSum k) -> pf rhs -> is_finite (nSum k') = true ->
  exists err : double,
    is_finite err = true
    /\ (B2R (nSum k') + B2R err = B2R (nSum k) + B2R rhs)%R
    /\ nCorrection k' = (nCorrection k + err)%A
    /\ (nCorrection k = S754_zero false ->
        is_finite (nCorrection k') = true
        /\ (B2R (nSum k') + B2R (nCorrection k')
            = B2R (nSum k) + B2R rhs)%R).
Proof.
  intros k' Hs Hr Hfin. destruct k as [s c]. cbn [nSum nCorrection] in *.
  assert (Ht : pf (SFadd 53 1024 s rhs)) by now apply add_finite_pf.
  assert (Hcore : exists err : double,
            is_finite err = true
            /\ (B2R (SFadd 53 1024 s rhs) + B2R err = B2R s + B2R rhs)%R
            /\ nCorrection k' = SFadd 53 1024 c err).
  { unfold k', NeumaierSum_add. cbn [nSum nCorrection sub add double_Arith].
    destruct (geb (const_abs s) (const_abs rhs)) eqn:G.
    - apply (geb_pf s rhs Hs Hr) in G.
      destruct (neumaier_error s rhs Hs Hr G Ht) as [He Hv].
      eexists. split; [exact He|]. split; [exact Hv | reflexivity].
    - assert (G' : (B2R s <= B2R rhs)%R).
      { destruct (Rle_or_lt (B2R s) (B2R rhs)) as [|Hlt]; [assumption|].
        apply Rlt_le, (geb_pf s rhs Hs Hr) in Hlt. congruence. }
      rewrite (add_comm_pf s rhs Hs Hr) in Ht |- *.
      rewrite (add_comm_pf s rhs Hs Hr
               : SFadd prec emax s rhs = SFadd prec emax rhs s).
      destruct (neumaier_error rhs s Hr Hs G' Ht) as [He Hv].
      eexists. split; [exact He|]. split; [lra | reflexivity]. }
  destruct Hcore as (err & He & Hv & Hc).
  exists err. split; [exact He|]. split; [exact Hv|]. split; [exact Hc|].
  intros ->. rewrite Hc. change (nSum k') with (SFadd 53 1024 s rhs).
  destruct err as [[]|[]| |[] m e]; try discriminate;
    cbn [SFadd is_finite B2R] in *; split; try reflexivity; lra.
Qed.

Lemma NeumaierSum_add_error_free_witness :
  let k : NeumaierSum double := mkNeumaierSum d_one d_zero in
  let rhs : double := d_two in
  let k' := NeumaierSum_add k rhs in
  exists err : double,
    is_finite err = true
    /\ (B2R (nSum k') + B2R err = B2R (nSum k) + B2R rhs)%R
    /\ nCorrection k' = (nCorrection k + err)%A
    /\ (nCorrection k = S754_zero false ->
        is_finite (nCorrection k') = true
        /\ (B2R (nSum k') + B2R (nCorrection k')
            = B2R (nSum k) + B2R rhs)%R).
Proof.
  exact (NeumaierSum_add_error_free (mkNeumaierSum d_one d_zero) d_two
           eq_refl eq_refl eq_refl).
Defined.

End ErrorFree.

(** ** The weight under alpha 1 in binary64 *)

Section WeightCount.
Local Open Scope Z_scope.
Local Unset Implicit Arguments.

(** A multiplication by one is exact. *)
Lemma SFmul_one_pf (w : double) : pf w -> SFmul 53 1024 d_one w = w.
Proof.
  intros Hw. destruct (pf_inv w Hw) as (mw & ew & Ew & _).
  assert (Hr : rounds_to (B2R w) (SFmul 53 1024 d_one w)).
  { replace (B2R w) with (F2R (Z.pos 4503599627370496) (-52) * B2R w)%R.
    - rewrite Ew. apply SFmul_spec. reflexivity.
    - change (F2R (Z.pos 4503599627370496) (-52)) with (B2R d_one).
      rewrite B2R_d_one. ring. }
  pose proof (pf_min w Hw). pose proof (pf_max w Hw).
  pose proof overflow_threshold.
  assert (Hq : pf (SFmul 53 1024 d_one w))
    by (apply (rounds_to_pf _ _ Hr); lra).
  apply (rounded_exact _ _ Hr Hq w Hw). reflexivity.
Qed.

(** The integers up to 2^53 are floats. *)
Lemma integer_float (k : Z) :
  0 < k <= 2 ^ 53 -> exists g : double, pf g /\ B2R g = IZR k.
Proof.
  intros Hk. destruct (Z.eq_dec k (2 ^ 53)) as [->|Hne].
  - exists (S754_finite false 4503599627370496 1). split; [reflexivity|].
    simpl. unfold F2R. change (Z.pos 4503599627370496) with (2 ^ 52).
    rewrite <- (bpow_IZR 52), <- bpow_plus, (bpow_IZR (52 + 1)) by lia.
    reflexivity.
  - destruct (pf_of_F2R (Z.to_nat (0 + 1074)) k 0) as (g & Hg & Hv); try lia.
    exists g. split; [assumption|]. rewrite Hv. unfold F2R.
    rewrite bpow_0. ring.
Qed.

Lemma weight_next (w : double) (k : Z) :
  pf w -> 1 <= k -> B2R w = IZR (Z.min k (2 ^ 53)) ->
  pf (SFadd 53 1024 d_one (SFmul 53 1024 d_one w))
  /\ B2R (SFadd 53 1024 d_one (SFmul 53 1024 d_one w))
     = IZR (Z.min (k + 1) (2 ^ 53)).
Proof.
  intros Hw Hk Hv. rewrite (SFmul_one_pf w Hw).
  destruct (Z_lt_le_dec k (2 ^ 53)) as [Hlt|Hge].
  - rewrite Z.min_l in Hv by lia. rewrite Z.min_l by lia.
    destruct (integer_float (k + 1)) as (g & Hg & Hgv); [lia|].
    pose proof (add_rounds d_one w (eq_refl : pf d_one) Hw) as Hr.
    rewrite B2R_d_one, Hv, <- plus_IZR, Z.add_comm, <- Hgv in Hr.
    pose proof (pf_min g Hg). pose proof (pf_max g Hg).
    pose proof overflow_threshold.
    assert (Ht : pf (SFadd 53 1024 d_one w))
      by (apply (rounds_to_pf _ _ Hr); lra).
    rewrite (rounded_exact _ _ Hr Ht g Hg eq_refl). split; assumption.
  - rewrite Z.min_r in Hv by lia. rewrite Z.min_r by lia.
    destruct (integer_float (2 ^ 53)) as (g & Hg & Hgv); [lia|].
    assert (Ew : w = S754_finite false 4503599627370496 1).
    { apply pf_eq; [assumption | reflexivity |]. rewrite Hv.
      simpl. unfold F2R. change (Z.pos 4503599627370496) with (2 ^ 52).
      rewrite <- (bpow_IZR 52), <- bpow_plus, (bpow_IZR (52 + 1)) by lia.
      reflexivity. }
    rewrite Ew in Hv |- *.
    replace (SFadd 53 1024 d_one (S754_finite false 4503599627370496 1))
      with (S754_finite false 4503599627370496 1) by (vm_compute; reflexivity).
    split; [reflexivity | exact Hv].
Qed.

Lemma feed_weight_count (l : list double) :
  forall (s : Statistics double) (k : Z),
    mAlpha s = d_one -> 1 <= k ->
    pf (mWeight s) -> B2R (mWeight s) = IZR (Z.min k (2 ^ 53)) ->
    pf (mWeight (feed l s))
    /\ B2R (mWeight (feed l s))
       = IZR (Z.min (k + Z.of_nat (length l)) (2 ^ 53)).
Proof.
  induction l as [|v l IH]; intros s k Ha Hk Hw Hv.
  - cbn [feed run map fold_left length Z.of_nat]. rewrite Z.add_0_r.
    split; assumption.
  - rewrite feed_cons.
    destruct (weight_next (mWeight s) k Hw Hk Hv) as [Hw' Hv'].
    replace (k + Z.of_nat (length (v :: l)))
      with (k + 1 + Z.of_nat (length l))
      by (cbn [length]; lia).
    apply IH; try lia.
    + exact Ha.
    + cbn [Statistics_add mWeight one add mul double_Arith]. rewrite Ha.
      exact Hw'.
    + cbn [Statistics_add mWeight one add mul double_Arith]. rewrite Ha.
      exact Hv'.
Qed.

(** X21.  With alpha 1 the weight in binary64 is the number of samples, exactly,
    up to 2^53 samples; from there on it stays at 2^53, whatever is added.
    The samples themselves do not matter. *)
Theorem weight_counts_up_to_2_53 (l : list double) :
  let s := feed l (Statistics_new d_one) in
  is_finite (getWeight s) = true
  /\ B2R (getWeight s) = IZR (Z.min (Z.of_nat (length l)) (2 ^ 53)).
Proof.
  intros s. unfold s, getWeight. destruct l as [|v l].
  - split; [reflexivity|].
    replace (Z.min (Z.of_nat (length (@nil double))) (2 ^ 53)) with 0
      by reflexivity.
    reflexivity.
  - rewrite feed_cons.
    destruct (feed_weight_count l (Statistics_add v (Statistics_new d_one)) 1)
      as [Hw Hv]; try reflexivity; try lia.
    + cbn [Statistics_add Statistics_new mWeight mAlpha]. simpl.
      unfold F2R. change (Z.pos 4503599627370496) with (2 ^ 52).
      rewrite <- (bpow_IZR 52), <- bpow_plus by lia. reflexivity.
    + split.
      * destruct (pf_inv _ Hw) as (m & e & -> & _). reflexivity.
      * rewrite Hv. f_equal. cbn [length]. lia.
Qed.

End WeightCount.

(** ** A constant stream in binary64 *)

Section ConstantStream.
Local Open Scope Z_scope.
Local Unset Implicit Arguments.

Lemma SFmul_comm_pf (a w : double) :
  pf a -> pf w -> SFmul 53 1024 a w = SFmul 53 1024 w a.
Proof.
  intros Ha Hw. destruct (pf_inv a Ha) as (ma & ea & -> & _).
  destruct (pf_inv w Hw) as (mw & ew & -> & _).
  unfold SFmul. now rewrite (Pos.mul_comm ma mw), (Z.add_comm ea ew).
Qed.

(** Under a positive alpha the weight, once zero, at least 1 or infinite,
    is at least 1 or infinite after an [add]: it is never Not-a-Number and
    never zero again. *)
Lemma weight_step (alpha w : double) :
  pf alpha ->
  w = S754_zero false
  \/ (pf w /\ (1 <= B2R w)%R) \/ w = S754_infinity false ->
  let w' := SFadd 53 1024 d_one (SFmul 53 1024 alpha w) in
  (pf w' /\ (1 <= B2R w')%R) \/ w' = S754_infinity false.
Proof.
  intros Ha Hw w'. pose proof B2R_d_one as E1.
  assert (Hone : pf d_one /\ (1 <= B2R d_one)%R) by (split; [reflexivity|lra]).
  destruct Hw as [-> | [[Hw Hge] | ->]].
  - left. destruct (pf_inv alpha Ha) as (ma & ea & Ea & _).
    subst alpha w'. exact Hone.
  - assert (Hn : 2 ^ 52 <= fmant w).
    { apply (pf_bounds w Hw).
      assert (fexpo d_one <= fexpo w)
        by (apply pf_le_exp; [reflexivity | assumption | lra]).
      simpl in *. lia. }
    assert (Hr : rounds_to (B2R w * B2R alpha) (SFmul 53 1024 alpha w)).
    { rewrite (SFmul_comm_pf alpha w Ha Hw).
      destruct (pf_inv alpha Ha) as (ma & ea & -> & _).
      destruct (pf_inv w Hw) as (mw & ew & Ew & _). subst w.
      apply SFmul_spec. exact Hn. }
    subst w'.
    destruct (SFmul 53 1024 alpha w) as [[]|[]| |[] mp ep];
      simpl in Hr; try contradiction.
    + left. exact Hone.
    + right. reflexivity.
    + destruct Hr as (Hb & _).
      assert (Hp : pf (S754_finite false mp ep)) by exact Hb.
      pose proof (add_rounds d_one _ (eq_refl : pf d_one) Hp) as Hr2.
      pose proof (pf_pos _ Hp) as Hpos. rewrite E1 in Hr2.
      destruct (SFadd 53 1024 d_one (S754_finite false mp ep))
        as [[]|[]| |[] mt et] eqn:Et; simpl in Hr2; try contradiction.
      * exfalso. pose proof (bpow_le (-1074) 0 ltac:(lia)) as Hl.
        rewrite bpow_0 in Hl. simpl in Hpos. lra.
      * right. reflexivity.
      * left. assert (Ht : pf (S754_finite false mt et)) by exact (proj1 Hr2).
        split; [exact Ht|]. rewrite <- E1.
        apply (rounded_ge (1 + B2R (S754_finite false mp ep))
                          (S754_finite false mt et) Hr2 Ht d_one);
          [reflexivity | rewrite E1; lra].
  - right. destruct (pf_inv alpha Ha) as (ma & ea & Ea & _).
    subst alpha w'. reflexivity.
Qed.

(** One more [add] of the same number keeps the state. *)
Lemma constant_step (alpha : double) (s : bool) (m : positive) (e : Z)
                    (st : Statistics double) :
  pf alpha ->
  constant_state alpha (S754_finite s m e) st ->
  constant_state alpha (S754_finite s m e)
                 (Statistics_add (S754_finite s m e) st).
Proof.
  intros Ha (Eal & Emean & [z Ez] & Emin & Emax & Hw).
  set (v := S754_finite s m e : double) in *.
  destruct st as [al mn mx n w w2 mean m2].
  cbn [mAlpha mMean mM2 mMin mMax mWeight] in *. subst al mean m2 mn mx.
  pose proof (weight_step alpha w Ha (or_intror Hw)) as Hw'.
  cbv zeta in Hw'.
  set (w' := SFadd 53 1024 d_one (SFmul 53 1024 alpha w)) in *.
  assert (Ed : SFsub prec emax v v = S754_zero false) by apply SFsub_diag.
  assert (Eq : SFdiv prec emax (S754_zero false) w' = S754_zero false).
  { destruct Hw' as [[Hp _] | ->]; [|reflexivity].
    destruct (pf_inv w' Hp) as (mw & ew & -> & _). reflexivity. }
  assert (Ek : KahanSum_add (mkKahanSum v (S754_zero false)) (S754_zero false)
               = mkKahanSum v (S754_zero false)).
  { unfold KahanSum_add. cbn [mSum mCorrection sub add double_Arith].
    change (SFsub prec emax (S754_zero false) (S754_zero false))
      with (S754_zero false).
    change (SFadd prec emax v (S754_zero false)) with v.
    now rewrite Ed. }
  set (st := mkStatistics alpha v v n w w2 (mkKahanSum v (S754_zero false))
                          (S754_zero z)).
  assert (Em : mMean (Statistics_add v st)
               = mkKahanSum v (S754_zero false)).
  { change (mMean (Statistics_add v st))
      with (KahanSum_add (mkKahanSum v (S754_zero false))
                         (SFdiv prec emax (SFsub prec emax v v) w')).
    now rewrite Ed, Eq. }
  unfold constant_state.
  split; [reflexivity|]. split; [exact Em|]. split.
  { change (mM2 (Statistics_add v st))
      with (SFadd prec emax
              (SFmul prec emax alpha (S754_zero z))
              (SFmul prec emax (SFsub prec emax v v)
                     (SFsub prec emax v
                            (mSum (mMean (Statistics_add v st)))))).
    rewrite Em. cbn [mSum]. rewrite Ed.
    destruct (pf_inv alpha Ha) as (ma & ea & -> & _).
    destruct z; eexists; reflexivity. }
  split.
  { change (mMin (Statistics_add v st)) with (std_min v v).
    unfold std_min. now destruct (_ <? _)%A. }
  split.
  { change (mMax (Statistics_add v st)) with (std_max v v).
    unfold std_max. now destruct (_ <? _)%A. }
  exact Hw'.
Qed.

Lemma constant_feed (alpha : double) (s : bool) (m : positive) (e : Z)
                    (n : nat) :
  pf alpha ->
  forall st : Statistics double,
    constant_state alpha (S754_finite s m e) st ->
    constant_state alpha (S754_finite s m e)
                   (feed (repeat (S754_finite s m e) n) st).
Proof.
  intros Ha. induction n as [|n IH]; intros st Hst; [exact Hst|].
  cbn [repeat]. rewrite feed_cons. apply IH.
  now apply constant_step.
Qed.

(** X22.  A stream of one finite non-zero number [v], however long, under a
    finite positive alpha: in binary64 the mean, the minimum and the maximum
    are exactly [v], and [mM2] and the population variance are exactly zero.
    No rounding error builds up, and an overflow of the weight does no
    harm. *)
Theorem constant_stream (alpha : double) (s : bool) (m : positive) (e : Z)
                        (n : nat) :
  pf alpha -> bounded prec emax m e = true ->
  let v : double := S754_finite s m e in
  let st := feed (repeat v (S n)) (Statistics_new alpha) in
  getMean st = v /\ getMin st = v /\ getMax st = v
  /\ (exists z : bool, mM2 st = S754_zero z)
  /\ (exists z : bool, getPopVariance st = S754_zero z).
Proof.
  intros Ha Hb v st.
  assert (Hfin : is_finite alpha = true).
  { destruct (pf_inv alpha Ha) as (ma & ea & -> & _). reflexivity. }
  destruct (first_add_state alpha s m e Hfin Hb) as (Hw & Hmean & Hm2).
  destruct (first_sample_extremes alpha v eq_refl) as [Hmin Hmax].
  assert (H0 : constant_state alpha v (Statistics_add v (Statistics_new alpha))).
  { unfold constant_state. split; [reflexivity|].
    split; [exact Hmean|]. split; [exact Hm2|].
    split; [exact Hmin|]. split; [exact Hmax|].
    left. fold v in Hw. rewrite Hw. split; [reflexivity|].
    rewrite B2R_d_one. lra. }
  pose proof (constant_feed alpha s m e n Ha _ H0) as Hst.
  change (feed (repeat (S754_finite s m e) n)
               (Statistics_add v (Statistics_new alpha))) with st in Hst.
  destruct Hst as (_ & Em & [z Ez] & Emin & Emax & Hwt).
  split; [unfold getMean; now rewrite Em|].
  split; [exact Emin|]. split; [exact Emax|].
  split; [now exists z|].
  unfold getPopVariance. destruct (mN st <? 1); [now exists false|].
  rewrite Ez. destruct Hwt as [[Hp _] | ->].
  - destruct (pf_inv _ Hp) as (mw & ew & -> & _).
    exists z. now destruct z.
  - exists z. now destruct z.
Qed.

Lemma constant_stream_witness :
  let v : double := S754_finite false 4503599627370496 (-51) in
  let st := feed (repeat v 4) (Statistics_new d_half) in
  getMean st = v /\ getMin st = v /\ getMax st = v
  /\ (exists z : bool, mM2 st = S754_zero z)
  /\ (exists z : bool, getPopVariance st = S754_zero z).
Proof.
  exact (constant_stream d_half false 4503599627370496 (-51) 3
                         eq_refl eq_refl).
Defined.

End ConstantStream.

(** * The sample weight and the first sample, in both arithmetics *)

Section BothArithmetics.
Local Open Scope Z_scope.
Local Unset Implicit Arguments.

(** A positive float divided by itself is one. *)
Lemma SFdiv_self (w : double) : pf w -> SFdiv 53 1024 w w = d_one.
Proof.
  intros Hw. pose proof (div_rounds w w Hw Hw) as Hr.
  pose proof (pf_pos w Hw) as Hpos.
  replace (B2R w / B2R w)%R with 1%R in Hr by (field; lra).
  pose proof overflow_threshold.
  pose proof (pf_min d_one eq_refl) as Hlo.
  pose proof (pf_max d_one eq_refl) as Hhi. rewrite B2R_d_one in Hlo, Hhi.
  assert (Hq : pf (SFdiv 53 1024 w w))
    by (apply (rounds_to_pf _ _ Hr); lra).
  apply (rounded_exact _ _ Hr Hq d_one eq_refl).
  now rewrite B2R_d_one.
Qed.

(** Under alpha 1 the two weights follow the same recurrence. *)
Lemma weight2_is_weight (l : list double) :
  forall s : Statistics double,
    mAlpha s = d_one -> mWeight2 s = mWeight s ->
    mWeight2 (feed l s) = mWeight (feed l s).
Proof.
  induction l as [|v l IH]; intros s Ha E; [exact E|].
  rewrite feed_cons. apply IH.
  - exact Ha.
  - cbn [Statistics_add mWeight mWeight2]. rewrite Ha, E. reflexivity.
Qed.

(** In binary64 with alpha 1, once a sample is added, the term
    [weight - weight2 / weight] is computed as [weight - 1]. *)
Lemma sample_weight_binary64 (l : list double) :
  l <> [] ->
  let s := feed l (Statistics_new d_one) in
  getSampleWeight s = (getWeight s - one)%A.
Proof.
  intros Hne s. destruct l as [|v l]; [congruence|].
  assert (Hw : pf (mWeight s)).
  { unfold s. rewrite feed_cons.
    apply (feed_weight_count l (Statistics_add v (Statistics_new d_one)) 1);
      try reflexivity; try lia.
    cbn [Statistics_add Statistics_new mWeight mAlpha]. simpl.
    unfold F2R. change (Z.pos 4503599627370496) with (2 ^ 52).
    rewrite <- (bpow_IZR 52), <- bpow_plus by lia. reflexivity. }
  assert (E : mWeight2 s = mWeight s)
    by (apply weight2_is_weight; reflexivity).
  unfold getSampleWeight, getWeight. rewrite E.
  change (mWeight s / mWeight s)%A with (SFdiv 53 1024 (mWeight s) (mWeight s)).
  rewrite (SFdiv_self _ Hw). reflexivity.
Qed.

(** The first sample in binary64, when it is finite and alpha is finite:
    the count is 1, the mean compares equal to the sample, the variance is
    the zero of the guard and the population variance compares equal to
    zero. *)
Lemma first_sample_finite (alpha v : double) :
  is_finite alpha = true -> finite_double v ->
  let s := Statistics_add v (Statistics_new alpha) in
  getN s = 1
  /\ (getMean s =? v)%A = true
  /\ getVariance s = zero
  /\ (getPopVariance s =? zero)%A = true.
Proof.
  intros Ha Hv s. destruct v as [sv| | |sv m e]; try contradiction.
  - unfold s.
    destruct alpha as [[]|[]| |[] ma ea], sv; try discriminate;
      repeat split; reflexivity.
  - destruct (first_add_state alpha sv m e Ha Hv) as (Hw & Hmean & [z Hz]).
    fold s in Hw, Hmean, Hz.
    split; [reflexivity|]. split; [|split; [reflexivity|]].
    + unfold getMean. rewrite Hmean. cbn [KahanSum_value mSum].
      change (SFeqb (S754_finite sv m e) (S754_finite sv m e) = true).
      unfold SFeqb. now rewrite SFcompare_refl.
    + unfold getPopVariance.
      replace (mN s <? 1) with false by reflexivity.
      rewrite Hz, Hw. now destruct z.
Qed.

End BothArithmetics.

(** C2, as amended.  [getVariance()] divides by
    [weight - weight2 / weight].  In exact arithmetic, when the samples (at
    least one) are added under one alpha, not negative, this term is
    [(weight - 1) * 2 / (1 + alpha)], and it is [weight - 1] when that
    alpha is 1.  In binary64 with alpha 1 the term is [weight - 1] as
    well, for any samples, one at least. *)
Theorem C2_sample_weight :
  (forall (a : Qc) (l : list Qc),
      0 <= a -> l <> [] ->
      let s := feed (map Fin l) (Statistics_new (Fin a)) in
      getVariance s
      = (if (mN s <? 2)%Z then zero
         else (mM2 s / (mWeight s - mWeight2 s / mWeight s))%A)
      /\ getSampleWeight s
         = ((getWeight s - one) * (one + one) / (one + Fin a))%A
      /\ (a = 1 -> getSampleWeight s = (getWeight s - one)%A))
  /\ (forall l : list double,
         l <> [] ->
         let s := feed l (Statistics_new d_one) in
         getSampleWeight s = (getWeight s - one)%A).
Proof.
  split.
  - intros a l Ha Hne. exact (sample_weight_exact Ha Hne).
  - intros l Hne. exact (sample_weight_binary64 l Hne).
Qed.

Lemma C2_witness :
  getSampleWeight (feed (map Fin [1; Q2Qc 3]) (Statistics_new (Fin 1)))
  = (getWeight (feed (map Fin [1; Q2Qc 3]) (Statistics_new (Fin 1))) - one)%A
  /\ getSampleWeight (feed [d_two; d_four] (Statistics_new d_one))
     = (getWeight (feed [d_two; d_four] (Statistics_new d_one)) - one)%A.
Proof.
  assert (Ha : 0 <= 1) by (qc2q; lra).
  assert (Hne : [1; Q2Qc 3] <> []) by discriminate.
  assert (Hne' : [d_two; d_four] <> []) by discriminate.
  split.
  - exact (proj2 (proj2 (proj1 C2_sample_weight 1 [1; Q2Qc 3] Ha Hne))
                 eq_refl).
  - exact (proj2 C2_sample_weight [d_two; d_four] Hne').
Defined.

(** The constant-alpha formula of the comment in [getSampleWeight] is an
    identity of exact arithmetic only: in binary64, with alpha the double
    nearest to 0.1 and two samples, the term and the formula differ in the
    last place. *)
Lemma sample_weight_formula_binary64 :
  let alpha : double := S754_finite false 7205759403792794 (-56) in
  let s := feed [d_one; d_two] (Statistics_new alpha) in
  getSampleWeight s = S754_finite false 6550690367084364 (-55)
  /\ ((getWeight s - one) * (one + one) / (one + alpha))%A
     = S754_finite false 6550690367084363 (-55).
Proof. vm_compute. split; reflexivity. Qed.

(** C6, as amended.  In every state [getVariance()] returns zero when the
    count is below 2 and [getPopVariance()] returns zero when it is below 1.
    After one finite sample [v] added to a new engine, the count is 1, the
    mean equals [v], [getVariance()] returns zero and the population
    variance equals zero: in exact arithmetic for any alpha, and in binary64
    for any finite alpha, equality being that of [==]. *)
Theorem C6_undefined_variances :
  (forall (D : Type) (A : Arith D) (s : Statistics D),
      ((mN s < 2)%Z -> getVariance s = zero)
      /\ ((mN s < 1)%Z -> getPopVariance s = zero))
  /\ (forall a v : Qc,
         let s := Statistics_add (Fin v) (Statistics_new (Fin a)) in
         getN s = 1%Z
         /\ getMean s = Fin v
         /\ getVariance s = zero
         /\ getPopVariance s = zero)
  /\ (forall alpha v : double,
         is_finite alpha = true -> finite_double v ->
         let s := Statistics_add v (Statistics_new alpha) in
         getN s = 1%Z
         /\ (getMean s =? v)%A = true
         /\ getVariance s = zero
         /\ (getPopVariance s =? zero)%A = true).
Proof.
  split; [exact (proj1 undefined_variances_exact)|].
  split; [exact (proj2 undefined_variances_exact)|].
  intros alpha v Ha Hv. exact (first_sample_finite alpha v Ha Hv).
Qed.

Lemma C6_witness :
  getVariance (Statistics_add (Fin 1) (Statistics_new (Fin 1))) = zero
  /\ getPopVariance (Statistics_new (Fin 1)) = zero
  /\ (getMean (Statistics_add d_two (Statistics_new d_half)) =? d_two)%A
     = true.
Proof.
  split; [|split].
  - apply (proj1 C6_undefined_variances). vm_compute. reflexivity.
  - apply (proj1 C6_undefined_variances). vm_compute. reflexivity.
  - exact (proj1 (proj2 (proj2 (proj2 C6_undefined_variances) d_half d_two
                               eq_refl eq_refl))).
Defined.

(** An infinite sample, or a Not-a-Number: after [add] of positive infinity
    to a new engine [mM2] is infinity times (infinity less infinity), and
    the population variance is Not-a-Number, not zero; after [add] of a
    Not-a-Number the mean is Not-a-Number, which equals nothing. *)
Lemma C6_fails_for_infinite_sample :
  let s := Statistics_add d_infinity (Statistics_new d_one) in
  let s' := Statistics_add (S754_nan : double) (Statistics_new d_one) in
  getN s = 1%Z
  /\ getPopVariance s = S754_nan
  /\ (getPopVariance s =? zero)%A = false
  /\ getMean s' = S754_nan
  /\ (getMean s' =? S754_nan)%A = false.
Proof. vm_compute. repeat split; reflexivity. Qed.
